(** * Pilot configuration core: model, polling monitor, ingress view

    A shallow embedding of three Go packages of the repository:
    - [model]   : [model/validation.go] (configuration records, events,
                  descriptor and payload validation);
    - [memory]  : [adapter/config/memory/monitor.go] (the polling monitor
                  that diffs successive listings of a store);
    - [ingress] : [adapter/config/ingress/controller.go] (the read-only
                  view of Kubernetes ingress resources).

    Go strings are [string] (byte sequences, compared bytewise by
    [String.compare]), Go maps are [gmap], slices are lists, Go's [int]
    indices are [Z]. *)

From Stdlib Require Import ZArith QArith String Ascii List Sorted Permutation Lia.
From stdpp Require Import base decidable option list list_numbers sorting strings pretty gmap.

Local Open Scope Z_scope.

(** ** Go strings: the order used by [<] on keys *)

Module gostring.

(** [a < b] on Go strings is the bytewise lexicographic order. *)
Definition lt (a b : string) : Prop := String.ltb a b = true.

Lemma ltb_le_ne a b : String.ltb a b = true ↔ String.le a b ∧ a ≠ b.
Proof.
  unfold String.le, String.ltb, String.leb.
  destruct (String.compare a b) eqn:E; simpl.
  - apply String.compare_eq_iff in E. subst.
    split; [discriminate | intros [_ Hn]; by destruct Hn].
  - split; [|done]. intros _. split; [done|]. intros ->.
    pose proof (String.compare_antisym b b) as Ha.
    rewrite E in Ha. discriminate.
  - split; [discriminate | intros [[] _]].
Qed.

Lemma ltb_irrefl a : String.ltb a a = false.
Proof.
  destruct (String.ltb a a) eqn:E; [|done].
  apply ltb_le_ne in E as [_ ?]. done.
Qed.

Lemma ltb_trans a b c :
  String.ltb a b = true → String.ltb b c = true → String.ltb a c = true.
Proof.
  rewrite !ltb_le_ne. intros [Hab Hne] [Hbc Hne']. split.
  - by etrans.
  - intros ->. apply Hne. by apply (anti_symm String.le).
Qed.


(** Trichotomy: two different keys are ordered one way or the other. *)
Lemma ltb_total a b : a ≠ b → String.ltb a b = false → String.ltb b a = true.
Proof.
  intros Hne Hlt. apply ltb_le_ne. split; [|done].
  destruct (total String.le a b) as [H|H]; [|done].
  exfalso. assert (String.ltb a b = true) as Ht by (by apply ltb_le_ne).
  congruence.
Qed.

Lemma nlt_le a b : String.ltb b a = false ↔ String.le a b.
Proof.
  split.
  - intros H. destruct (decide (a = b)) as [->|Hne]; [reflexivity|].
    apply (ltb_total b a) in H; [|done]. by apply ltb_le_ne in H as [? _].
  - intros H. destruct (String.ltb b a) eqn:E; [|done].
    apply ltb_le_ne in E as [H' Hne]. exfalso. apply Hne.
    by apply (anti_symm String.le).
Qed.

End gostring.

(** ** Go control flow and slices *)

Module go.

(** What a loop body did last: fell through to the next iteration, or
    executed [return]. *)
Inductive flow := Next | Return.

#[global] Instance flow_eq_dec : EqDecision flow.
Proof. solve_decision. Defined.

(** [l[i]] for an [int] index; [None] where Go panics (index out of
    range). *)
Definition index {A} (l : list A) (i : Z) : option A :=
  if decide (0 ≤ i) then l !! Z.to_nat i else None.

(** [len(l)] as an [int]. *)
Definition len {A} (l : list A) : Z := Z.of_nat (length l).

(** [for _, x := range l { body }] over a state [S]; the body may panic
    ([None]) or [return]. *)
Fixpoint for_range {A S} (body : A → S → option (flow * S))
    (l : list A) (s : S) : option (flow * S) :=
  match l with
  | [] => Some (Next, s)
  | x :: l =>
      r ← body x s;
      match r with
      | (Return, s') => Some (Return, s')
      | (Next, s') => for_range body l s'
      end
  end.

Lemma for_range_is_Some {A S} (body : A → S → option (flow * S)) l s :
  (∀ x s, is_Some (body x s)) → is_Some (for_range body l s).
Proof.
  intros Hb. revert s. induction l as [|x l IH]; intros s; simpl; [done|].
  destruct (Hb x s) as [[[] s'] ->]; simpl; [apply IH|done].
Qed.

(** A property of the state kept by every iteration is kept by the loop. *)
Lemma for_range_invariant {A S} (P : S → Prop)
    (body : A → S → option (flow * S)) l s r :
  (∀ x s fl s', P s → body x s = Some (fl, s') → P s') →
  P s → for_range body l s = Some r → P r.2.
Proof.
  intros Hb. revert s. induction l as [|x l IH]; intros s Hs; simpl.
  - by intros [= <-].
  - destruct (body x s) as [[[] s']|] eqn:E; simpl; [| |done].
    + by eapply IH, Hb.
    + intros [= <-]. by eapply Hb.
Qed.

(** A loop whose body never executes [return] is still running after any
    number of iterations. *)
Lemma for_range_Next {A S} (body : A → S → option (flow * S)) l s r :
  (∀ x s fl s', body x s = Some (fl, s') → fl = Next) →
  for_range body l s = Some r → r.1 = Next.
Proof.
  intros Hb. revert s. induction l as [|x l IH]; intros s; simpl.
  - by intros [= <-].
  - destruct (body x s) as [[[] s']|] eqn:E; simpl; [| |done].
    + apply IH.
    + by apply Hb in E.
Qed.

Lemma for_range_app {A S} (body : A → S → option (flow * S)) l1 l2 s :
  for_range body (l1 ++ l2) s =
    r ← for_range body l1 s;
    match r with
    | (Return, s') => Some (Return, s')
    | (Next, s') => for_range body l2 s'
    end.
Proof.
  revert s. induction l1 as [|x l1 IH]; intros s; simpl; [done|].
  destruct (body x s) as [[[] s']|]; simpl; [apply IH|done..].
Qed.

Lemma Sorted_weaken {A} (R1 R2 : relation A) (l : list A) :
  (∀ x y, R1 x y → R2 x y) → Sorted R1 l → Sorted R2 l.
Proof.
  intros HR. induction 1 as [|x l _ IH Hhd]; constructor; [done|].
  destruct Hhd; constructor. by apply HR.
Qed.

Lemma filter_nil_Forall {A} (P : A → Prop) `{∀ x, Decision (P x)} (l : list A) :
  Forall (λ x, ¬ P x) l → filter P l = [].
Proof.
  induction 1 as [|x l Hx _ IH]; [done|]. by rewrite filter_cons_False.
Qed.



Lemma index_drop {A} (l : list A) (i : Z) :
  0 ≤ i → i < len l →
  ∃ x, index l i = Some x ∧ drop (Z.to_nat i) l = x :: drop (Z.to_nat (i + 1)) l.
Proof.
  unfold index, len. intros Hi Hlt. rewrite decide_True by done.
  destruct (lookup_lt_is_Some_2 l (Z.to_nat i)) as [x Hx]; [lia|].
  exists x. split; [done|].
  replace (Z.to_nat (i + 1)) with (S (Z.to_nat i)) by lia.
  by apply drop_S.
Qed.

Lemma drop_len {A} (l : list A) (i : Z) : len l ≤ i → drop (Z.to_nat i) l = [].
Proof. unfold len. intros. apply drop_ge. lia. Qed.

(** Go's [int] on the 64-bit platforms the program is built for: two's
    complement, wrapping around. *)
Definition int_min : Z := - 2 ^ 63.
Definition int_max : Z := 2 ^ 63 - 1.
Definition wrap_int (z : Z) : Z := (z + 2 ^ 63) `mod` 2 ^ 64 - 2 ^ 63.
Definition int_add (a b : Z) : Z := wrap_int (a + b).

Lemma wrap_int_id z : int_min ≤ z ≤ int_max → wrap_int z = z.
Proof.
  unfold int_min, int_max, wrap_int. intros.
  rewrite Z.mod_small by lia. lia.
Qed.

(** The range of an [int32]. *)
Definition is_int32 (z : Z) : Prop := - 2 ^ 31 ≤ z < 2 ^ 31.

(** [strings.Split(s, sep)] for a one-byte separator: the pieces between
    the occurrences of [sep], one more than there are occurrences. *)
Fixpoint strings_Split (s : string) (sep : ascii) : list string :=
  match s with
  | EmptyString => [EmptyString]
  | String c rest =>
      if decide (c = sep) then EmptyString :: strings_Split rest sep
      else
        match strings_Split rest sep with
        | [] => [String c EmptyString]
        | piece :: pieces => String c piece :: pieces
        end
  end.

(** All bytes of a string satisfy [p]. *)
Fixpoint string_forallb (p : ascii → bool) (s : string) : bool :=
  match s with
  | EmptyString => true
  | String c rest => p c && string_forallb p rest
  end.

Fixpoint string_last (s : string) : option ascii :=
  match s with
  | EmptyString => None
  | String c EmptyString => Some c
  | String _ rest => string_last rest
  end.

(** [strings.Split] gives at least one piece. *)
Lemma strings_Split_not_nil (s : string) (sep : ascii) : strings_Split s sep ≠ [].
Proof.
  induction s as [|c rest IH]; simpl; [done|].
  case_decide; [done|]. by destruct (strings_Split rest sep).
Qed.

(** A string that does not hold [sep] is its own single piece. *)
Lemma strings_Split_no_sep (s : string) (sep : ascii) :
  string_forallb (λ c, negb (bool_decide (c = sep))) s = true →
  strings_Split s sep = [s].
Proof.
  induction s as [|c rest IH]; simpl; [done|].
  intros [Hc Hrest]%andb_true_iff.
  apply negb_true_iff, bool_decide_eq_false in Hc.
  rewrite decide_False by done. by rewrite IH.
Qed.

(** The bytes of a string are those of its pieces and the separator. *)
Lemma string_forallb_Split (p : ascii → bool) (s : string) (sep : ascii) :
  p sep = true →
  Forall (λ piece, string_forallb p piece = true) (strings_Split s sep) →
  string_forallb p s = true.
Proof.
  intros Hsep. induction s as [|c rest IH]; simpl; [done|].
  case_decide as Hc.
  - subst c. rewrite Hsep. intros [_ Hrest]%Forall_cons. by apply IH.
  - destruct (strings_Split rest sep) as [|piece pieces].
    + intros [Hp _]%Forall_cons. simpl in Hp.
      apply andb_true_iff in Hp as [-> _]. simpl. by apply IH.
    + intros [Hp Hrest]%Forall_cons. simpl in Hp.
      apply andb_true_iff in Hp as [-> Hpiece]. simpl.
      apply IH. by constructor.
Qed.

Lemma string_forallb_impl (p q : ascii → bool) (s : string) :
  (∀ c, p c = true → q c = true) →
  string_forallb p s = true → string_forallb q s = true.
Proof.
  intros Hpq. induction s as [|c rest IH]; simpl; [done|].
  intros [Hc Hrest]%andb_true_iff. by rewrite (Hpq c Hc), IH.
Qed.

(** [strings.Join(pieces, sep)] for a one-byte separator. *)
Fixpoint strings_Join (pieces : list string) (sep : ascii) : string :=
  match pieces with
  | [] => EmptyString
  | piece :: rest =>
      match rest with
      | [] => piece
      | _ :: _ => (piece +:+ String sep (strings_Join rest sep))%string
      end
  end.

Lemma strings_Split_app (a rest : string) (sep : ascii) :
  string_forallb (λ c, negb (bool_decide (c = sep))) a = true →
  strings_Split (a +:+ String sep rest) sep = a :: strings_Split rest sep.
Proof.
  induction a as [|c a IH]; intros Ha.
  - change (strings_Split (String sep rest) sep = EmptyString :: strings_Split rest sep).
    simpl. by rewrite decide_True.
  - cbn [string_forallb] in Ha. apply andb_true_iff in Ha as [Hc Ha].
    apply negb_true_iff, bool_decide_eq_false in Hc.
    change (String c a +:+ String sep rest)%string
      with (String c (a +:+ String sep rest)).
    cbn [strings_Split]. rewrite decide_False by done. by rewrite IH.
Qed.

Lemma strings_Split_pieces (s : string) (sep : ascii) :
  Forall (λ piece, string_forallb (λ c, negb (bool_decide (c = sep))) piece = true)
    (strings_Split s sep).
Proof.
  induction s as [|c s IH]; cbn [strings_Split]; [by repeat constructor|].
  case_decide as Hc; [by constructor|].
  destruct (strings_Split s sep) as [|piece pieces].
  - repeat constructor. simpl. rewrite andb_true_r.
    by apply negb_true_iff, bool_decide_eq_false.
  - apply Forall_cons in IH as [Hp Hps]. constructor; [|done]. simpl.
    rewrite Hp, andb_true_r. by apply negb_true_iff, bool_decide_eq_false.
Qed.

(** Joining the pieces of a string gives the string back. *)
Lemma strings_Join_Split (s : string) (sep : ascii) :
  strings_Join (strings_Split s sep) sep = s.
Proof.
  induction s as [|c s IH]; cbn [strings_Split]; [done|].
  pose proof (strings_Split_not_nil s sep) as Hne.
  case_decide as Hc.
  - subst c. cbn [strings_Join].
    destruct (strings_Split s sep) as [|piece pieces]; [done|]. by rewrite IH.
  - destruct (strings_Split s sep) as [|piece pieces]; [done|].
    cbn [strings_Join] in *. destruct pieces; by rewrite <-IH.
Qed.

(** Splitting what was joined from pieces without the separator gives
    the pieces back. *)
Lemma strings_Split_Join (pieces : list string) (sep : ascii) :
  pieces ≠ [] →
  Forall (λ piece, string_forallb (λ c, negb (bool_decide (c = sep))) piece = true) pieces →
  strings_Split (strings_Join pieces sep) sep = pieces.
Proof.
  induction pieces as [|piece rest IH]; [done|]. intros _ [Hp Hrest]%Forall_cons.
  cbn [strings_Join]. destruct rest as [|piece' rest].
  - by apply strings_Split_no_sep.
  - rewrite strings_Split_app by done. by rewrite IH.
Qed.

Lemma strings_Split_eq (s : string) (sep : ascii) (pieces : list string) :
  strings_Split s sep = pieces ↔
    pieces ≠ [] ∧
    Forall (λ piece, string_forallb (λ c, negb (bool_decide (c = sep))) piece = true)
      pieces ∧
    s = strings_Join pieces sep.
Proof.
  split.
  - intros <-. split; [apply strings_Split_not_nil|].
    split; [apply strings_Split_pieces|]. by rewrite strings_Join_Split.
  - intros (Hne & Hall & ->). by apply strings_Split_Join.
Qed.

(** [strings.Index(s, sep)] for a one-byte [sep]: the index of its first
    occurrence in [s], or -1. *)
Fixpoint strings_Index (s : string) (sep : ascii) : Z :=
  match s with
  | EmptyString => -1
  | String c rest =>
      if decide (c = sep) then 0
      else
        let i := strings_Index rest sep in
        if decide (i < 0) then -1 else i + 1
  end.

(** [s[:i]] and [s[i:]], for [0 ≤ i ≤ len(s)]. *)
Definition slice_to (s : string) (i : Z) : string :=
  String.substring 0 (Z.to_nat i) s.

Definition slice_from (s : string) (i : Z) : string :=
  String.substring (Z.to_nat i) (String.length s - Z.to_nat i) s.

Lemma substring_all (s : string) : String.substring 0 (String.length s) s = s.
Proof. induction s as [|c s IH]; simpl; [done|]. by rewrite IH. Qed.

Lemma length_append (a b : string) :
  String.length (a +:+ b) = (String.length a + String.length b)%nat.
Proof. induction a as [|c a IH]; simpl; [done|]. by rewrite IH. Qed.

Lemma substring_prefix (host rest : string) :
  String.substring 0 (String.length host) (host +:+ rest) = host.
Proof.
  induction host as [|c host IH]; simpl; [by destruct rest|]. by rewrite IH.
Qed.

Lemma substring_suffix (host rest : string) (sep : ascii) :
  String.substring (S (String.length host)) (String.length rest)
    (host +:+ String sep rest) = rest.
Proof. induction host as [|c host IH]; simpl; [apply substring_all|done]. Qed.

Lemma strings_Index_app (host rest : string) (sep : ascii) :
  string_forallb (λ c, negb (bool_decide (c = sep))) host = true →
  strings_Index (host +:+ String sep rest) sep = Z.of_nat (String.length host).
Proof.
  induction host as [|c host IH]; intros Hhost.
  - change (strings_Index (String sep rest) sep = 0). simpl. by rewrite decide_True.
  - cbn [string_forallb] in Hhost. apply andb_true_iff in Hhost as [Hc Hhost].
    apply negb_true_iff, bool_decide_eq_false in Hc.
    change (String c host +:+ String sep rest)%string
      with (String c (host +:+ String sep rest)).
    cbn [strings_Index]. rewrite decide_False by done. cbv zeta.
    rewrite IH by done. rewrite decide_False by lia. cbn [String.length]. lia.
Qed.

(** A string cut at the first occurrence of [sep]: the index is the length
    of what stands before it, and the two slices are the two sides. *)
Lemma strings_Index_cut (host rest : string) (sep : ascii) :
  string_forallb (λ c, negb (bool_decide (c = sep))) host = true →
  strings_Index (host +:+ String sep rest) sep = Z.of_nat (String.length host) ∧
  slice_to (host +:+ String sep rest) (Z.of_nat (String.length host)) = host ∧
  slice_from (host +:+ String sep rest) (Z.of_nat (String.length host) + 1) = rest.
Proof.
  intros Hhost. split; [by apply strings_Index_app|].
  unfold slice_to, slice_from. split.
  - rewrite Nat2Z.id. apply substring_prefix.
  - replace (Z.to_nat (Z.of_nat (String.length host) + 1))
      with (S (String.length host)) by lia.
    rewrite length_append. cbn [String.length].
    replace (String.length host + S (String.length rest) - S (String.length host))%nat
      with (String.length rest) by lia.
    apply substring_suffix.
Qed.

(** An index that is not negative is the place of a first occurrence. *)
Lemma strings_Index_found (s : string) (sep : ascii) :
  0 ≤ strings_Index s sep →
  ∃ host rest,
    s = (host +:+ String sep rest)%string ∧
    string_forallb (λ c, negb (bool_decide (c = sep))) host = true.
Proof.
  induction s as [|c s IH]; simpl; [lia|].
  case_decide as Hc.
  - subst c. intros _. by exists EmptyString, s.
  - case_decide as Hi; [lia|]. intros _.
    destruct IH as (host & rest & -> & Hhost); [lia|].
    exists (String c host), rest. split; [done|]. simpl.
    rewrite Hhost, andb_true_r. by apply negb_true_iff, bool_decide_eq_false.
Qed.

(** A [float32] or [float64] as far as comparisons go: not-a-number, an
    infinity, or a rational. *)
Inductive float := float_nan | float_inf (negative : bool) | float_fin (q : Q).

(** [a < b] on floats; false as soon as one side is not a number. *)
Definition float_ltb (a b : float) : bool :=
  match a, b with
  | float_nan, _ | _, float_nan => false
  | float_inf true, float_inf true => false
  | float_inf true, _ => true
  | _, float_inf true => false
  | float_inf false, _ => false
  | _, float_inf false => true
  | float_fin p, float_fin q => negb (Qle_bool q p)
  end.

Definition float_of_Z (z : Z) : float := float_fin (inject_Z z).


(** [strings.HasPrefix] and [strings.Contains]. *)
Fixpoint strings_HasPrefix (s prefix : string) : bool :=
  match prefix, s with
  | EmptyString, _ => true
  | String p prefix, String c s => bool_decide (c = p) && strings_HasPrefix s prefix
  | String _ _, EmptyString => false
  end.

Fixpoint strings_Contains (s substr : string) : bool :=
  strings_HasPrefix s substr ||
  match s with
  | EmptyString => false
  | String _ rest => strings_Contains rest substr
  end.

(** [fmt]'s [%d] and [%v] of an integer. *)
Definition fmt_int (z : Z) : string := pretty z.

(** What [sort.Slice] asks of [less] (the requirements of
    [sort.Interface.Less]): a transitive ordering, also on its
    complement. *)
Record StrictWeakOrder {A} (less : A → A → bool) : Prop := {
  swo_irrefl : ∀ a, less a a = false;
  swo_trans : ∀ a b c, less a b = true → less b c = true → less a c = true;
  swo_neg_trans : ∀ a b c, less a b = false → less b c = false → less a c = false;
}.

(** What [sort.Slice] promises in return: the slice holds the same
    elements, and no element is [less] than one before it. *)
Definition sort_Slice_contract {A}
    (sort_Slice : (A → A → bool) → list A → list A) : Prop :=
  ∀ less l, StrictWeakOrder less →
    sort_Slice less l ≡ₚ l ∧ Sorted (λ a b, less b a = false) (sort_Slice less l).

(** A sort that meets the contract: merge sort on the complement of the
    flipped [less]. *)
Definition merge_sort_Slice {A} (less : A → A → bool) (l : list A) : list A :=
  merge_sort (λ a b, less b a = false)
    (H := λ a b, decide (less b a = false)) l.

Lemma merge_sort_Slice_contract {A} : sort_Slice_contract (@merge_sort_Slice A).
Proof.
  intros less l Hswo. unfold merge_sort_Slice. split.
  - apply merge_sort_Permutation.
  - apply Sorted_merge_sort. intros x y.
    destruct (less y x) eqn:Hyx; [|by left]. right.
    destruct (less x y) eqn:Hxy; [|done].
    rewrite <-(swo_irrefl less Hswo y). symmetry. by eapply swo_trans.
Qed.

End go.

(** ** Package [model]: records, events, errors *)

Module model.

(** Modelled from the spec: [model.Event] is declared in a file of the
    package that is missing; "one of [Add], [Update], [Delete]", the tag
    that accompanies a record handed to a handler. The constructors are
    the constants the sources use. *)
Inductive Event := EventAdd | EventUpdate | EventDelete.

#[global] Instance Event_eq_dec : EqDecision Event.
Proof. solve_decision. Defined.

(** A non-nil Go [error]: a plain error with its message ([errors.New],
    [fmt.Errorf]), or a [*multierror.Error] with the messages of the
    errors appended to it, in order. *)
Inductive errorValue :=
  | errorString (msg : string)
  | multierror_Error (Errors : list string).

#[global] Instance errorValue_eq_dec : EqDecision errorValue.
Proof. solve_decision. Defined.

(** Go's [error] interface; [None] is [nil]. *)
Abbreviation error := (option errorValue).

(** Modelled from the spec: [model.Config] is declared in
    [model/config.go], which is missing; "one configuration record:
    [{type, key, revision, payload}]". The fields are those the sources set
    and read; the Go field [Type] is spelled [Typ], and [Content] is a
    [proto.Message]. *)
Module Config.
Section def.
Context {Message : Type}.

Record t := mk {
    Typ : string;
    Key : string;
    Revision : string;
    Content : Message;
  }.

#[global] Instance eq_dec `{EqDecision Message} : EqDecision t.
Proof. solve_decision. Defined.
End def.
Arguments t : clear implicits.
End Config.

(** Modelled from the spec: [model.ProtoSchema] is declared in
    [model/config.go], which is missing; "an entry in a static registry
    describing one configuration type: a unique type name, a plural display
    name, a payload-schema identifier, a key-extraction function, and a
    type-specific validation function". The fields are those
    [ConfigDescriptor.Validate] and [ValidateConfig] read; [Key] may be a
    nil func. *)
Module ProtoSchema.
Section def.
Context {Message : Type}.

Record t := mk {
    Typ : string;
    Plural : string;
    MessageName : string;
    Validate : Message → error;
    Key : option (Message → string);
  }.
End def.
Arguments t : clear implicits.
End ProtoSchema.

(** [model.ConfigDescriptor] is [[]ProtoSchema]: the sources range over it
    and build it from schemas. *)
Abbreviation ConfigDescriptor Message := (list (ProtoSchema.t Message)).


(** *** Errors that aggregate: [github.com/hashicorp/go-multierror] *)

(** The errors an [error] stands for: none for [nil], itself for a plain
    error, the appended ones for a [*multierror.Error]. *)
Definition leaves (err : error) : list string :=
  match err with
  | None => []
  | Some (errorString msg) => [msg]
  | Some (multierror_Error errs) => errs
  end.

(** [fmt.Errorf] and [errors.New], once the message is formatted. *)
Definition Errorf (msg : string) : error := Some (errorString msg).

(** [multierror.Append(err, e)]: always a [*multierror.Error], holding the
    errors of [err] followed by those of [e], flattened. *)
Definition multierror_Append (err e : error) : error :=
  Some (multierror_Error (leaves err ++ leaves e)).

(** [multierror.Prefix(err, prefix)]: every error of [err] gets [prefix]
    and a space in front of its message. *)
Definition multierror_Prefix (err : error) (prefix : string) : error :=
  match err with
  | None => None
  | Some (errorString msg) => Some (errorString (prefix +:+ " " +:+ msg))
  | Some (multierror_Error errs) =>
      Some (multierror_Error ((λ msg, prefix +:+ " " +:+ msg) <$> errs))
  end.

Lemma leaves_Append err e : leaves (multierror_Append err e) = leaves err ++ leaves e.
Proof. reflexivity. Qed.

(** The shape of every check: [if cond { errs = multierror.Append(errs, e) }]. *)
Lemma leaves_if_Append (cond : bool) err e :
  leaves (if cond then multierror_Append err e else err)
  = leaves err ++ (if cond then leaves e else []).
Proof. destruct cond; [done|by rewrite app_nil_r]. Qed.

Lemma leaves_if_decide_Append (P : Prop) `{Decision P} err e :
  leaves (if decide P then multierror_Append err e else err)
  = leaves err ++ (if decide P then leaves e else []).
Proof. case_decide; [done|by rewrite app_nil_r]. Qed.

(** The shape of every delegated check:
    [if err := f(x); err != nil { errs = multierror.Append(errs, err) }]. *)
Lemma leaves_if_not_nil err (e : error) :
  leaves (if decide (e ≠ None) then multierror_Append err e else err)
  = leaves err ++ leaves e.
Proof.
  case_decide as Hn; [done|]. destruct e; [discriminate|].
  simpl. by rewrite app_nil_r.
Qed.

(** When a guarded append leaves the error nil: [multierror.Append] never
    returns nil, so the error after a check is nil only if it was nil
    before and the check passed. *)
Lemma if_Append_None (cond : bool) err e :
  (if cond then multierror_Append err e else err) = None ↔ err = None ∧ cond = false.
Proof. destruct cond; simpl; [|tauto]. split; [done|]. by intros [_ ?]. Qed.

Lemma if_decide_Append_None (P : Prop) `{Decision P} err e :
  (if decide P then multierror_Append err e else err) = None ↔ err = None ∧ ¬ P.
Proof. case_decide; [|tauto]. split; [done|]. by intros [_ ?]. Qed.

Lemma if_not_nil_Append_None err (e : error) :
  (if decide (e ≠ None) then multierror_Append err e else err) = None
  ↔ err = None ∧ e = None.
Proof.
  rewrite if_decide_Append_None. split; intros [? He]; (split; [done|]).
  - destruct e; [|done]. by destruct He.
  - intros Hne. by apply Hne.
Qed.

(** *** [model/validation.go] *)

Definition dns1123LabelMaxLength : Z := 63.

(** Byte classes of the two regular expressions. *)
Definition in_range (lo hi c : ascii) : bool :=
  (N_of_ascii lo <=? N_of_ascii c)%N && (N_of_ascii c <=? N_of_ascii hi)%N.

Definition lower_alnum (c : ascii) : bool := in_range "a" "z" c || in_range "0" "9" c.

Definition dns1123_char (c : ascii) : bool := bool_decide (c = "-"%char) || lower_alnum c.

Definition qualified_char (c : ascii) : bool :=
  bool_decide (c = "-"%char) || in_range "A" "Z" c || in_range "a" "z" c
  || in_range "0" "9" c || bool_decide (c = "_"%char) || bool_decide (c = "."%char)
  || bool_decide (c = "/"%char).

(** [dns1123LabelRex.MatchString]: the whole of [value] matches
    [[a-z0-9]([-a-z0-9]*[a-z0-9])?]. *)
Definition dns1123LabelRex_MatchString (value : string) : bool :=
  match value with
  | EmptyString => false
  | String c rest =>
      lower_alnum c && go.string_forallb dns1123_char rest
      && match go.string_last rest with None => true | Some l => lower_alnum l end
  end.

(** [tagRegexp.MatchString]: the whole of [value] matches
    [[-A-Za-z0-9_./]*]. *)
Definition tagRegexp_MatchString (value : string) : bool :=
  go.string_forallb qualified_char value.

Definition string_len (s : string) : Z := Z.of_nat (String.length s).

Definition IsDNS1123Label (value : string) : bool :=
  bool_decide (string_len value ≤ dns1123LabelMaxLength) && dns1123LabelRex_MatchString value.

Definition is_nil {A} (x : option A) : bool :=
  match x with None => true | Some _ => false end.

(** *** The payloads of routing rules

    The Go types of [istio.io/api/proxy/v1/config] and
    [github.com/golang/protobuf/ptypes/duration], with the fields the
    validators read. A pointer that may be nil is an [option]; a [oneof] is
    an [option] of its cases; a Go [map] is a [gmap], ranged over in the
    order of [map_to_list]. *)

Module Duration.
Record t := { Seconds : Z; Nanos : Z }.
End Duration.

Module StringMatch.
Inductive isStringMatch_MatchType :=
| Exact (s : string) | Prefix (s : string) | Regex (s : string).
Record t := { MatchType : option isStringMatch_MatchType }.
End StringMatch.

Module L4MatchAttributes.
Record t := { SourceSubnet : list string; DestinationSubnet : list string }.
End L4MatchAttributes.

Module MatchCondition.
Record t := {
  Source : string;
  SourceTags : gmap string string;
  Tcp : option L4MatchAttributes.t;
  Udp : option L4MatchAttributes.t;
  HttpHeaders : gmap string StringMatch.t;
}.
End MatchCondition.

Module DestinationWeight.
Record t := { Destination : string; Tags : gmap string string; Weight : Z }.
End DestinationWeight.

Module HTTPRedirect.
Record t := { Uri : string; Authority : string }.
End HTTPRedirect.

Module HTTPRewrite.
Record t := { Uri : string; Authority : string }.
End HTTPRewrite.

Module HTTPTimeout.
Record SimpleTimeoutPolicy := { Timeout : option Duration.t; OverrideHeaderName : string }.
Inductive isHTTPTimeout_TimeoutPolicy :=
| SimpleTimeout (p : SimpleTimeoutPolicy) | Custom (s : string).
Record t := { TimeoutPolicy : option isHTTPTimeout_TimeoutPolicy }.
Definition GetSimpleTimeout (x : t) : option SimpleTimeoutPolicy :=
  match TimeoutPolicy x with Some (SimpleTimeout p) => Some p | _ => None end.
End HTTPTimeout.

Module HTTPRetry.
Record SimpleRetryPolicy := {
  Attempts : Z; PerTryTimeout : option Duration.t; OverrideHeaderName : string;
}.
Inductive isHTTPRetry_RetryPolicy :=
| SimpleRetry (p : SimpleRetryPolicy) | Custom (s : string).
Record t := { RetryPolicy : option isHTTPRetry_RetryPolicy }.
Definition GetSimpleRetry (x : t) : option SimpleRetryPolicy :=
  match RetryPolicy x with Some (SimpleRetry p) => Some p | _ => None end.
End HTTPRetry.

Module HTTPFaultInjection.
Module Delay.
Inductive isDelay_HttpDelayType :=
| FixedDelay (d : option Duration.t) | ExponentialDelay (d : option Duration.t).
Record t := {
  Percent : go.float;
  HttpDelayType : option isDelay_HttpDelayType;
  OverrideHeaderName : string;
}.
Definition GetFixedDelay (x : t) : option Duration.t :=
  match HttpDelayType x with Some (FixedDelay d) => d | _ => None end.
Definition GetExponentialDelay (x : t) : option Duration.t :=
  match HttpDelayType x with Some (ExponentialDelay d) => d | _ => None end.
End Delay.
Module Abort.
Inductive isAbort_ErrorType :=
| GrpcStatus (s : string) | Http2Error (s : string) | HttpStatus (code : Z).
Record t := {
  Percent : go.float;
  ErrorType : option isAbort_ErrorType;
  OverrideHeaderName : string;
}.
End Abort.
Record t := { Delay_ : option Delay.t; Abort_ : option Abort.t }.
End HTTPFaultInjection.

Module L4FaultInjection.
Module Throttle.
Inductive isThrottle_ThrottleAfter :=
| ThrottleAfterPeriod (d : option Duration.t) | ThrottleAfterBytes (bytes : go.float).
Record t := {
  Percent : go.float;
  DownstreamLimitBps : Z;
  UpstreamLimitBps : Z;
  ThrottleAfter : option isThrottle_ThrottleAfter;
}.
Definition GetThrottleAfterPeriod (x : t) : option Duration.t :=
  match ThrottleAfter x with Some (ThrottleAfterPeriod d) => d | _ => None end.
Definition GetThrottleAfterBytes (x : t) : go.float :=
  match ThrottleAfter x with Some (ThrottleAfterBytes b) => b | _ => go.float_of_Z 0 end.
End Throttle.
Module Terminate.
Record t := { Percent : go.float; TerminateAfterPeriod : option Duration.t }.
End Terminate.
Record t := { Throttle_ : option Throttle.t; Terminate_ : option Terminate.t }.
End L4FaultInjection.

(** [proxyconfig.RouteRule]. [Route] is a slice that may be nil. The
    fields [Delay_], [Abort_], [Throttle_] and [Terminate_] above are the Go
    fields [Delay], [Abort], [Throttle] and [Terminate]. *)
Module RouteRule.
Record t := {
  Name : string;
  Destination : string;
  Precedence : Z;
  Match : option MatchCondition.t;
  Route : option (list DestinationWeight.t);
  Redirect : option HTTPRedirect.t;
  Rewrite : option HTTPRewrite.t;
  HttpReqTimeout : option HTTPTimeout.t;
  HttpReqRetries : option HTTPRetry.t;
  HttpFault : option HTTPFaultInjection.t;
  L4Fault : option L4FaultInjection.t;
}.
End RouteRule.

(** A [proto.Message] as [ValidateRouteRule] sees it: a routing rule, or a
    message of another type. *)
Inductive proto_Message :=
| Message_RouteRule (value : RouteRule.t)
| Message_other (name : string).

(** [proxyconfig.ProxyMeshConfig], with the fields
    [ValidateProxyMeshConfig] reads. The two ports are [int32]s; the
    authentication policy is an enumeration with two named values. *)
Module ProxyMeshConfig.
Inductive AuthPolicy_ :=
| ProxyMeshConfig_NONE | ProxyMeshConfig_MUTUAL_TLS | unrecognized (n : Z).
Record t := {
  EgressProxyAddress : string;
  DiscoveryAddress : string;
  MixerAddress : string;
  StatsdUdpAddress : string;
  ProxyListenPort : Z;
  ProxyAdminPort : Z;
  IstioServiceCluster : string;
  DrainDuration : option Duration.t;
  ParentShutdownDuration : option Duration.t;
  DiscoveryRefreshDelay : option Duration.t;
  ConnectTimeout : option Duration.t;
  AuthCertsPath : string;
  AuthPolicy : AuthPolicy_;
}.
End ProxyMeshConfig.

(** [proxyconfig.CircuitBreaker], a [oneof] whose simple policy holds the
    numbers [ValidateCircuitBreaker] reads. *)
Module CircuitBreaker.
Record SimpleCircuitBreakerPolicy := {
  MaxConnections : Z;
  HttpMaxPendingRequests : Z;
  HttpMaxRequests : Z;
  SleepWindow : option Duration.t;
  HttpConsecutiveErrors : Z;
  HttpDetectionInterval : option Duration.t;
  HttpMaxRequestsPerConnection : Z;
  HttpMaxEjectionPercent : Z;
}.
Inductive isCircuitBreaker_CbPolicy :=
| SimpleCb (p : option SimpleCircuitBreakerPolicy) | Custom (s : string).
Record t := { CbPolicy : option isCircuitBreaker_CbPolicy }.
(** The getter is nil-safe: a nil breaker has no simple policy. *)
Definition GetSimpleCb (x : option t) : option SimpleCircuitBreakerPolicy :=
  match x with
  | Some {| CbPolicy := Some (SimpleCb p) |} => p
  | _ => None
  end.
End CircuitBreaker.

(** [proxyconfig.DestinationVersionPolicy] and
    [proxyconfig.DestinationPolicy]; [LoadBalancing] is
    [proxyconfig.LoadBalancing], which no validator looks into. *)
Module DestinationVersionPolicy.
Section def.
Context {LoadBalancing : Type}.
Record t := {
  Tags : gmap string string;
  LoadBalancing_ : option LoadBalancing;
  CircuitBreaker_ : option CircuitBreaker.t;
}.
End def.
Arguments t : clear implicits.
End DestinationVersionPolicy.

Module DestinationPolicy.
Section def.
Context {LoadBalancing : Type}.
Record t := {
  Destination : string;
  Policy : list (DestinationVersionPolicy.t LoadBalancing);
}.
End def.
Arguments t : clear implicits.
End DestinationPolicy.

(** [proxyconfig.IngressRule], with the fields [ValidateIngressRule]
    reads. *)
Module IngressRule.
Record t := { Name : string; Destination : string }.
End IngressRule.

(** A [proto.Message] as [ValidateIngressRule] and
    [ValidateDestinationPolicy] see it: an ingress rule, a destination
    policy, or a message of another type. *)
Inductive policy_Message {LoadBalancing : Type} :=
| Message_IngressRule (value : IngressRule.t)
| Message_DestinationPolicy (value : DestinationPolicy.t LoadBalancing)
| Message_unrelated (name : string).
Arguments policy_Message : clear implicits.

Section validation.
(** [%q] of a string: [strconv.Quote]. *)
Variable strconv_Quote : string → string.

Definition ValidatePort (port : Z) : error :=
  if decide (1 ≤ port ∧ port ≤ 65535) then None
  else Errorf ("port number " +:+ go.fmt_int port +:+ " must be in the range 1..65535").

Section descriptor.
Context {Message reflect_Type : Type}.

(** [proto.MessageType] of the protobuf library: the registered Go type of
    a message name, or nil. *)
Variable proto_MessageType : string → option reflect_Type.

(** [proto.MessageName] of the protobuf library. *)
Variable proto_MessageName : Message → string.

(** One iteration of the loop of [ConfigDescriptor.Validate], on the
    errors so far and the two sets of names seen so far. *)
Definition Validate_body (st : error * gset string * gset string)
    (v : ProtoSchema.t Message) : error * gset string * gset string :=
  let '(errs, types, messages) := st in
  let errs :=
    if is_nil (ProtoSchema.Key v) then
      multierror_Append errs
        (Errorf ("missing the required key function for type: "
                 +:+ strconv_Quote (ProtoSchema.Typ v)))
    else errs in
  let errs :=
    if negb (IsDNS1123Label (ProtoSchema.Typ v)) then
      multierror_Append errs (Errorf ("invalid type: " +:+ strconv_Quote (ProtoSchema.Typ v)))
    else errs in
  let errs :=
    if negb (IsDNS1123Label (ProtoSchema.Plural v)) then
      multierror_Append errs (Errorf ("invalid plural: " +:+ strconv_Quote (ProtoSchema.Typ v)))
    else errs in
  let errs :=
    if is_nil (proto_MessageType (ProtoSchema.MessageName v)) then
      multierror_Append errs
        (Errorf ("cannot discover proto message type: "
                 +:+ strconv_Quote (ProtoSchema.MessageName v)))
    else errs in
  let errs :=
    if bool_decide (ProtoSchema.Typ v ∈ types) then
      multierror_Append errs (Errorf ("duplicate type: " +:+ strconv_Quote (ProtoSchema.Typ v)))
    else errs in
  let types := {[ProtoSchema.Typ v]} ∪ types in
  let errs :=
    if bool_decide (ProtoSchema.MessageName v ∈ messages) then
      multierror_Append errs
        (Errorf ("duplicate message type: " +:+ strconv_Quote (ProtoSchema.MessageName v)))
    else errs in
  let messages := {[ProtoSchema.MessageName v]} ∪ messages in
  (errs, types, messages).

(** [ConfigDescriptor.Validate] *)
Definition Validate (descriptor : ConfigDescriptor Message) : error :=
  (foldl Validate_body (None, ∅, ∅) descriptor).1.1.

(** Modelled from the spec: [ConfigDescriptor.GetByType] is declared in
    [model/config.go], which is missing; "[type] is registered": the
    entry of the registry whose type name is [name], if there is one. *)
Definition GetByType (descriptor : ConfigDescriptor Message) (name : string)
    : option (ProtoSchema.t Message) :=
  head (filter (λ t, ProtoSchema.Typ t = name) descriptor).

(** A Go [interface{}] handed to [ValidateConfig]: nil, a value that is a
    [proto.Message], or a value that is not. *)
Inductive any := any_nil | any_Message (v : Message) | any_other.

(** [obj == nil] *)
Definition any_is_nil (obj : any) : bool :=
  match obj with any_nil => true | _ => false end.

(** [ConfigDescriptor.ValidateConfig] *)
Definition ValidateConfig (descriptor : ConfigDescriptor Message)
    (typ : string) (obj : any) : error :=
  if any_is_nil obj then Errorf "invalid nil configuration object"
  else
    match GetByType descriptor typ with
    | None => Errorf ("undeclared type: " +:+ strconv_Quote typ)
    | Some t =>
        match obj with
        | any_Message v =>
            if decide (proto_MessageName v ≠ ProtoSchema.MessageName t) then
              Errorf ("mismatched message type " +:+ strconv_Quote (proto_MessageName v)
                      +:+ " and type " +:+ strconv_Quote (ProtoSchema.MessageName t))
            else
              let err := ProtoSchema.Validate t v in
              if decide (err ≠ None) then err else None
        | _ => Errorf "cannot cast to a proto message"
        end
    end.

(** **** Every violation of a registry

    Stated on the registry itself, without the loop and its two sets: what
    is wrong with the entry [v], given the entries [earlier] in the
    registry, and what is wrong with a registry, entry by entry. *)

Definition entry_violations (earlier : ConfigDescriptor Message)
    (v : ProtoSchema.t Message) : list string :=
  (if is_nil (ProtoSchema.Key v)
   then ["missing the required key function for type: " +:+ strconv_Quote (ProtoSchema.Typ v)]
   else []) ++
  (if negb (IsDNS1123Label (ProtoSchema.Typ v))
   then ["invalid type: " +:+ strconv_Quote (ProtoSchema.Typ v)] else []) ++
  (if negb (IsDNS1123Label (ProtoSchema.Plural v))
   then ["invalid plural: " +:+ strconv_Quote (ProtoSchema.Typ v)] else []) ++
  (if is_nil (proto_MessageType (ProtoSchema.MessageName v))
   then ["cannot discover proto message type: "
         +:+ strconv_Quote (ProtoSchema.MessageName v)] else []) ++
  (if bool_decide (ProtoSchema.Typ v ∈ ProtoSchema.Typ <$> earlier)
   then ["duplicate type: " +:+ strconv_Quote (ProtoSchema.Typ v)] else []) ++
  (if bool_decide (ProtoSchema.MessageName v ∈ ProtoSchema.MessageName <$> earlier)
   then ["duplicate message type: " +:+ strconv_Quote (ProtoSchema.MessageName v)]
   else []).

Fixpoint violations_from (earlier rest : ConfigDescriptor Message) : list string :=
  match rest with
  | [] => []
  | v :: rest => entry_violations earlier v ++ violations_from (earlier ++ [v]) rest
  end.

Definition all_violations (descriptor : ConfigDescriptor Message) : list string :=
  violations_from [] descriptor.

Lemma Validate_body_spec (earlier : ConfigDescriptor Message) errs v :
  ∃ errs',
    Validate_body (errs, list_to_set (ProtoSchema.Typ <$> earlier),
                   list_to_set (ProtoSchema.MessageName <$> earlier)) v
    = (errs', list_to_set (ProtoSchema.Typ <$> earlier ++ [v]),
       list_to_set (ProtoSchema.MessageName <$> earlier ++ [v]))
    ∧ leaves errs' = leaves errs ++ entry_violations earlier v.
Proof.
  unfold Validate_body. eexists. split.
  - f_equal; [f_equal|]; rewrite fmap_app, list_to_set_app_L; simpl; set_solver.
  - cbv zeta. rewrite !leaves_if_Append. unfold entry_violations, Errorf. simpl.
    rewrite <-!app_assoc. repeat f_equal.
    + apply (f_equal (λ b : bool, if b then _ else _)).
      apply bool_decide_ext. by rewrite elem_of_list_to_set.
    + apply (f_equal (λ b : bool, if b then _ else _)).
      apply bool_decide_ext. by rewrite elem_of_list_to_set.
Qed.

Lemma foldl_Validate_body (earlier rest : ConfigDescriptor Message) errs :
  leaves (foldl Validate_body
            (errs, list_to_set (ProtoSchema.Typ <$> earlier),
             list_to_set (ProtoSchema.MessageName <$> earlier)) rest).1.1
  = leaves errs ++ violations_from earlier rest.
Proof.
  revert earlier errs. induction rest as [|v rest IH]; intros earlier errs; cbn [foldl].
  - simpl. by rewrite app_nil_r.
  - destruct (Validate_body_spec earlier errs v) as (errs' & -> & Hl).
    rewrite IH, Hl. simpl. by rewrite <-app_assoc.
Qed.

(** [Validate] reports every violation of the registry, and nothing
    else. *)
Lemma Validate_leaves (descriptor : ConfigDescriptor Message) :
  leaves (Validate descriptor) = all_violations descriptor.
Proof. apply (foldl_Validate_body [] descriptor None). Qed.

Lemma violations_from_app (earlier l1 l2 : ConfigDescriptor Message) :
  violations_from earlier (l1 ++ l2)
  = violations_from earlier l1 ++ violations_from (earlier ++ l1) l2.
Proof.
  revert earlier. induction l1 as [|v l1 IH]; intros earlier; simpl.
  - by rewrite app_nil_r.
  - by rewrite IH, <-!app_assoc.
Qed.

Lemma entry_violations_reported (earlier later : ConfigDescriptor Message) v msg :
  msg ∈ entry_violations earlier v →
  msg ∈ leaves (Validate (earlier ++ v :: later)).
Proof.
  intros Hin. rewrite Validate_leaves. unfold all_violations.
  rewrite violations_from_app. simpl. rewrite !elem_of_app. auto.
Qed.

(** Every violated rule of every entry of a registry is in the combined
    error, wherever the entry stands. *)
Lemma Validate_reports_all (earlier later : ConfigDescriptor Message)
    (v : ProtoSchema.t Message) :
  let r := leaves (Validate (earlier ++ v :: later)) in
  (ProtoSchema.Key v = None →
     "missing the required key function for type: " +:+ strconv_Quote (ProtoSchema.Typ v) ∈ r) ∧
  (IsDNS1123Label (ProtoSchema.Typ v) = false →
     "invalid type: " +:+ strconv_Quote (ProtoSchema.Typ v) ∈ r) ∧
  (IsDNS1123Label (ProtoSchema.Plural v) = false →
     "invalid plural: " +:+ strconv_Quote (ProtoSchema.Typ v) ∈ r) ∧
  (proto_MessageType (ProtoSchema.MessageName v) = None →
     "cannot discover proto message type: " +:+ strconv_Quote (ProtoSchema.MessageName v) ∈ r) ∧
  (ProtoSchema.Typ v ∈ ProtoSchema.Typ <$> earlier →
     "duplicate type: " +:+ strconv_Quote (ProtoSchema.Typ v) ∈ r) ∧
  (ProtoSchema.MessageName v ∈ ProtoSchema.MessageName <$> earlier →
     "duplicate message type: " +:+ strconv_Quote (ProtoSchema.MessageName v) ∈ r).
Proof.
  intros r. subst r.
  repeat split; intros Hv; apply entry_violations_reported;
    unfold entry_violations; rewrite !elem_of_app.
  - rewrite Hv. simpl. left. by left.
  - rewrite Hv. simpl. right. left. by left.
  - rewrite Hv. simpl. do 2 right. left. by left.
  - rewrite Hv. simpl. do 3 right. left. by left.
  - rewrite (bool_decide_eq_true_2 _ Hv). do 4 right. left. by left.
  - rewrite (bool_decide_eq_true_2 _ Hv). do 5 right. by left.
Qed.

Lemma GetByType_None (descriptor : ConfigDescriptor Message) (name : string) :
  GetByType descriptor name = None ↔
  ∀ t, t ∈ descriptor → ProtoSchema.Typ t ≠ name.
Proof.
  unfold GetByType. rewrite head_None. split.
  - intros Hnil t Ht E.
    assert (t ∈ filter (λ t, ProtoSchema.Typ t = name) descriptor) as Hin
      by (by apply list_elem_of_filter).
    rewrite Hnil in Hin. by apply elem_of_nil in Hin.
  - intros Hall. apply go.filter_nil_Forall, Forall_forall. intros t Ht. by apply Hall.
Qed.

Lemma GetByType_Some (descriptor : ConfigDescriptor Message) (name : string) t :
  GetByType descriptor name = Some t → t ∈ descriptor ∧ ProtoSchema.Typ t = name.
Proof.
  unfold GetByType. intros Hh.
  assert (t ∈ filter (λ t, ProtoSchema.Typ t = name) descriptor) as Hin.
  { destruct (filter _ descriptor) as [|x l]; [done|]. injection Hh as ->. by left. }
  apply list_elem_of_filter in Hin. naive_solver.
Qed.

(** C4, as the code has it. [ValidateConfig] tests the payload for nil
    first, then looks the type up, then casts the payload to a message,
    then compares message names, and at last hands the payload to the
    validator of the kind and returns what it returns. It succeeds exactly
    when the validator is reached and succeeds. *)
Theorem ValidateConfig_cases (descriptor : ConfigDescriptor Message)
    (typ : string) (obj : any) :
  let r := ValidateConfig descriptor typ obj in
  (obj = any_nil → r = Errorf "invalid nil configuration object") ∧
  (obj ≠ any_nil → (∀ t, t ∈ descriptor → ProtoSchema.Typ t ≠ typ) →
     r = Errorf ("undeclared type: " +:+ strconv_Quote typ)) ∧
  (∀ t, obj = any_other → GetByType descriptor typ = Some t →
     r = Errorf "cannot cast to a proto message") ∧
  (∀ t v, obj = any_Message v → GetByType descriptor typ = Some t →
     proto_MessageName v ≠ ProtoSchema.MessageName t →
     r = Errorf ("mismatched message type " +:+ strconv_Quote (proto_MessageName v)
                 +:+ " and type " +:+ strconv_Quote (ProtoSchema.MessageName t))) ∧
  (∀ t v, obj = any_Message v → GetByType descriptor typ = Some t →
     proto_MessageName v = ProtoSchema.MessageName t →
     r = ProtoSchema.Validate t v) ∧
  (r = None ↔
     ∃ t v, obj = any_Message v ∧ GetByType descriptor typ = Some t ∧
            proto_MessageName v = ProtoSchema.MessageName t ∧
            ProtoSchema.Validate t v = None).
Proof.
  intros r. subst r. unfold ValidateConfig.
  split; [by intros ->|].
  split.
  { intros Hnn Hall. apply GetByType_None in Hall. rewrite Hall. by destruct obj. }
  split; [intros t -> E; simpl; by rewrite E|].
  split; [intros t v -> E Hne; simpl; rewrite E; by rewrite decide_True|].
  split.
  { intros t v -> Ht E. simpl. rewrite Ht. rewrite decide_False by (by intros ?).
    by destruct (ProtoSchema.Validate t v). }
  split.
  - destruct obj as [|v|]; simpl; [done| |by destruct (GetByType descriptor typ)].
    destruct (GetByType descriptor typ) as [t|]; [|done].
    case_decide as Hn; [done|].
    intros Hv. exists t, v. repeat split; [done|].
    by destruct (ProtoSchema.Validate t v).
  - intros (t & v & -> & Ht & E & Hv). simpl. rewrite Ht.
    rewrite decide_False by (by intros ?). rewrite Hv. done.
Qed.

(** **** When a registry is accepted *)

(** The names [f] gives to the entries of [rest] are pairwise distinct
    and none is the name of an entry of [earlier]. *)
Definition fresh_names {A} (f : A → string) (earlier rest : list A) : Prop :=
  NoDup (f <$> rest) ∧ ∀ x, x ∈ rest → f x ∉ f <$> earlier.

Lemma fresh_names_cons {A} (f : A → string) (earlier rest : list A) (v : A) :
  fresh_names f earlier (v :: rest)
  ↔ f v ∉ f <$> earlier ∧ fresh_names f (earlier ++ [v]) rest.
Proof.
  unfold fresh_names. rewrite fmap_cons, NoDup_cons, fmap_app.
  set_unfold. naive_solver.
Qed.

(** What [Validate] asks of an entry on its own. *)
Definition entry_ok (v : ProtoSchema.t Message) : Prop :=
  ProtoSchema.Key v ≠ None ∧
  IsDNS1123Label (ProtoSchema.Typ v) = true ∧
  IsDNS1123Label (ProtoSchema.Plural v) = true ∧
  proto_MessageType (ProtoSchema.MessageName v) ≠ None.

Lemma Validate_body_None (earlier : ConfigDescriptor Message) errs v :
  (Validate_body (errs, list_to_set (ProtoSchema.Typ <$> earlier),
                  list_to_set (ProtoSchema.MessageName <$> earlier)) v).1.1 = None
  ↔ errs = None ∧ entry_ok v ∧
    ProtoSchema.Typ v ∉ ProtoSchema.Typ <$> earlier ∧
    ProtoSchema.MessageName v ∉ ProtoSchema.MessageName <$> earlier.
Proof.
  unfold Validate_body, entry_ok. cbn [fst]. cbv zeta.
  rewrite !if_Append_None, !bool_decide_eq_false, !elem_of_list_to_set,
    !negb_false_iff.
  destruct (ProtoSchema.Key v), (proto_MessageType (ProtoSchema.MessageName v));
    simpl; naive_solver.
Qed.

Lemma foldl_Validate_body_None (earlier rest : ConfigDescriptor Message) errs :
  (foldl Validate_body
     (errs, list_to_set (ProtoSchema.Typ <$> earlier),
      list_to_set (ProtoSchema.MessageName <$> earlier)) rest).1.1 = None
  ↔ errs = None ∧ Forall entry_ok rest ∧
    fresh_names ProtoSchema.Typ earlier rest ∧
    fresh_names ProtoSchema.MessageName earlier rest.
Proof.
  revert earlier errs. induction rest as [|v rest IH]; intros earlier errs; cbn [foldl].
  - simpl. unfold fresh_names. rewrite !fmap_nil.
    split; [|by intros [? _]]. intros ->. repeat split; try constructor.
    all: by intros x ?%elem_of_nil.
  - pose proof (Validate_body_None earlier errs v) as Hb.
    destruct (Validate_body_spec earlier errs v) as (errs' & Heq & _).
    rewrite Heq in Hb |- *. simpl in Hb.
    rewrite IH, Hb, Forall_cons, !fresh_names_cons. tauto.
Qed.

(** X1. [Validate] accepts a registry exactly when every entry has a key
    function, a type name and a plural name that are DNS labels, and a
    message name the protobuf library knows, and no two entries share a
    type name or a message name. *)
Theorem Validate_accepts (descriptor : ConfigDescriptor Message) :
  Validate descriptor = None ↔
    Forall (λ v, ProtoSchema.Key v ≠ None ∧
                 IsDNS1123Label (ProtoSchema.Typ v) = true ∧
                 IsDNS1123Label (ProtoSchema.Plural v) = true ∧
                 proto_MessageType (ProtoSchema.MessageName v) ≠ None) descriptor ∧
    NoDup (ProtoSchema.Typ <$> descriptor) ∧
    NoDup (ProtoSchema.MessageName <$> descriptor).
Proof.
  unfold Validate.
  rewrite (foldl_Validate_body_None [] descriptor None).
  unfold fresh_names, entry_ok. rewrite !fmap_nil. split.
  - intros (_ & ? & [? _] & [? _]). done.
  - intros (? & ? & ?). repeat split; try done.
    all: intros x _; apply not_elem_of_nil.
Qed.

End descriptor.
(** *** The rule validators *)

Section rules.
(** Of the Go library: [strings.ToLower], [strconv.Atoi], and
    [ptypes.Duration], which turns a protobuf duration into a
    [time.Duration] (nanoseconds) or fails. *)
Variable strings_ToLower : string → string.
Variable strconv_Atoi : string → Z * error.
Variable ptypes_Duration : option Duration.t → Z * error.

(** [%q] of a [*proxyconfig.StringMatch]. *)
Variable fmt_StringMatch : StringMatch.t → string.

(** [model.HeaderURI], declared elsewhere in the package. *)
Variable HeaderURI : string.

Definition time_Millisecond : Z := 1000000.

(** [if err := e; err != nil { errs = multierror.Append(errs, err) }] *)
Definition check (errs e : error) : error :=
  if decide (e ≠ None) then multierror_Append errs e else errs.

(** [if err := e; err != nil { errs = multierror.Append(errs,
    multierror.Prefix(err, prefix)) }] *)
Definition check_prefixed (errs e : error) (prefix : string) : error :=
  if decide (e ≠ None) then multierror_Append errs (multierror_Prefix e prefix) else errs.

(** [for _, x := range l { if err := f(x); err != nil { return err } };
    return nil] *)
Fixpoint first_error {A} (f : A → error) (l : list A) : error :=
  match l with
  | [] => None
  | x :: l => if decide (f x ≠ None) then f x else first_error f l
  end.

(** [Tags.Validate] *)
Definition Tags_Validate (t : gmap string string) : error :=
  foldl (λ errs kv,
           let errs :=
             if negb (tagRegexp_MatchString kv.1) then
               multierror_Append errs (Errorf ("invalid tag key: " +:+ strconv_Quote kv.1))
             else errs in
           if negb (tagRegexp_MatchString kv.2) then
             multierror_Append errs (Errorf ("invalid tag value: " +:+ strconv_Quote kv.2))
           else errs)
        None (map_to_list t).

Definition ValidateFQDN (fqdn : string) : error :=
  if decide (string_len fqdn > 255) then
    Errorf ("domain name " +:+ strconv_Quote fqdn +:+ " too long (max 255)")
  else if decide (string_len fqdn = 0) then
    Errorf "empty domain name not allowed"
  else
    first_error
      (λ label,
         if negb (IsDNS1123Label label) then
           Errorf ("domain name " +:+ strconv_Quote fqdn +:+ " invalid (label "
                   +:+ strconv_Quote label +:+ " invalid)")
         else None)
      (go.strings_Split fqdn ".").

Definition ValidateCIDRBlock (cidr : string) : error :=
  let '(bits, err) := strconv_Atoi cidr in
  if decide (err ≠ None ∨ bits ≤ 0 ∨ bits > 32) then
    Errorf ("/" +:+ cidr +:+ " is not a valid CIDR block")
  else None.

Definition ValidateIPv4Address (addr : string) : error :=
  let octets := go.strings_Split addr "." in
  if decide (length octets ≠ 4%nat) then
    Errorf (strconv_Quote addr +:+ " is not a valid IP address")
  else
    first_error
      (λ octet,
         let '(n, err) := strconv_Atoi octet in
         if decide (err ≠ None ∨ n < 0 ∨ n > 255) then
           Errorf (strconv_Quote addr +:+ " is not a valid IP address")
         else None)
      octets.

Definition ValidateIPv4Subnet (subnet : string) : error :=
  let parts := go.strings_Split subnet "/" in
  if decide (2 < length parts)%nat then
    Errorf (strconv_Quote subnet +:+ " is not valid CIDR notation")
  else
    let errs := None in
    let errs :=
      match parts with
      | [_; block] => check errs (ValidateCIDRBlock block)
      | _ => errs
      end in
    check errs (ValidateIPv4Address (default EmptyString (head parts))).

Definition ValidateSubnet (subnet : string) : error := ValidateIPv4Subnet subnet.

Definition ValidateL4MatchAttributes (ma : L4MatchAttributes.t) : error :=
  let errs := None in
  let errs :=
    foldl (λ errs subnet, check errs (ValidateSubnet subnet))
          errs (L4MatchAttributes.SourceSubnet ma) in
  foldl (λ errs subnet, check errs (ValidateSubnet subnet))
        errs (L4MatchAttributes.DestinationSubnet ma).

Definition ValidateHTTPHeaderName (name : string) : error :=
  if decide (strings_ToLower name ≠ name) then Errorf "must be in lower case" else None.

Definition ValidateStringMatch (match_ : StringMatch.t) : error :=
  match StringMatch.MatchType match_ with
  | Some _ => None
  | None => Errorf ("unrecognized string match " +:+ fmt_StringMatch match_)
  end.

Definition ValidateMatchCondition (mc : MatchCondition.t) : error :=
  let errs := None in
  let errs :=
    if decide (MatchCondition.Source mc ≠ EmptyString) then
      check errs (ValidateFQDN (MatchCondition.Source mc))
    else errs in
  let errs := check errs (Tags_Validate (MatchCondition.SourceTags mc)) in
  let errs :=
    match MatchCondition.Tcp mc with
    | Some tcp => check errs (ValidateL4MatchAttributes tcp)
    | None => errs
    end in
  let errs :=
    match MatchCondition.Udp mc with
    | Some udp =>
        let errs := check errs (ValidateL4MatchAttributes udp) in
        multierror_Append errs (Errorf "Istio does not support UDP protocol yet")
    | None => errs
    end in
  foldl (λ errs nv,
           let '(name, value) := nv in
           let errs :=
             check_prefixed errs (ValidateHTTPHeaderName name)
               ("header name " +:+ strconv_Quote name +:+ " invalid: ") in
           let errs :=
             check_prefixed errs (ValidateStringMatch value)
               ("header " +:+ strconv_Quote name +:+ " value invalid: ") in
           if decide (name = HeaderURI) then
             match StringMatch.MatchType value with
             | Some (StringMatch.Exact EmptyString) =>
                 multierror_Append errs
                   (Errorf ("exact header value for " +:+ strconv_Quote HeaderURI
                            +:+ " must be non-empty"))
             | Some (StringMatch.Prefix EmptyString) =>
                 multierror_Append errs
                   (Errorf ("prefix header value for " +:+ strconv_Quote HeaderURI
                            +:+ " must be non-empty"))
             | Some (StringMatch.Regex EmptyString) =>
                 multierror_Append errs
                   (Errorf ("regex header value for " +:+ strconv_Quote HeaderURI
                            +:+ " must be non-empty"))
             | _ => errs
             end
           else errs)
        errs (map_to_list (MatchCondition.HttpHeaders mc)).

Definition ValidatePercent (val : Z) : error :=
  if decide (val < 0 ∨ val > 100) then Errorf "must be in range 0..100" else None.

Definition ValidateFloatPercent (val : go.float) : error :=
  if go.float_ltb val (go.float_of_Z 0) || go.float_ltb (go.float_of_Z 100) val then
    Errorf "must be in range 0..100"
  else None.

Definition ValidateDestinationWeight (dw : DestinationWeight.t) : error :=
  let errs := None in
  let errs :=
    if decide (DestinationWeight.Destination dw ≠ EmptyString) then
      check errs (ValidateFQDN (DestinationWeight.Destination dw))
    else errs in
  let errs := check errs (Tags_Validate (DestinationWeight.Tags dw)) in
  check_prefixed errs (ValidatePercent (DestinationWeight.Weight dw)) "weight invalid: ".

Definition ValidateDuration (pd : option Duration.t) : error :=
  let '(dur, err) := ptypes_Duration pd in
  if decide (err ≠ None) then err
  else if decide (dur < 1 * time_Millisecond) then
    Errorf "duration must be greater than 1ms"
  else if decide (Z.rem dur time_Millisecond ≠ 0) then
    Errorf "Istio only supports durations to ms precision"
  else None.

Definition ValidateHTTPTimeout (timeout : HTTPTimeout.t) : error :=
  let errs := None in
  match HTTPTimeout.GetSimpleTimeout timeout with
  | Some simple =>
      check_prefixed errs (ValidateDuration (HTTPTimeout.Timeout simple))
        "httpTimeout invalid: "
  | None => errs
  end.

Definition ValidateHTTPRetries (retry : HTTPRetry.t) : error :=
  let errs := None in
  match HTTPRetry.GetSimpleRetry retry with
  | Some simple =>
      let errs :=
        if decide (HTTPRetry.Attempts simple < 0) then
          multierror_Append errs (Errorf "attempts must be in range [0..]")
        else errs in
      check_prefixed errs (ValidateDuration (HTTPRetry.PerTryTimeout simple))
        "perTryTimeout invalid: "
  | None => errs
  end.

Definition ValidateDelay (delay : HTTPFaultInjection.Delay.t) : error :=
  let errs := None in
  let errs :=
    check_prefixed errs (ValidateFloatPercent (HTTPFaultInjection.Delay.Percent delay))
      "percent invalid: " in
  let errs :=
    check_prefixed errs (ValidateDuration (HTTPFaultInjection.Delay.GetFixedDelay delay))
      "fixedDelay invalid:" in
  match HTTPFaultInjection.Delay.GetExponentialDelay delay with
  | Some d =>
      let errs :=
        check_prefixed errs (ValidateDuration (Some d)) "exponentialDelay invalid: " in
      multierror_Append errs (Errorf "Istio does not support exponentialDelay yet")
  | None => errs
  end.

Definition ValidateAbortHTTPStatus (HttpStatus : Z) : error :=
  let errs := None in
  if decide (HttpStatus < 0 ∨ HttpStatus > 600) then
    multierror_Append errs (Errorf ("invalid abort http status " +:+ go.fmt_int HttpStatus))
  else errs.

Definition ValidateAbort (abort : HTTPFaultInjection.Abort.t) : error :=
  let errs := None in
  let errs :=
    check_prefixed errs (ValidateFloatPercent (HTTPFaultInjection.Abort.Percent abort))
      "percent invalid: " in
  match HTTPFaultInjection.Abort.ErrorType abort with
  | Some (HTTPFaultInjection.Abort.GrpcStatus _) =>
      multierror_Append errs (Errorf "Istio does not support gRPC fault injection yet")
  | Some (HTTPFaultInjection.Abort.Http2Error _) => errs
  | Some (HTTPFaultInjection.Abort.HttpStatus code) =>
      check errs (ValidateAbortHTTPStatus code)
  | None => errs
  end.

Definition ValidateHTTPFault (fault : HTTPFaultInjection.t) : error :=
  let errs := None in
  let errs :=
    match HTTPFaultInjection.Delay_ fault with
    | Some delay => check errs (ValidateDelay delay)
    | None => errs
    end in
  match HTTPFaultInjection.Abort_ fault with
  | Some abort => check errs (ValidateAbort abort)
  | None => errs
  end.

Definition ValidateTerminate (terminate : L4FaultInjection.Terminate.t) : error :=
  check_prefixed None (ValidateFloatPercent (L4FaultInjection.Terminate.Percent terminate))
    "terminate percent invalid: ".

Definition ValidateThrottle (throttle : L4FaultInjection.Throttle.t) : error :=
  let errs := None in
  let errs :=
    check_prefixed errs (ValidateFloatPercent (L4FaultInjection.Throttle.Percent throttle))
      "throttle percent invalid: " in
  let errs :=
    if decide (L4FaultInjection.Throttle.DownstreamLimitBps throttle < 0) then
      multierror_Append errs (Errorf "downstreamLimitBps invalid")
    else errs in
  let errs :=
    if decide (L4FaultInjection.Throttle.UpstreamLimitBps throttle < 0) then
      multierror_Append errs (Errorf "upstreamLimitBps invalid")
    else errs in
  let err := ValidateDuration (L4FaultInjection.Throttle.GetThrottleAfterPeriod throttle) in
  let errs :=
    if decide (err ≠ None) then
      multierror_Append errs (Errorf "throttleAfterPeriod invalid")
    else errs in
  if go.float_ltb (L4FaultInjection.Throttle.GetThrottleAfterBytes throttle) (go.float_of_Z 0)
  then multierror_Append errs (Errorf "throttleAfterBytes invalid")
  else errs.

Definition ValidateL4Fault (fault : L4FaultInjection.t) : error :=
  let errs := None in
  let errs :=
    match L4FaultInjection.Terminate_ fault with
    | Some terminate =>
        let errs := check errs (ValidateTerminate terminate) in
        multierror_Append errs (Errorf "Istio does not support the terminate fault yet")
    | None => errs
    end in
  match L4FaultInjection.Throttle_ fault with
  | Some throttle => check errs (ValidateThrottle throttle)
  | None => errs
  end.

(** The sum [ValidateWeights] computes: an [int], started at 0, to which
    every weight is added in turn. *)
Definition sum_weights (routes : list DestinationWeight.t) : Z :=
  foldl (λ sum destWeight, go.int_add sum (DestinationWeight.Weight destWeight)) 0 routes.

Definition ValidateWeights (routes : list DestinationWeight.t)
    (defaultDestination : string) : error :=
  let sum := sum_weights routes in
  if decide (length routes = 1%nat ∧ sum = 0) then None
  else
    let errs := None in
    if decide (sum ≠ 100) then
      multierror_Append errs
        (Errorf ("Route weights total " +:+ go.fmt_int sum +:+ " (must total 100)"))
    else errs.

(** The statements of [ValidateRouteRule], one definition for each, in
    the order of the source; each takes the errors so far and returns the
    errors after it. *)

Definition check_name (value : RouteRule.t) (errs : error) : error :=
  if decide (RouteRule.Name value = EmptyString) then
    multierror_Append errs (Errorf "route rule must have a name")
  else errs.

Definition check_name_label (value : RouteRule.t) (errs : error) : error :=
  if negb (IsDNS1123Label (RouteRule.Name value)) then
    multierror_Append errs (Errorf "route rule name must be a host name label")
  else errs.

Definition check_destination (value : RouteRule.t) (errs : error) : error :=
  if decide (RouteRule.Destination value = EmptyString) then
    multierror_Append errs (Errorf "route rule must have a destination service")
  else errs.

Definition check_destination_fqdn (value : RouteRule.t) (errs : error) : error :=
  check errs (ValidateFQDN (RouteRule.Destination value)).

Definition check_match (value : RouteRule.t) (errs : error) : error :=
  match RouteRule.Match value with
  | Some mc => check errs (ValidateMatchCondition mc)
  | None => errs
  end.

Definition check_rewrite (value : RouteRule.t) (errs : error) : error :=
  match RouteRule.Rewrite value with
  | Some rewrite_ =>
      if decide (HTTPRewrite.Uri rewrite_ = EmptyString
                 ∧ HTTPRewrite.Authority rewrite_ = EmptyString) then
        multierror_Append errs (Errorf "rewrite must specify path, host, or both")
      else errs
  | None => errs
  end.

Definition check_redirect (value : RouteRule.t) (errs : error) : error :=
  match RouteRule.Redirect value with
  | Some redirect =>
      let errs :=
        if decide (0 < length (default [] (RouteRule.Route value)))%nat then
          multierror_Append errs (Errorf "rule cannot contain both route and redirect")
        else errs in
      let errs :=
        if negb (is_nil (RouteRule.HttpFault value)) then
          multierror_Append errs (Errorf "rule cannot contain both fault and redirect")
        else errs in
      if decide (HTTPRedirect.Authority redirect = EmptyString
                 ∧ HTTPRedirect.Uri redirect = EmptyString) then
        multierror_Append errs (Errorf "redirect must specify path, host, or both")
      else errs
  | None => errs
  end.

Definition check_rewrite_and_redirect (value : RouteRule.t) (errs : error) : error :=
  if negb (is_nil (RouteRule.Redirect value)) && negb (is_nil (RouteRule.Rewrite value))
  then multierror_Append errs (Errorf "rule cannot contain both rewrite and redirect")
  else errs.

Definition check_route (value : RouteRule.t) (errs : error) : error :=
  match RouteRule.Route value with
  | Some route =>
      let errs :=
        foldl (λ errs destWeight, check errs (ValidateDestinationWeight destWeight))
              errs route in
      check errs (ValidateWeights route (RouteRule.Destination value))
  | None => errs
  end.

Definition check_timeout (value : RouteRule.t) (errs : error) : error :=
  match RouteRule.HttpReqTimeout value with
  | Some timeout => check errs (ValidateHTTPTimeout timeout)
  | None => errs
  end.

Definition check_retries (value : RouteRule.t) (errs : error) : error :=
  match RouteRule.HttpReqRetries value with
  | Some retries => check errs (ValidateHTTPRetries retries)
  | None => errs
  end.

Definition check_http_fault (value : RouteRule.t) (errs : error) : error :=
  match RouteRule.HttpFault value with
  | Some fault => check errs (ValidateHTTPFault fault)
  | None => errs
  end.

Definition check_l4_fault (value : RouteRule.t) (errs : error) : error :=
  match RouteRule.L4Fault value with
  | Some fault =>
      let errs := check errs (ValidateL4Fault fault) in
      multierror_Append errs (Errorf "L4 faults are not implemented")
  | None => errs
  end.

Definition ValidateRouteRule (msg : proto_Message) : error :=
  match msg with
  | Message_other _ => Errorf "cannot cast to routing rule"
  | Message_RouteRule value =>
      let errs := None in
      let errs := check_name value errs in
      let errs := check_name_label value errs in
      let errs := check_destination value errs in
      let errs := check_destination_fqdn value errs in
      (* precedence is not validated: any int32 is legal *)
      let errs := check_match value errs in
      let errs := check_rewrite value errs in
      let errs := check_redirect value errs in
      let errs := check_rewrite_and_redirect value errs in
      let errs := check_route value errs in
      let errs := check_timeout value errs in
      let errs := check_retries value errs in
      let errs := check_http_fault value errs in
      let errs := check_l4_fault value errs in
      errs
  end.

(** **** Every statement appends *)

(** A statement [step] leaves the errors so far in place and appends its
    own. *)
Definition appends (step : error → error) : Prop :=
  ∀ errs, leaves (step errs) = leaves errs ++ leaves (step None).

Lemma leaves_check errs e : leaves (check errs e) = leaves errs ++ leaves e.
Proof. apply leaves_if_not_nil. Qed.

Lemma leaves_check_prefixed errs e prefix :
  leaves (check_prefixed errs e prefix) = leaves errs ++ leaves (multierror_Prefix e prefix).
Proof.
  unfold check_prefixed. case_decide as Hn; [done|]. destruct e; [discriminate|].
  simpl. by rewrite app_nil_r.
Qed.

Lemma leaves_foldl_check {A} (f : A → error) (l : list A) errs :
  leaves (foldl (λ errs x, check errs (f x)) errs l)
  = leaves errs ++ mjoin ((λ x, leaves (f x)) <$> l).
Proof.
  revert errs. induction l as [|x l IH]; intros errs; simpl.
  - by rewrite app_nil_r.
  - by rewrite IH, leaves_check, <-app_assoc.
Qed.

Ltac solve_appends :=
  intros errs; cbv zeta;
  repeat case_match;
  rewrite ?leaves_if_Append, ?leaves_Append, ?leaves_check, ?leaves_check_prefixed,
    ?leaves_foldl_check;
  rewrite ?leaves_if_Append, ?leaves_Append, ?leaves_check, ?leaves_check_prefixed,
    ?leaves_foldl_check;
  simpl; rewrite ?app_nil_r, <-?app_assoc; try done.

Lemma check_name_appends value : appends (check_name value).
Proof. unfold check_name. solve_appends. Qed.

Lemma check_name_label_appends value : appends (check_name_label value).
Proof. unfold check_name_label. solve_appends. Qed.

Lemma check_destination_appends value : appends (check_destination value).
Proof. unfold check_destination. solve_appends. Qed.

Lemma check_destination_fqdn_appends value : appends (check_destination_fqdn value).
Proof. unfold check_destination_fqdn. solve_appends. Qed.

Lemma check_match_appends value : appends (check_match value).
Proof. unfold check_match. solve_appends. Qed.

Lemma check_rewrite_appends value : appends (check_rewrite value).
Proof. unfold check_rewrite. solve_appends. Qed.

Lemma check_redirect_appends value : appends (check_redirect value).
Proof. unfold check_redirect. solve_appends. Qed.

Lemma check_rewrite_and_redirect_appends value :
  appends (check_rewrite_and_redirect value).
Proof. unfold check_rewrite_and_redirect. solve_appends. Qed.

Lemma check_route_appends value : appends (check_route value).
Proof. unfold check_route. solve_appends. Qed.

Lemma check_timeout_appends value : appends (check_timeout value).
Proof. unfold check_timeout. solve_appends. Qed.

Lemma check_retries_appends value : appends (check_retries value).
Proof. unfold check_retries. solve_appends. Qed.

Lemma check_http_fault_appends value : appends (check_http_fault value).
Proof. unfold check_http_fault. solve_appends. Qed.

Lemma check_l4_fault_appends value : appends (check_l4_fault value).
Proof. unfold check_l4_fault. solve_appends. Qed.

(** The combined error of [ValidateRouteRule] holds the errors of every
    statement, in the order of the statements. *)
Lemma ValidateRouteRule_leaves (value : RouteRule.t) :
  leaves (ValidateRouteRule (Message_RouteRule value)) =
    leaves (check_name value None) ++
    leaves (check_name_label value None) ++
    leaves (check_destination value None) ++
    leaves (check_destination_fqdn value None) ++
    leaves (check_match value None) ++
    leaves (check_rewrite value None) ++
    leaves (check_redirect value None) ++
    leaves (check_rewrite_and_redirect value None) ++
    leaves (check_route value None) ++
    leaves (check_timeout value None) ++
    leaves (check_retries value None) ++
    leaves (check_http_fault value None) ++
    leaves (check_l4_fault value None).
Proof.
  unfold ValidateRouteRule. cbv zeta.
  rewrite check_l4_fault_appends, check_http_fault_appends, check_retries_appends,
    check_timeout_appends, check_route_appends, check_rewrite_and_redirect_appends,
    check_redirect_appends, check_rewrite_appends, check_match_appends,
    check_destination_fqdn_appends, check_destination_appends, check_name_label_appends.
  by rewrite <-!app_assoc.
Qed.

(** **** When a routing rule is accepted *)

Lemma check_None errs e : check errs e = None ↔ errs = None ∧ e = None.
Proof. apply if_not_nil_Append_None. Qed.

Lemma check_prefixed_None errs e prefix :
  check_prefixed errs e prefix = None ↔ errs = None ∧ e = None.
Proof.
  unfold check_prefixed. rewrite if_decide_Append_None.
  split; intros [? He]; (split; [done|]).
  - destruct e; [|done]. by destruct He.
  - intros Hne. by apply Hne.
Qed.

Lemma foldl_check_None {A} (f : A → error) (l : list A) errs :
  foldl (λ errs x, check errs (f x)) errs l = None
  ↔ errs = None ∧ Forall (λ x, f x = None) l.
Proof.
  revert errs. induction l as [|x l IH]; intros errs; simpl.
  - split; [by intros ->|by intros [? _]].
  - rewrite IH, check_None, Forall_cons. tauto.
Qed.

Lemma first_error_None {A} (f : A → error) (l : list A) :
  first_error f l = None ↔ Forall (λ x, f x = None) l.
Proof.
  induction l as [|x l IH]; simpl.
  - split; [constructor|done].
  - rewrite Forall_cons. case_decide as Hx.
    + split; [done|]. by intros [? _].
    + rewrite IH. tauto.
Qed.

(** X2. [Tags.Validate] accepts a tag set exactly when every key and every
    value is made of the bytes [-A-Za-z0-9_./], in whatever order the
    map is ranged over. *)
Theorem Tags_Validate_accepts (t : gmap string string) :
  Tags_Validate t = None ↔
    ∀ k v, t !! k = Some v →
           tagRegexp_MatchString k = true ∧ tagRegexp_MatchString v = true.
Proof.
  unfold Tags_Validate.
  assert (∀ (l : list (string * string)) errs,
            foldl (λ errs kv,
                     let errs :=
                       if negb (tagRegexp_MatchString kv.1) then
                         multierror_Append errs
                           (Errorf ("invalid tag key: " +:+ strconv_Quote kv.1))
                       else errs in
                     if negb (tagRegexp_MatchString kv.2) then
                       multierror_Append errs
                         (Errorf ("invalid tag value: " +:+ strconv_Quote kv.2))
                     else errs) errs l = None
            ↔ errs = None ∧
              Forall (λ kv, tagRegexp_MatchString kv.1 = true
                            ∧ tagRegexp_MatchString kv.2 = true) l) as Hfold.
  { induction l as [|kv l IH]; intros errs; cbn [foldl].
    - split; [by intros ->|by intros [? _]].
    - rewrite IH, Forall_cons. cbv zeta.
      rewrite !if_Append_None, !negb_false_iff. tauto. }
  rewrite Hfold, Forall_forall. split.
  - intros [_ Hall] k v Hkv. by apply (Hall (k, v)), elem_of_map_to_list.
  - intros Hall. split; [done|]. intros [k v] Hkv%elem_of_map_to_list. by apply Hall.
Qed.

(** The bytes of a DNS label. *)
Lemma lower_alnum_dns1123_char c : lower_alnum c = true → dns1123_char c = true.
Proof. unfold dns1123_char. intros ->. apply orb_true_r. Qed.

Lemma dns1123_char_not_dot c :
  dns1123_char c = true → negb (bool_decide (c = "."%char)) = true.
Proof.
  intros Hc. apply negb_true_iff, bool_decide_eq_false. intros ->.
  by vm_compute in Hc.
Qed.

Lemma IsDNS1123Label_bytes (value : string) :
  IsDNS1123Label value = true →
  value ≠ EmptyString ∧ string_len value ≤ 63 ∧
  go.string_forallb dns1123_char value = true.
Proof.
  unfold IsDNS1123Label, dns1123LabelMaxLength.
  intros [Hlen Hm]%andb_true_iff. apply bool_decide_eq_true in Hlen.
  destruct value as [|c rest]; [done|]. simpl in Hm.
  apply andb_true_iff in Hm as [[Hc Hrest]%andb_true_iff _].
  repeat split; [done|done|]. simpl.
  by rewrite (lower_alnum_dns1123_char c Hc), Hrest.
Qed.

Lemma ValidateFQDN_None (fqdn : string) :
  ValidateFQDN fqdn = None ↔
    1 ≤ string_len fqdn ≤ 255 ∧
    Forall (λ label, IsDNS1123Label label = true) (go.strings_Split fqdn ".").
Proof.
  unfold ValidateFQDN.
  assert (0 ≤ string_len fqdn) as Hnn by (unfold string_len; lia).
  case_decide as Hlong; [split; [done|lia]|].
  case_decide as Hempty; [split; [done|lia]|].
  rewrite first_error_None. split.
  - intros Hall. split; [lia|]. eapply Forall_impl; [exact Hall|].
    intros label. simpl. by destruct (IsDNS1123Label label).
  - intros [_ Hall]. eapply Forall_impl; [exact Hall|].
    intros label. simpl. by intros ->.
Qed.

(** X3. [ValidateFQDN] accepts a name exactly when it has between 1 and 255
    bytes and every piece between its dots is a DNS label. An accepted
    name is made of the bytes [-a-z0-9.] only, and every DNS label is an
    accepted name by itself. *)
Theorem ValidateFQDN_accepts (fqdn : string) :
  (ValidateFQDN fqdn = None ↔
     1 ≤ string_len fqdn ≤ 255 ∧
     Forall (λ label, IsDNS1123Label label = true) (go.strings_Split fqdn ".")) ∧
  (ValidateFQDN fqdn = None →
     go.string_forallb (λ c, dns1123_char c || bool_decide (c = "."%char)) fqdn = true) ∧
  (IsDNS1123Label fqdn = true → ValidateFQDN fqdn = None).
Proof.
  split; [apply ValidateFQDN_None|]. split.
  - intros [_ Hall]%ValidateFQDN_None.
    apply (go.string_forallb_Split _ fqdn "."); [done|].
    eapply Forall_impl; [exact Hall|]. intros label (_ & _ & Hb)%IsDNS1123Label_bytes.
    eapply go.string_forallb_impl; [|exact Hb]. by intros c ->.
  - intros Hl. pose proof (IsDNS1123Label_bytes fqdn Hl) as (Hne & Hlen & Hb).
    apply ValidateFQDN_None. split.
    + unfold string_len in *. destruct fqdn; [done|]. simpl in *. lia.
    + rewrite (go.strings_Split_no_sep fqdn ".").
      * by repeat constructor.
      * eapply go.string_forallb_impl; [|exact Hb]. apply dns1123_char_not_dot.
Qed.

(** The statements of [ValidateRouteRule] leave the error nil only if it
    was nil and their own rule holds. *)

Lemma check_name_None value errs :
  check_name value errs = None ↔ errs = None ∧ RouteRule.Name value ≠ EmptyString.
Proof. unfold check_name. apply if_decide_Append_None. Qed.

Lemma check_name_label_None value errs :
  check_name_label value errs = None
  ↔ errs = None ∧ IsDNS1123Label (RouteRule.Name value) = true.
Proof. unfold check_name_label. by rewrite if_Append_None, negb_false_iff. Qed.

Lemma check_destination_None value errs :
  check_destination value errs = None
  ↔ errs = None ∧ RouteRule.Destination value ≠ EmptyString.
Proof. unfold check_destination. apply if_decide_Append_None. Qed.

Lemma check_destination_fqdn_None value errs :
  check_destination_fqdn value errs = None
  ↔ errs = None ∧ ValidateFQDN (RouteRule.Destination value) = None.
Proof. apply check_None. Qed.

Lemma check_match_None value errs :
  check_match value errs = None
  ↔ errs = None ∧ ∀ mc, RouteRule.Match value = Some mc → ValidateMatchCondition mc = None.
Proof.
  unfold check_match. destruct (RouteRule.Match value) as [mc|].
  - rewrite check_None. naive_solver.
  - naive_solver.
Qed.

Lemma check_rewrite_None value errs :
  check_rewrite value errs = None
  ↔ errs = None ∧
    ∀ rewrite_, RouteRule.Rewrite value = Some rewrite_ →
      ¬ (HTTPRewrite.Uri rewrite_ = EmptyString
         ∧ HTTPRewrite.Authority rewrite_ = EmptyString).
Proof.
  unfold check_rewrite. destruct (RouteRule.Rewrite value) as [rw|].
  - rewrite if_decide_Append_None. naive_solver.
  - naive_solver.
Qed.

Lemma check_redirect_None value errs :
  check_redirect value errs = None
  ↔ errs = None ∧
    ∀ redirect, RouteRule.Redirect value = Some redirect →
      default [] (RouteRule.Route value) = [] ∧
      RouteRule.HttpFault value = None ∧
      ¬ (HTTPRedirect.Authority redirect = EmptyString
         ∧ HTTPRedirect.Uri redirect = EmptyString).
Proof.
  unfold check_redirect. destruct (RouteRule.Redirect value) as [rd|].
  - cbv zeta. rewrite !if_decide_Append_None, if_Append_None, if_decide_Append_None.
    rewrite negb_false_iff.
    assert (¬ (0 < length (default [] (RouteRule.Route value)))%nat
            ↔ default [] (RouteRule.Route value) = []) as ->.
    { destruct (default [] (RouteRule.Route value)); simpl; [|split; [lia|done]].
      split; [done|lia]. }
    destruct (RouteRule.HttpFault value); simpl; naive_solver.
  - naive_solver.
Qed.

Lemma check_rewrite_and_redirect_None value errs :
  check_rewrite_and_redirect value errs = None
  ↔ errs = None ∧ (RouteRule.Redirect value = None ∨ RouteRule.Rewrite value = None).
Proof.
  unfold check_rewrite_and_redirect. rewrite if_Append_None.
  destruct (RouteRule.Redirect value), (RouteRule.Rewrite value); simpl; naive_solver.
Qed.

Lemma check_route_None value errs :
  check_route value errs = None
  ↔ errs = None ∧
    ∀ route, RouteRule.Route value = Some route →
      Forall (λ destWeight, ValidateDestinationWeight destWeight = None) route ∧
      ValidateWeights route (RouteRule.Destination value) = None.
Proof.
  unfold check_route. destruct (RouteRule.Route value) as [route|].
  - cbv zeta. rewrite check_None, foldl_check_None. naive_solver.
  - naive_solver.
Qed.

Lemma check_timeout_None value errs :
  check_timeout value errs = None
  ↔ errs = None ∧
    ∀ timeout, RouteRule.HttpReqTimeout value = Some timeout →
      ValidateHTTPTimeout timeout = None.
Proof.
  unfold check_timeout. destruct (RouteRule.HttpReqTimeout value).
  - rewrite check_None. naive_solver.
  - naive_solver.
Qed.

Lemma check_retries_None value errs :
  check_retries value errs = None
  ↔ errs = None ∧
    ∀ retries, RouteRule.HttpReqRetries value = Some retries →
      ValidateHTTPRetries retries = None.
Proof.
  unfold check_retries. destruct (RouteRule.HttpReqRetries value).
  - rewrite check_None. naive_solver.
  - naive_solver.
Qed.

Lemma check_http_fault_None value errs :
  check_http_fault value errs = None
  ↔ errs = None ∧
    ∀ fault, RouteRule.HttpFault value = Some fault → ValidateHTTPFault fault = None.
Proof.
  unfold check_http_fault. destruct (RouteRule.HttpFault value).
  - rewrite check_None. naive_solver.
  - naive_solver.
Qed.

Lemma check_l4_fault_None value errs :
  check_l4_fault value errs = None ↔ errs = None ∧ RouteRule.L4Fault value = None.
Proof.
  unfold check_l4_fault. destruct (RouteRule.L4Fault value); [|naive_solver].
  split; [done|]. by intros [_ ?].
Qed.

(** X4. [ValidateRouteRule] accepts a message exactly when it is a routing
    rule whose name is a DNS label and whose destination is an accepted
    domain name, whose parts, where present, are accepted by their
    validators, which has no L4 fault, and in which a redirect comes
    without a rewrite, without routes and without an HTTP fault. The
    two "must have" rules on the name and the destination add nothing:
    an empty name is no DNS label, an empty destination no domain
    name. *)
Theorem ValidateRouteRule_accepts (msg : proto_Message) :
  ValidateRouteRule msg = None ↔
    ∃ value, msg = Message_RouteRule value ∧
      IsDNS1123Label (RouteRule.Name value) = true ∧
      ValidateFQDN (RouteRule.Destination value) = None ∧
      (∀ mc, RouteRule.Match value = Some mc → ValidateMatchCondition mc = None) ∧
      (∀ rewrite_, RouteRule.Rewrite value = Some rewrite_ →
         RouteRule.Redirect value = None ∧
         ¬ (HTTPRewrite.Uri rewrite_ = EmptyString
            ∧ HTTPRewrite.Authority rewrite_ = EmptyString)) ∧
      (∀ redirect, RouteRule.Redirect value = Some redirect →
         default [] (RouteRule.Route value) = [] ∧
         RouteRule.HttpFault value = None ∧
         ¬ (HTTPRedirect.Authority redirect = EmptyString
            ∧ HTTPRedirect.Uri redirect = EmptyString)) ∧
      (∀ route, RouteRule.Route value = Some route →
         Forall (λ destWeight, ValidateDestinationWeight destWeight = None) route ∧
         ValidateWeights route (RouteRule.Destination value) = None) ∧
      (∀ timeout, RouteRule.HttpReqTimeout value = Some timeout →
         ValidateHTTPTimeout timeout = None) ∧
      (∀ retries, RouteRule.HttpReqRetries value = Some retries →
         ValidateHTTPRetries retries = None) ∧
      (∀ fault, RouteRule.HttpFault value = Some fault →
         ValidateHTTPFault fault = None) ∧
      RouteRule.L4Fault value = None.
Proof.
  destruct msg as [value|name]; simpl; [|split; [done|by intros (? & ? & _)]].
  rewrite check_l4_fault_None, check_http_fault_None, check_retries_None,
    check_timeout_None, check_route_None, check_rewrite_and_redirect_None,
    check_redirect_None, check_rewrite_None, check_match_None,
    check_destination_fqdn_None, check_destination_None, check_name_label_None,
    check_name_None.
  rewrite !Init.Logic.and_assoc. split.
  - intros (_ & Hn & Hl & Hd & Hf & Hm & Hrw & Hrd & Hx & Hr & Ht & Hre & Hhf & Hl4).
    exists value. split_and!; try done.
    intros rw E. split; [|by apply Hrw].
    destruct Hx as [Hx|Hx]; [done|congruence].
  - intros (v & [= <-] & Hl & Hf & Hm & Hrw & Hrd & Hr & Ht & Hre & Hhf & Hl4).
    split_and!; try done.
    + intros E. rewrite E in Hl. by vm_compute in Hl.
    + intros E. rewrite E in Hf. by vm_compute in Hf.
    + intros rw E. by apply (Hrw rw).
    + destruct (RouteRule.Rewrite value) as [rw|]; [|by right].
      left. by apply (Hrw rw).
Qed.

(** **** What the validators of the parts accept *)

Lemma foldl_None {A} (f : error → A → error) (ok : A → Prop) (l : list A) errs :
  (∀ errs x, f errs x = None ↔ errs = None ∧ ok x) →
  foldl f errs l = None ↔ errs = None ∧ Forall ok l.
Proof.
  intros Hf. revert errs. induction l as [|x l IH]; intros errs; cbn [foldl].
  - split; [by intros ->|by intros [? _]].
  - rewrite IH, Hf, Forall_cons. tauto.
Qed.

(** X5. A percentage given as a float is accepted when it is a number from 0
    to 100, and also when it is not a number; the infinities are
    rejected. *)
Theorem ValidateFloatPercent_accepts (val : go.float) :
  ValidateFloatPercent val = None ↔
    match val with
    | go.float_nan => True
    | go.float_inf _ => False
    | go.float_fin q => (0 <= q)%Q ∧ (q <= 100)%Q
    end.
Proof.
  unfold ValidateFloatPercent, go.float_of_Z.
  destruct val as [|[]|q]; simpl; try done.
  change (0 <= q)%Q with (inject_Z 0 <= q)%Q.
  change (q <= 100)%Q with (q <= inject_Z 100)%Q.
  rewrite <-!Qle_bool_iff.
  destruct (Qle_bool (inject_Z 0) q), (Qle_bool q (inject_Z 100)); simpl;
    split; try done; by intros [? ?].
Qed.

(** X6. A weighted destination is accepted exactly when its destination is
    empty or an accepted domain name, its tags are accepted, and its
    weight is from 0 to 100. *)
Theorem ValidateDestinationWeight_accepts (dw : DestinationWeight.t) :
  ValidateDestinationWeight dw = None ↔
    (DestinationWeight.Destination dw = EmptyString ∨
     ValidateFQDN (DestinationWeight.Destination dw) = None) ∧
    Tags_Validate (DestinationWeight.Tags dw) = None ∧
    0 ≤ DestinationWeight.Weight dw ≤ 100.
Proof.
  unfold ValidateDestinationWeight. cbv zeta.
  rewrite check_prefixed_None, check_None.
  assert (ValidatePercent (DestinationWeight.Weight dw) = None
          ↔ 0 ≤ DestinationWeight.Weight dw ≤ 100) as ->.
  { unfold ValidatePercent. case_decide; [split; [done|lia]|split; [lia|done]]. }
  case_decide as Hd.
  - rewrite check_None. naive_solver.
  - naive_solver.
Qed.

(** The string a match compares with. *)
Definition match_value (p : StringMatch.isStringMatch_MatchType) : string :=
  match p with
  | StringMatch.Exact s | StringMatch.Prefix s | StringMatch.Regex s => s
  end.

Definition header_ok (nv : string * StringMatch.t) : Prop :=
  strings_ToLower nv.1 = nv.1 ∧
  ∃ p, StringMatch.MatchType nv.2 = Some p ∧
       (nv.1 = HeaderURI → match_value p ≠ EmptyString).

(** X7. A match condition is accepted exactly when its source is empty or an
    accepted domain name, its source tags are accepted, its TCP
    attributes, if any, are accepted, it has no UDP attributes, and every
    header has a name that [strings.ToLower] leaves as it is and a match
    of one of the three types, which for the header [HeaderURI] compares
    with a string that is not empty. *)
Theorem ValidateMatchCondition_accepts (mc : MatchCondition.t) :
  ValidateMatchCondition mc = None ↔
    (MatchCondition.Source mc = EmptyString ∨
     ValidateFQDN (MatchCondition.Source mc) = None) ∧
    Tags_Validate (MatchCondition.SourceTags mc) = None ∧
    (∀ tcp, MatchCondition.Tcp mc = Some tcp → ValidateL4MatchAttributes tcp = None) ∧
    MatchCondition.Udp mc = None ∧
    ∀ name value, MatchCondition.HttpHeaders mc !! name = Some value →
      strings_ToLower name = name ∧
      ∃ p, StringMatch.MatchType value = Some p ∧
           (name = HeaderURI → match_value p ≠ EmptyString).
Proof.
  unfold ValidateMatchCondition. cbv zeta.
  rewrite (foldl_None _ header_ok).
  2:{ intros errs [name value]. unfold header_ok. cbn [fst snd].
      unfold ValidateHTTPHeaderName, ValidateStringMatch.
      destruct (StringMatch.MatchType value) as [[s|s|s]|] eqn:E;
        [destruct s as [|a s]..|];
        destruct (decide (name = HeaderURI)) as [Hn|Hn];
        destruct (decide (strings_ToLower name ≠ name)) as [Hl|Hl%dec_stable];
        rewrite ?check_prefixed_None; simpl;
        (split; [try done; naive_solver|]);
        try (intros (? & ? & p & [= <-] & Hp); by destruct Hp);
        try (intros (? & ? & p & [= <-] & Hp); done);
        try (by intros (? & ? & p & ? & ?));
        naive_solver. }
  rewrite Forall_forall.
  assert ((∀ nv, nv ∈ map_to_list (MatchCondition.HttpHeaders mc) → header_ok nv)
          ↔ ∀ name value, MatchCondition.HttpHeaders mc !! name = Some value →
              strings_ToLower name = name ∧
              ∃ p, StringMatch.MatchType value = Some p ∧
                   (name = HeaderURI → match_value p ≠ EmptyString)) as ->.
  { split.
    - intros Hall name value Hnv. by apply (Hall (name, value)), elem_of_map_to_list.
    - intros Hall [name value] Hnv%elem_of_map_to_list. by apply Hall. }
  destruct (MatchCondition.Udp mc) as [udp|].
  { split; [by intros [? _]|]. by intros (_ & _ & _ & ? & _). }
  destruct (MatchCondition.Tcp mc) as [tcp|]; rewrite ?check_None;
    (case_decide as Hs; [rewrite check_None|]); naive_solver.
Qed.

(** X8. The timeout and the retry policy of a rule: a custom policy is
    accepted as it is, a simple one when its duration is accepted and,
    for retries, the number of attempts is not negative. *)
Theorem ValidateHTTPTimeout_Retries_accept (timeout : HTTPTimeout.t) (retry : HTTPRetry.t) :
  (ValidateHTTPTimeout timeout = None ↔
     ∀ simple, HTTPTimeout.GetSimpleTimeout timeout = Some simple →
       ValidateDuration (HTTPTimeout.Timeout simple) = None) ∧
  (ValidateHTTPRetries retry = None ↔
     ∀ simple, HTTPRetry.GetSimpleRetry retry = Some simple →
       0 ≤ HTTPRetry.Attempts simple ∧
       ValidateDuration (HTTPRetry.PerTryTimeout simple) = None).
Proof.
  unfold ValidateHTTPTimeout, ValidateHTTPRetries. split.
  - destruct (HTTPTimeout.GetSimpleTimeout timeout) as [simple|]; [|by split].
    rewrite check_prefixed_None. naive_solver.
  - destruct (HTTPRetry.GetSimpleRetry retry) as [simple|]; [|by split].
    cbv zeta. rewrite check_prefixed_None, if_decide_Append_None.
    split.
    + intros [[_ ?] ?] s [= <-]. split; [lia|done].
    + intros Hall. destruct (Hall simple eq_refl) as [? ?]. split_and!; try done. lia.
Qed.

(** X9. An HTTP fault is accepted exactly when its delay, if any, has an
    accepted percentage, a fixed delay that is an accepted duration and
    no exponential delay, and its abort, if any, has an accepted
    percentage and either no error type, an HTTP/2 error, or an HTTP
    status from 0 to 600; a gRPC status is always rejected. *)
Theorem ValidateHTTPFault_accepts (fault : HTTPFaultInjection.t) :
  ValidateHTTPFault fault = None ↔
    (∀ delay, HTTPFaultInjection.Delay_ fault = Some delay →
       ValidateFloatPercent (HTTPFaultInjection.Delay.Percent delay) = None ∧
       ValidateDuration (HTTPFaultInjection.Delay.GetFixedDelay delay) = None ∧
       HTTPFaultInjection.Delay.GetExponentialDelay delay = None) ∧
    (∀ abort, HTTPFaultInjection.Abort_ fault = Some abort →
       ValidateFloatPercent (HTTPFaultInjection.Abort.Percent abort) = None ∧
       match HTTPFaultInjection.Abort.ErrorType abort with
       | Some (HTTPFaultInjection.Abort.GrpcStatus _) => False
       | Some (HTTPFaultInjection.Abort.HttpStatus code) => 0 ≤ code ≤ 600
       | _ => True
       end).
Proof.
  assert (∀ delay, ValidateDelay delay = None ↔
            ValidateFloatPercent (HTTPFaultInjection.Delay.Percent delay) = None ∧
            ValidateDuration (HTTPFaultInjection.Delay.GetFixedDelay delay) = None ∧
            HTTPFaultInjection.Delay.GetExponentialDelay delay = None) as Hdelay.
  { intros delay. unfold ValidateDelay. cbv zeta.
    destruct (HTTPFaultInjection.Delay.GetExponentialDelay delay) as [d|].
    - split; [done|]. by intros (_ & _ & ?).
    - rewrite !check_prefixed_None. naive_solver. }
  assert (∀ abort, ValidateAbort abort = None ↔
            ValidateFloatPercent (HTTPFaultInjection.Abort.Percent abort) = None ∧
            match HTTPFaultInjection.Abort.ErrorType abort with
            | Some (HTTPFaultInjection.Abort.GrpcStatus _) => False
            | Some (HTTPFaultInjection.Abort.HttpStatus code) => 0 ≤ code ≤ 600
            | _ => True
            end) as Habort.
  { intros abort. unfold ValidateAbort. cbv zeta.
    destruct (HTTPFaultInjection.Abort.ErrorType abort) as [[s|s|code]|].
    - split; [done|]. by intros [_ ?].
    - rewrite check_prefixed_None. naive_solver.
    - rewrite check_None, check_prefixed_None. unfold ValidateAbortHTTPStatus.
      rewrite if_decide_Append_None. split.
      + intros [[_ ?] [_ ?]]. split; [done|lia].
      + intros [? ?]. split_and!; try done. lia.
    - rewrite check_prefixed_None. naive_solver. }
  unfold ValidateHTTPFault. cbv zeta.
  destruct (HTTPFaultInjection.Delay_ fault) as [delay|],
    (HTTPFaultInjection.Abort_ fault) as [abort|];
    rewrite ?check_None, ?Hdelay, ?Habort; naive_solver.
Qed.

(** A string that does not hold the byte [sep]. *)
Definition without (sep : ascii) (s : string) : Prop :=
  go.string_forallb (λ c, negb (bool_decide (c = sep))) s = true.

(** What [ValidateIPv4Address] asks of an octet. *)
Definition octet_ok (octet : string) : Prop :=
  (strconv_Atoi octet).2 = None ∧ 0 ≤ (strconv_Atoi octet).1 ≤ 255.

Lemma ValidateIPv4Address_None (addr : string) :
  ValidateIPv4Address addr = None ↔
    ∃ a b c d,
      addr = (a +:+ "." +:+ b +:+ "." +:+ c +:+ "." +:+ d)%string ∧
      Forall (λ octet, without "." octet ∧ octet_ok octet) [a; b; c; d].
Proof.
  unfold ValidateIPv4Address. cbv zeta.
  pose proof (go.strings_Split_eq addr ".") as Hsplit.
  destruct (go.strings_Split addr ".") as [|a [|b [|c [|d [|x rest]]]]] eqn:E;
    cbn [length]; case_decide as Hlen; try done.
  all: try (split; [done|]; intros (a' & b' & c' & d' & -> & Hall);
            assert (go.strings_Split
                      (a' +:+ "." +:+ b' +:+ "." +:+ c' +:+ "." +:+ d') "."
                    = [a'; b'; c'; d']) as Hs;
            [apply go.strings_Split_eq; split; [done|]; split; [|done];
             eapply Forall_impl; [exact Hall|]; by intros ? [? _]
            |rewrite Hs in E; discriminate]).
  clear Hlen.
  destruct (Hsplit [a; b; c; d]) as [(_ & Hno & ->) _]; [done|].
  rewrite first_error_None.
  assert (∀ octet,
            (let '(n, err) := strconv_Atoi octet in
             if decide (err ≠ None ∨ n < 0 ∨ n > 255) then
               Errorf (strconv_Quote (go.strings_Join [a; b; c; d] ".")
                       +:+ " is not a valid IP address")
             else None) = None ↔ octet_ok octet) as Hoct.
  { intros octet. unfold octet_ok. destruct (strconv_Atoi octet) as [n err]. simpl.
    case_decide as H.
    - split; [done|]. intros [-> ?]. destruct H as [?|?]; [done|lia].
    - split; [|done]. intros _. split; [|lia].
      destruct err; [|done]. destruct H. by left. }
  split.
  - intros Hall. exists a, b, c, d. split; [done|].
    apply Forall_forall. intros octet Hin. split.
    + rewrite Forall_forall in Hno. by apply Hno.
    + rewrite Forall_forall in Hall. by apply Hoct, Hall.
  - intros (a' & b' & c' & d' & Heq & Hall).
    assert ([a; b; c; d] = [a'; b'; c'; d']) as Hsame.
    { rewrite <-(go.strings_Split_Join [a; b; c; d] ".") by done.
      rewrite <-(go.strings_Split_Join [a'; b'; c'; d'] ".").
      - by rewrite Heq.
      - done.
      - eapply Forall_impl; [exact Hall|]. by intros ? [? _]. }
    rewrite Hsame. eapply Forall_impl; [exact Hall|].
    intros octet [_ Hok]. rewrite Hsame in Hoct. by apply Hoct.
Qed.

Lemma ValidateCIDRBlock_None (cidr : string) :
  ValidateCIDRBlock cidr = None ↔
    (strconv_Atoi cidr).2 = None ∧ 1 ≤ (strconv_Atoi cidr).1 ≤ 32.
Proof.
  unfold ValidateCIDRBlock. destruct (strconv_Atoi cidr) as [bits err]. simpl.
  case_decide as H.
  - split; [done|]. intros [-> ?]. destruct H as [?|?]; [done|lia].
  - split; [|done]. intros _. split; [|lia].
    destruct err; [|done]. destruct H. by left.
Qed.

(** X28. [ValidateIPv4Address] accepts exactly the strings [a.b.c.d]
    with four pieces between three dots, each of which [strconv.Atoi]
    reads as a number from 0 to 255. [ValidateIPv4Subnet] accepts
    exactly such an address, alone or followed by a slash and a block
    that [strconv.Atoi] reads as a number from 1 to 32: the block [/0]
    is rejected. [ValidateL4MatchAttributes] accepts exactly when all
    source and destination subnets are accepted. *)
Theorem ValidateIPv4Subnet_accepts (subnet : string) (ma : L4MatchAttributes.t) :
  (∀ addr, ValidateIPv4Address addr = None ↔
     ∃ a b c d,
       addr = (a +:+ "." +:+ b +:+ "." +:+ c +:+ "." +:+ d)%string ∧
       Forall (λ octet,
                 without "." octet ∧
                 (strconv_Atoi octet).2 = None ∧ 0 ≤ (strconv_Atoi octet).1 ≤ 255)
              [a; b; c; d]) ∧
  (ValidateIPv4Subnet subnet = None ↔
     ∃ addr,
       without "/" addr ∧ ValidateIPv4Address addr = None ∧
       (subnet = addr ∨
        ∃ block,
          subnet = (addr +:+ "/" +:+ block)%string ∧ without "/" block ∧
          (strconv_Atoi block).2 = None ∧ 1 ≤ (strconv_Atoi block).1 ≤ 32)) ∧
  (ValidateL4MatchAttributes ma = None ↔
     Forall (λ subnet, ValidateSubnet subnet = None)
       (L4MatchAttributes.SourceSubnet ma ++ L4MatchAttributes.DestinationSubnet ma)).
Proof.
  split; [exact ValidateIPv4Address_None|]. split.
  - unfold ValidateIPv4Subnet. cbv zeta.
    pose proof (go.strings_Split_eq subnet "/") as Hsplit.
    destruct (go.strings_Split subnet "/") as [|addr [|block [|x rest]]] eqn:E.
    + by destruct (go.strings_Split_not_nil subnet "/").
    + rewrite decide_False by (simpl; lia). rewrite check_None. cbn [head default].
      destruct (Hsplit [addr]) as [(_ & [Ha _]%Forall_cons & Hs) _]; [done|].
      cbn [go.strings_Join] in Hs. subst subnet. split.
      * intros [_ Hv]. exists addr. split; [done|]. split; [done|]. by left.
      * intros (addr' & Ha' & Hv & [->|(block & Heq & Hb & _)]); [done|].
        assert (go.strings_Split (addr' +:+ "/" +:+ block) "/" = [addr'; block]) as Hs'.
        { apply go.strings_Split_eq. split; [done|]. split; [|done].
          by repeat constructor. }
        rewrite <-Heq, E in Hs'. discriminate.
    + rewrite decide_False by (simpl; lia). rewrite !check_None. cbn [head default].
      rewrite ValidateCIDRBlock_None.
      destruct (Hsplit [addr; block])
        as [(_ & [Ha [Hb _]%Forall_cons]%Forall_cons & Hs) _]; [done|].
      cbn [go.strings_Join] in Hs. subst subnet. split.
      * intros [[_ [He Hr]] Hv]. exists addr. split; [done|]. split; [done|].
        right. by exists block.
      * intros (addr' & Ha' & Hv & [Heq|(block' & Heq & Hb' & He & Hr)]).
        -- assert (go.strings_Split addr' "/" = [addr']) as Hs'
             by (by apply go.strings_Split_no_sep).
           rewrite <-Heq, E in Hs'. discriminate.
        -- assert (go.strings_Split (addr' +:+ "/" +:+ block') "/" = [addr'; block'])
             as Hs'.
           { apply go.strings_Split_eq. split; [done|]. split; [|done].
             by repeat constructor. }
           rewrite <-Heq, E in Hs'. injection Hs' as -> ->. done.
    + rewrite decide_True by (simpl; lia). split; [done|].
      intros (addr' & Ha' & Hv & [Heq|(block' & Heq & Hb' & _)]).
      * assert (go.strings_Split addr' "/" = [addr']) as Hs'
          by (by apply go.strings_Split_no_sep).
        rewrite <-Heq, E in Hs'. discriminate.
      * assert (go.strings_Split (addr' +:+ "/" +:+ block') "/" = [addr'; block'])
          as Hs'.
        { apply go.strings_Split_eq. split; [done|]. split; [|done].
          by repeat constructor. }
        rewrite <-Heq, E in Hs'. discriminate.
  - unfold ValidateL4MatchAttributes. cbv zeta.
    rewrite !foldl_check_None, Forall_app. tauto.
Qed.

(** X29. An L4 fault is accepted exactly when it has no terminate fault
    and its throttle, if any, has an accepted percentage, limits that
    are not negative, a throttle-after period that is an accepted
    duration, and a throttle-after byte count that is not below 0; a
    terminate fault is always rejected. *)
Theorem ValidateL4Fault_accepts (fault : L4FaultInjection.t) :
  ValidateL4Fault fault = None ↔
    L4FaultInjection.Terminate_ fault = None ∧
    ∀ throttle, L4FaultInjection.Throttle_ fault = Some throttle →
      ValidateFloatPercent (L4FaultInjection.Throttle.Percent throttle) = None ∧
      0 ≤ L4FaultInjection.Throttle.DownstreamLimitBps throttle ∧
      0 ≤ L4FaultInjection.Throttle.UpstreamLimitBps throttle ∧
      ValidateDuration (L4FaultInjection.Throttle.GetThrottleAfterPeriod throttle) = None ∧
      go.float_ltb (L4FaultInjection.Throttle.GetThrottleAfterBytes throttle)
        (go.float_of_Z 0) = false.
Proof.
  assert (∀ throttle, ValidateThrottle throttle = None ↔
            ValidateFloatPercent (L4FaultInjection.Throttle.Percent throttle) = None ∧
            0 ≤ L4FaultInjection.Throttle.DownstreamLimitBps throttle ∧
            0 ≤ L4FaultInjection.Throttle.UpstreamLimitBps throttle ∧
            ValidateDuration (L4FaultInjection.Throttle.GetThrottleAfterPeriod throttle)
              = None ∧
            go.float_ltb (L4FaultInjection.Throttle.GetThrottleAfterBytes throttle)
              (go.float_of_Z 0) = false) as Hthrottle.
  { intros throttle. unfold ValidateThrottle. cbv zeta.
    rewrite if_Append_None, !if_decide_Append_None, check_prefixed_None. split.
    - intros (((((_ & ?) & ?) & ?) & Hd) & ?). split_and!; try done; try lia.
      by apply dec_stable.
    - intros (? & ? & ? & Hd & ?). split_and!; try done; try lia.
      rewrite Hd. by intros ?. }
  unfold ValidateL4Fault. cbv zeta.
  destruct (L4FaultInjection.Terminate_ fault) as [terminate|].
  - destruct (L4FaultInjection.Throttle_ fault) as [throttle|].
    + rewrite check_None. split; [by intros [? _]|by intros [? _]].
    + split; [done|by intros [? _]].
  - destruct (L4FaultInjection.Throttle_ fault) as [throttle|].
    + rewrite check_None, Hthrottle. naive_solver.
    + naive_solver.
Qed.

(** **** Every violation of a routing rule

    What is wrong with a routing rule, said on the rule itself: the
    messages that have a reason to be in the combined error, field by
    field and part by part. A domain name, a duration and a subnet count
    for the first thing that is wrong with them. *)

(** The message [multierror.Prefix] makes of [msg]. *)
Definition prefixed (prefix msg : string) : string := prefix +:+ " " +:+ msg.

Definition domain_violation (fqdn msg : string) : Prop :=
  (string_len fqdn > 255 ∧
     msg = "domain name " +:+ strconv_Quote fqdn +:+ " too long (max 255)") ∨
  (string_len fqdn = 0 ∧ msg = "empty domain name not allowed") ∨
  (0 < string_len fqdn ≤ 255 ∧
     ∃ before label after,
       go.strings_Split fqdn "." = before ++ label :: after ∧
       Forall (λ l, IsDNS1123Label l = true) before ∧
       IsDNS1123Label label = false ∧
       msg = "domain name " +:+ strconv_Quote fqdn +:+ " invalid (label "
             +:+ strconv_Quote label +:+ " invalid)").

Definition tags_violation (t : gmap string string) (msg : string) : Prop :=
  ∃ k v, t !! k = Some v ∧
    ((tagRegexp_MatchString k = false ∧ msg = "invalid tag key: " +:+ strconv_Quote k) ∨
     (tagRegexp_MatchString v = false ∧ msg = "invalid tag value: " +:+ strconv_Quote v)).

Definition cidr_violation (cidr msg : string) : Prop :=
  ((strconv_Atoi cidr).2 ≠ None ∨ (strconv_Atoi cidr).1 ≤ 0 ∨ (strconv_Atoi cidr).1 > 32) ∧
  msg = "/" +:+ cidr +:+ " is not a valid CIDR block".

Definition address_violation (addr msg : string) : Prop :=
  (length (go.strings_Split addr ".") ≠ 4%nat ∨
   ∃ octet, octet ∈ go.strings_Split addr "." ∧
     ((strconv_Atoi octet).2 ≠ None ∨ (strconv_Atoi octet).1 < 0
      ∨ (strconv_Atoi octet).1 > 255)) ∧
  msg = strconv_Quote addr +:+ " is not a valid IP address".

Definition subnet_violation (subnet msg : string) : Prop :=
  ((2 < length (go.strings_Split subnet "/"))%nat ∧
     msg = strconv_Quote subnet +:+ " is not valid CIDR notation") ∨
  ((length (go.strings_Split subnet "/") ≤ 2)%nat ∧
     ((∃ addr block, go.strings_Split subnet "/" = [addr; block]
                     ∧ cidr_violation block msg) ∨
      address_violation (default EmptyString (head (go.strings_Split subnet "/"))) msg)).

Definition l4_match_violation (ma : L4MatchAttributes.t) (msg : string) : Prop :=
  ∃ subnet,
    (subnet ∈ L4MatchAttributes.SourceSubnet ma
     ∨ subnet ∈ L4MatchAttributes.DestinationSubnet ma) ∧
    subnet_violation subnet msg.

Definition header_violation (name : string) (value : StringMatch.t) (msg : string) : Prop :=
  (strings_ToLower name ≠ name ∧
     msg = prefixed ("header name " +:+ strconv_Quote name +:+ " invalid: ")
             "must be in lower case") ∨
  (StringMatch.MatchType value = None ∧
     msg = prefixed ("header " +:+ strconv_Quote name +:+ " value invalid: ")
             ("unrecognized string match " +:+ fmt_StringMatch value)) ∨
  (name = HeaderURI ∧
     ((StringMatch.MatchType value = Some (StringMatch.Exact EmptyString) ∧
         msg = "exact header value for " +:+ strconv_Quote HeaderURI
               +:+ " must be non-empty") ∨
      (StringMatch.MatchType value = Some (StringMatch.Prefix EmptyString) ∧
         msg = "prefix header value for " +:+ strconv_Quote HeaderURI
               +:+ " must be non-empty") ∨
      (StringMatch.MatchType value = Some (StringMatch.Regex EmptyString) ∧
         msg = "regex header value for " +:+ strconv_Quote HeaderURI
               +:+ " must be non-empty"))).

Definition match_violation (mc : MatchCondition.t) (msg : string) : Prop :=
  (MatchCondition.Source mc ≠ EmptyString
     ∧ domain_violation (MatchCondition.Source mc) msg) ∨
  tags_violation (MatchCondition.SourceTags mc) msg ∨
  (∃ tcp, MatchCondition.Tcp mc = Some tcp ∧ l4_match_violation tcp msg) ∨
  (∃ udp, MatchCondition.Udp mc = Some udp ∧
     (l4_match_violation udp msg ∨ msg = "Istio does not support UDP protocol yet")) ∨
  (∃ name value, MatchCondition.HttpHeaders mc !! name = Some value
                 ∧ header_violation name value msg).

Definition percent_violation (val : Z) (msg : string) : Prop :=
  (val < 0 ∨ val > 100) ∧ msg = "must be in range 0..100".

Definition float_percent_violation (val : go.float) (msg : string) : Prop :=
  (go.float_ltb val (go.float_of_Z 0) = true
   ∨ go.float_ltb (go.float_of_Z 100) val = true) ∧
  msg = "must be in range 0..100".

Definition weight_violation (dw : DestinationWeight.t) (msg : string) : Prop :=
  (DestinationWeight.Destination dw ≠ EmptyString
     ∧ domain_violation (DestinationWeight.Destination dw) msg) ∨
  tags_violation (DestinationWeight.Tags dw) msg ∨
  (∃ m, percent_violation (DestinationWeight.Weight dw) m
        ∧ msg = prefixed "weight invalid: " m).

Definition weights_violation (routes : list DestinationWeight.t) (msg : string) : Prop :=
  ¬ (length routes = 1%nat ∧ sum_weights routes = 0) ∧
  sum_weights routes ≠ 100 ∧
  msg = "Route weights total " +:+ go.fmt_int (sum_weights routes) +:+ " (must total 100)".

(** A duration that [ValidateDuration] turns down, and the message it is
    turned down with: what [ptypes.Duration] has against it, or else that
    it is below a millisecond, or else that it is no whole number of
    milliseconds. *)
Definition duration_invalid (pd : option Duration.t) : Prop :=
  (ptypes_Duration pd).2 ≠ None ∨
  (ptypes_Duration pd).1 < 1 * time_Millisecond ∨
  Z.rem (ptypes_Duration pd).1 time_Millisecond ≠ 0.

Definition duration_violation (pd : option Duration.t) (msg : string) : Prop :=
  msg ∈ leaves (ptypes_Duration pd).2 ∨
  ((ptypes_Duration pd).2 = None ∧ (ptypes_Duration pd).1 < 1 * time_Millisecond ∧
     msg = "duration must be greater than 1ms") ∨
  ((ptypes_Duration pd).2 = None ∧ 1 * time_Millisecond ≤ (ptypes_Duration pd).1 ∧
     Z.rem (ptypes_Duration pd).1 time_Millisecond ≠ 0 ∧
     msg = "Istio only supports durations to ms precision").

Definition timeout_violation (timeout : HTTPTimeout.t) (msg : string) : Prop :=
  ∃ simple m,
    HTTPTimeout.TimeoutPolicy timeout = Some (HTTPTimeout.SimpleTimeout simple) ∧
    duration_violation (HTTPTimeout.Timeout simple) m ∧
    msg = prefixed "httpTimeout invalid: " m.

Definition retries_violation (retry : HTTPRetry.t) (msg : string) : Prop :=
  ∃ simple,
    HTTPRetry.RetryPolicy retry = Some (HTTPRetry.SimpleRetry simple) ∧
    ((HTTPRetry.Attempts simple < 0 ∧ msg = "attempts must be in range [0..]") ∨
     (∃ m, duration_violation (HTTPRetry.PerTryTimeout simple) m
           ∧ msg = prefixed "perTryTimeout invalid: " m)).

Definition delay_violation (delay : HTTPFaultInjection.Delay.t) (msg : string) : Prop :=
  (∃ m, float_percent_violation (HTTPFaultInjection.Delay.Percent delay) m
        ∧ msg = prefixed "percent invalid: " m) ∨
  (∃ m, duration_violation (HTTPFaultInjection.Delay.GetFixedDelay delay) m
        ∧ msg = prefixed "fixedDelay invalid:" m) ∨
  (∃ d, HTTPFaultInjection.Delay.GetExponentialDelay delay = Some d ∧
     ((∃ m, duration_violation (Some d) m ∧ msg = prefixed "exponentialDelay invalid: " m)
      ∨ msg = "Istio does not support exponentialDelay yet")).

Definition abort_violation (abort : HTTPFaultInjection.Abort.t) (msg : string) : Prop :=
  (∃ m, float_percent_violation (HTTPFaultInjection.Abort.Percent abort) m
        ∧ msg = prefixed "percent invalid: " m) ∨
  (∃ s, HTTPFaultInjection.Abort.ErrorType abort
        = Some (HTTPFaultInjection.Abort.GrpcStatus s) ∧
     msg = "Istio does not support gRPC fault injection yet") ∨
  (∃ code, HTTPFaultInjection.Abort.ErrorType abort
           = Some (HTTPFaultInjection.Abort.HttpStatus code) ∧
     (code < 0 ∨ code > 600) ∧
     msg = "invalid abort http status " +:+ go.fmt_int code).

Definition http_fault_violation (fault : HTTPFaultInjection.t) (msg : string) : Prop :=
  (∃ delay, HTTPFaultInjection.Delay_ fault = Some delay ∧ delay_violation delay msg) ∨
  (∃ abort, HTTPFaultInjection.Abort_ fault = Some abort ∧ abort_violation abort msg).

Definition terminate_violation (terminate : L4FaultInjection.Terminate.t)
    (msg : string) : Prop :=
  ∃ m, float_percent_violation (L4FaultInjection.Terminate.Percent terminate) m
       ∧ msg = prefixed "terminate percent invalid: " m.

Definition throttle_violation (throttle : L4FaultInjection.Throttle.t)
    (msg : string) : Prop :=
  (∃ m, float_percent_violation (L4FaultInjection.Throttle.Percent throttle) m
        ∧ msg = prefixed "throttle percent invalid: " m) ∨
  (L4FaultInjection.Throttle.DownstreamLimitBps throttle < 0
     ∧ msg = "downstreamLimitBps invalid") ∨
  (L4FaultInjection.Throttle.UpstreamLimitBps throttle < 0
     ∧ msg = "upstreamLimitBps invalid") ∨
  (duration_invalid (L4FaultInjection.Throttle.GetThrottleAfterPeriod throttle)
     ∧ msg = "throttleAfterPeriod invalid") ∨
  (go.float_ltb (L4FaultInjection.Throttle.GetThrottleAfterBytes throttle)
     (go.float_of_Z 0) = true
     ∧ msg = "throttleAfterBytes invalid").

Definition l4_fault_violation (fault : L4FaultInjection.t) (msg : string) : Prop :=
  (∃ terminate, L4FaultInjection.Terminate_ fault = Some terminate ∧
     (terminate_violation terminate msg
      ∨ msg = "Istio does not support the terminate fault yet")) ∨
  (∃ throttle, L4FaultInjection.Throttle_ fault = Some throttle
               ∧ throttle_violation throttle msg).

Definition route_rule_violation (value : RouteRule.t) (msg : string) : Prop :=
  (RouteRule.Name value = EmptyString ∧ msg = "route rule must have a name") ∨
  (IsDNS1123Label (RouteRule.Name value) = false
     ∧ msg = "route rule name must be a host name label") ∨
  (RouteRule.Destination value = EmptyString
     ∧ msg = "route rule must have a destination service") ∨
  domain_violation (RouteRule.Destination value) msg ∨
  (∃ mc, RouteRule.Match value = Some mc ∧ match_violation mc msg) ∨
  (∃ rewrite_, RouteRule.Rewrite value = Some rewrite_ ∧
     HTTPRewrite.Uri rewrite_ = EmptyString ∧ HTTPRewrite.Authority rewrite_ = EmptyString ∧
     msg = "rewrite must specify path, host, or both") ∨
  (∃ redirect, RouteRule.Redirect value = Some redirect ∧
     (((0 < length (default [] (RouteRule.Route value)))%nat
         ∧ msg = "rule cannot contain both route and redirect") ∨
      (RouteRule.HttpFault value ≠ None
         ∧ msg = "rule cannot contain both fault and redirect") ∨
      (HTTPRedirect.Authority redirect = EmptyString
         ∧ HTTPRedirect.Uri redirect = EmptyString
         ∧ msg = "redirect must specify path, host, or both"))) ∨
  (RouteRule.Redirect value ≠ None ∧ RouteRule.Rewrite value ≠ None
     ∧ msg = "rule cannot contain both rewrite and redirect") ∨
  (∃ route, RouteRule.Route value = Some route ∧
     ((∃ destWeight, destWeight ∈ route ∧ weight_violation destWeight msg) ∨
      weights_violation route msg)) ∨
  (∃ timeout, RouteRule.HttpReqTimeout value = Some timeout
              ∧ timeout_violation timeout msg) ∨
  (∃ retries, RouteRule.HttpReqRetries value = Some retries
              ∧ retries_violation retries msg) ∨
  (∃ fault, RouteRule.HttpFault value = Some fault ∧ http_fault_violation fault msg) ∨
  (∃ fault, RouteRule.L4Fault value = Some fault ∧
     (l4_fault_violation fault msg ∨ msg = "L4 faults are not implemented")).

(** The errors of a guarded append, of a delegated check and of a loop,
    one by one. *)

Lemma elem_of_leaves_None (msg : string) : msg ∈ leaves None ↔ False.
Proof. simpl. apply elem_of_nil. Qed.

Lemma elem_of_leaves_Errorf (msg' msg : string) : msg ∈ leaves (Errorf msg') ↔ msg = msg'.
Proof. simpl. apply list_elem_of_singleton. Qed.

Lemma elem_of_leaves_Append errs e (msg : string) :
  msg ∈ leaves (multierror_Append errs e) ↔ msg ∈ leaves errs ∨ msg ∈ leaves e.
Proof. by rewrite leaves_Append, elem_of_app. Qed.

Lemma elem_of_leaves_if_Append (cond : bool) errs e (msg : string) :
  msg ∈ leaves (if cond then multierror_Append errs e else errs)
  ↔ msg ∈ leaves errs ∨ (cond = true ∧ msg ∈ leaves e).
Proof. destruct cond; rewrite ?elem_of_leaves_Append; naive_solver. Qed.

Lemma elem_of_leaves_if_decide_Append (P : Prop) `{Decision P} errs e (msg : string) :
  msg ∈ leaves (if decide P then multierror_Append errs e else errs)
  ↔ msg ∈ leaves errs ∨ (P ∧ msg ∈ leaves e).
Proof. case_decide; rewrite ?elem_of_leaves_Append; naive_solver. Qed.

Lemma elem_of_leaves_check errs e (msg : string) :
  msg ∈ leaves (check errs e) ↔ msg ∈ leaves errs ∨ msg ∈ leaves e.
Proof. by rewrite leaves_check, elem_of_app. Qed.

Lemma elem_of_leaves_check_prefixed errs e prefix (msg : string) :
  msg ∈ leaves (check_prefixed errs e prefix)
  ↔ msg ∈ leaves errs ∨ ∃ m, m ∈ leaves e ∧ msg = prefixed prefix m.
Proof.
  rewrite leaves_check_prefixed, elem_of_app.
  assert (msg ∈ leaves (multierror_Prefix e prefix)
          ↔ ∃ m, m ∈ leaves e ∧ msg = prefixed prefix m) as ->; [|done].
  unfold prefixed. destruct e as [[m'|errs']|]; simpl.
  - rewrite list_elem_of_singleton. split; [intros ->; exists m'; split; [by left|done]|].
    by intros (m & ->%list_elem_of_singleton & ->).
  - rewrite list_elem_of_fmap. naive_solver.
  - rewrite elem_of_nil. split; [done|]. by intros (m & ?%elem_of_nil & _).
Qed.

Lemma elem_of_leaves_foldl {A} (F : error → A → error) (P : A → string → Prop)
    (l : list A) errs (msg : string) :
  (∀ errs x m, m ∈ leaves (F errs x) ↔ m ∈ leaves errs ∨ P x m) →
  msg ∈ leaves (foldl F errs l) ↔ msg ∈ leaves errs ∨ ∃ x, x ∈ l ∧ P x msg.
Proof.
  intros HF. revert errs. induction l as [|x l IH]; intros errs; simpl.
  - split; [by left|]. intros [?|(x & ?%elem_of_nil & _)]; done.
  - rewrite IH, HF. set_unfold. naive_solver.
Qed.

Lemma elem_of_leaves_first_error {A} (f : A → error) (l : list A) (msg : string) :
  msg ∈ leaves (first_error f l)
  ↔ ∃ before x after,
      l = before ++ x :: after ∧ Forall (λ y, f y = None) before ∧ msg ∈ leaves (f x).
Proof.
  induction l as [|x l IH]; simpl.
  - rewrite elem_of_nil. split; [done|].
    intros (before & y & after & E & _). by destruct before.
  - case_decide as Hx.
    + split.
      * intros Hm. by exists [], x, l.
      * intros (before & y & after & E & Hb & Hm).
        destruct before as [|b before]; simplify_eq/=; [done|].
        by apply Forall_cons in Hb as [? _].
    + rewrite IH. split.
      * intros (before & y & after & -> & Hb & Hm).
        exists (x :: before), y, after. split; [done|]. split; [by constructor|done].
      * intros (before & y & after & E & Hb & Hm).
        destruct before as [|b before]; simplify_eq/=.
        -- rewrite Hx in Hm. by apply elem_of_nil in Hm.
        -- apply Forall_cons in Hb as [_ Hb]. by exists before, y, after.
Qed.

(** What each validator reports is what is wrong with its argument. *)

Lemma ValidateFQDN_reports fqdn msg :
  msg ∈ leaves (ValidateFQDN fqdn) ↔ domain_violation fqdn msg.
Proof.
  unfold ValidateFQDN, domain_violation.
  case_decide as Hlong; [rewrite elem_of_leaves_Errorf; naive_solver lia|].
  case_decide as Hempty; [rewrite elem_of_leaves_Errorf; naive_solver lia|].
  assert (0 ≤ string_len fqdn) by (unfold string_len; lia).
  rewrite elem_of_leaves_first_error. split.
  - intros (before & label & after & E & Hb & Hm).
    right. right. split; [lia|]. exists before, label, after.
    destruct (IsDNS1123Label label) eqn:El; simpl in Hm; [by apply elem_of_nil in Hm|].
    apply list_elem_of_singleton in Hm. split_and!; try done.
    eapply Forall_impl; [exact Hb|]. intros l Hl. simpl in Hl.
    by destruct (IsDNS1123Label l).
  - intros [[? _]|[[? _]|[_ (before & label & after & E & Hb & El & ->)]]]; [lia..|].
    exists before, label, after. split_and!; [done| |].
    + eapply Forall_impl; [exact Hb|]. intros l Hl. simpl. by rewrite Hl.
    + rewrite El. simpl. by left.
Qed.

Lemma Tags_Validate_reports t msg :
  msg ∈ leaves (Tags_Validate t) ↔ tags_violation t msg.
Proof.
  unfold Tags_Validate, tags_violation.
  rewrite (elem_of_leaves_foldl _
             (λ kv m,
                (tagRegexp_MatchString kv.1 = false
                   ∧ m = "invalid tag key: " +:+ strconv_Quote kv.1) ∨
                (tagRegexp_MatchString kv.2 = false
                   ∧ m = "invalid tag value: " +:+ strconv_Quote kv.2))).
  - rewrite elem_of_leaves_None. split.
    + intros [[]|([k v] & Hkv%elem_of_map_to_list & Hm)]. by exists k, v.
    + intros (k & v & Hkv & Hm). right. exists (k, v).
      split; [by apply elem_of_map_to_list|done].
  - intros errs kv m. cbv zeta.
    rewrite !elem_of_leaves_if_Append, !elem_of_leaves_Errorf, !negb_true_iff. tauto.
Qed.

Lemma ValidateCIDRBlock_reports cidr msg :
  msg ∈ leaves (ValidateCIDRBlock cidr) ↔ cidr_violation cidr msg.
Proof.
  unfold ValidateCIDRBlock, cidr_violation.
  destruct (strconv_Atoi cidr) as [bits err]. simpl.
  case_decide; [rewrite elem_of_leaves_Errorf|rewrite elem_of_leaves_None]; tauto.
Qed.

Lemma ValidateIPv4Address_reports addr msg :
  msg ∈ leaves (ValidateIPv4Address addr) ↔ address_violation addr msg.
Proof.
  unfold ValidateIPv4Address, address_violation. cbv zeta.
  case_decide as Hlen; [rewrite elem_of_leaves_Errorf; tauto|].
  rewrite elem_of_leaves_first_error. split.
  - intros (before & octet & after & E & _ & Hm).
    destruct (strconv_Atoi octet) as [n err] eqn:Eo.
    case_decide as Hbad; [|by apply elem_of_nil in Hm].
    apply elem_of_leaves_Errorf in Hm. split; [|done]. right. exists octet.
    rewrite E, Eo. split; [|done]. rewrite elem_of_app. right. by left.
  - intros [[?|(octet & Hin & Hbad)] ->]; [done|].
    assert (∃ before x after,
              go.strings_Split addr "." = before ++ x :: after ∧
              Forall (λ o, ¬ ((strconv_Atoi o).2 ≠ None ∨ (strconv_Atoi o).1 < 0
                              ∨ (strconv_Atoi o).1 > 255)) before ∧
              ((strconv_Atoi x).2 ≠ None ∨ (strconv_Atoi x).1 < 0
               ∨ (strconv_Atoi x).1 > 255)) as (before & x & after & E & Hb & Hx).
    { clear Hlen. induction (go.strings_Split addr ".") as [|o l IH];
        [by apply elem_of_nil in Hin|].
      destruct (decide ((strconv_Atoi o).2 ≠ None ∨ (strconv_Atoi o).1 < 0
                        ∨ (strconv_Atoi o).1 > 255)) as [Ho|Ho].
      - by exists [], o, l.
      - apply elem_of_cons in Hin as [->|Hin]; [done|].
        destruct (IH Hin) as (before & x & after & -> & Hb & Hx).
        exists (o :: before), x, after. split; [done|]. split; [by constructor|done]. }
    exists before, x, after. split; [done|]. split.
    + eapply Forall_impl; [exact Hb|]. intros o Ho. simpl in *.
      destruct (strconv_Atoi o) as [n err]. simpl in Ho. by rewrite decide_False.
    + destruct (strconv_Atoi x) as [n err]. simpl in Hx.
      rewrite decide_True by done. by apply elem_of_leaves_Errorf.
Qed.

Lemma ValidateIPv4Subnet_reports subnet msg :
  msg ∈ leaves (ValidateIPv4Subnet subnet) ↔ subnet_violation subnet msg.
Proof.
  unfold ValidateIPv4Subnet, subnet_violation. cbv zeta.
  case_decide as Hlen; [rewrite elem_of_leaves_Errorf; naive_solver lia|].
  rewrite elem_of_leaves_check, <-ValidateIPv4Address_reports.
  destruct (go.strings_Split subnet "/") as [|addr [|block [|x parts]]] eqn:E;
    simpl in Hlen; try lia; cbn [head default length];
    rewrite ?elem_of_leaves_check, ?elem_of_leaves_None;
    split.
  - intros [[]|?]. right. split; [lia|]. by right.
  - intros [[? _]|[_ [(? & ? & ? & _)|?]]]; [lia|done|by right].
  - intros [[]|?]. right. split; [lia|]. by right.
  - intros [[? _]|[_ [(? & ? & ? & _)|?]]]; [lia|done|by right].
  - intros [[[]|?]|?]; right; (split; [lia|]); [left|by right].
    exists addr, block. split; [done|]. by apply ValidateCIDRBlock_reports.
  - intros [[? _]|[_ [(? & ? & [= <- <-] & ?%ValidateCIDRBlock_reports)|?]]];
      [lia|left; by right|by right].
Qed.

Lemma ValidateL4MatchAttributes_reports ma msg :
  msg ∈ leaves (ValidateL4MatchAttributes ma) ↔ l4_match_violation ma msg.
Proof.
  unfold ValidateL4MatchAttributes, l4_match_violation, ValidateSubnet. cbv zeta.
  rewrite (elem_of_leaves_foldl _ subnet_violation)
    by (intros; by rewrite elem_of_leaves_check, ValidateIPv4Subnet_reports).
  rewrite (elem_of_leaves_foldl _ subnet_violation)
    by (intros; by rewrite elem_of_leaves_check, ValidateIPv4Subnet_reports).
  rewrite elem_of_leaves_None. naive_solver.
Qed.

Lemma header_reports errs name value m :
  m ∈ leaves
        (let errs :=
           check_prefixed errs (ValidateHTTPHeaderName name)
             ("header name " +:+ strconv_Quote name +:+ " invalid: ") in
         let errs :=
           check_prefixed errs (ValidateStringMatch value)
             ("header " +:+ strconv_Quote name +:+ " value invalid: ") in
         if decide (name = HeaderURI) then
           match StringMatch.MatchType value with
           | Some (StringMatch.Exact EmptyString) =>
               multierror_Append errs
                 (Errorf ("exact header value for " +:+ strconv_Quote HeaderURI
                          +:+ " must be non-empty"))
           | Some (StringMatch.Prefix EmptyString) =>
               multierror_Append errs
                 (Errorf ("prefix header value for " +:+ strconv_Quote HeaderURI
                          +:+ " must be non-empty"))
           | Some (StringMatch.Regex EmptyString) =>
               multierror_Append errs
                 (Errorf ("regex header value for " +:+ strconv_Quote HeaderURI
                          +:+ " must be non-empty"))
           | _ => errs
           end
         else errs)
  ↔ m ∈ leaves errs ∨ header_violation name value m.
Proof.
  cbv zeta. unfold header_violation, ValidateHTTPHeaderName, ValidateStringMatch.
  do 2 case_decide;
    destruct (StringMatch.MatchType value) as [[[|]|[|]|[|]]|];
    rewrite ?elem_of_leaves_Append, ?elem_of_leaves_check_prefixed, ?elem_of_leaves_Errorf;
    simpl; set_unfold; naive_solver.
Qed.

Lemma exists_map_to_list {V} (m : gmap string V) (P : string → V → Prop) :
  (∃ kv, kv ∈ map_to_list m ∧ P kv.1 kv.2) ↔ ∃ k v, m !! k = Some v ∧ P k v.
Proof.
  split.
  - intros ([k v] & Hkv%elem_of_map_to_list & HP). by exists k, v.
  - intros (k & v & Hkv & HP). exists (k, v). split; [by apply elem_of_map_to_list|done].
Qed.

Ltac reports :=
  repeat first
    [ rewrite elem_of_leaves_Append
    | rewrite elem_of_leaves_check
    | rewrite elem_of_leaves_check_prefixed
    | rewrite elem_of_leaves_if_Append
    | rewrite elem_of_leaves_if_decide_Append
    | rewrite elem_of_leaves_Errorf
    | rewrite elem_of_leaves_None ].

Lemma ValidateMatchCondition_reports mc msg :
  msg ∈ leaves (ValidateMatchCondition mc) ↔ match_violation mc msg.
Proof.
  unfold ValidateMatchCondition, match_violation. cbv zeta.
  rewrite (elem_of_leaves_foldl _ (λ nv m, header_violation nv.1 nv.2 m))
    by (intros errs [name value] m; apply header_reports).
  rewrite (exists_map_to_list _ (λ name value, header_violation name value msg)).
  destruct (MatchCondition.Tcp mc) as [tcp|], (MatchCondition.Udp mc) as [udp|];
    case_decide; reports;
    rewrite ?ValidateFQDN_reports, ?Tags_Validate_reports,
      ?ValidateL4MatchAttributes_reports;
    naive_solver.
Qed.

Lemma ValidatePercent_reports val msg :
  msg ∈ leaves (ValidatePercent val) ↔ percent_violation val msg.
Proof.
  unfold ValidatePercent, percent_violation. case_decide; reports; tauto.
Qed.

Lemma ValidateFloatPercent_reports val msg :
  msg ∈ leaves (ValidateFloatPercent val) ↔ float_percent_violation val msg.
Proof.
  unfold ValidateFloatPercent, float_percent_violation.
  destruct (go.float_ltb val (go.float_of_Z 0)),
    (go.float_ltb (go.float_of_Z 100) val); cbn [orb]; reports;
    intuition (auto; congruence).
Qed.

Lemma prefixed_reports {A} (V : A → error) (violation : A → string → Prop) x prefix msg :
  (∀ m, m ∈ leaves (V x) ↔ violation x m) →
  (∃ m, m ∈ leaves (V x) ∧ msg = prefixed prefix m)
  ↔ ∃ m, violation x m ∧ msg = prefixed prefix m.
Proof. intros HV. by setoid_rewrite HV. Qed.

Lemma ValidateDestinationWeight_reports dw msg :
  msg ∈ leaves (ValidateDestinationWeight dw) ↔ weight_violation dw msg.
Proof.
  unfold ValidateDestinationWeight, weight_violation. cbv zeta.
  case_decide; reports;
    rewrite ?ValidateFQDN_reports, ?Tags_Validate_reports,
      (prefixed_reports ValidatePercent percent_violation)
      by apply ValidatePercent_reports;
    naive_solver.
Qed.

Lemma ValidateWeights_reports routes defaultDestination msg :
  msg ∈ leaves (ValidateWeights routes defaultDestination) ↔ weights_violation routes msg.
Proof.
  unfold ValidateWeights, weights_violation. cbv zeta.
  repeat case_decide; reports; naive_solver.
Qed.

Lemma ValidateDuration_reports pd msg :
  msg ∈ leaves (ValidateDuration pd) ↔ duration_violation pd msg.
Proof.
  unfold ValidateDuration, duration_violation.
  destruct (ptypes_Duration pd) as [dur err]. simpl.
  case_decide as Herr.
  - split; [by left|]. intros [?|[[? _]|[? _]]]; done.
  - subst err.
    repeat case_decide; reports; naive_solver lia.
Qed.

Lemma ValidateDuration_invalid pd :
  ValidateDuration pd ≠ None ↔ duration_invalid pd.
Proof.
  unfold ValidateDuration, duration_invalid.
  destruct (ptypes_Duration pd) as [dur err]. simpl.
  case_decide as Herr; [tauto|]. subst err.
  repeat case_decide; unfold Errorf; naive_solver lia.
Qed.

Lemma ValidateHTTPTimeout_reports timeout msg :
  msg ∈ leaves (ValidateHTTPTimeout timeout) ↔ timeout_violation timeout msg.
Proof.
  unfold ValidateHTTPTimeout, timeout_violation, HTTPTimeout.GetSimpleTimeout. cbv zeta.
  destruct (HTTPTimeout.TimeoutPolicy timeout) as [[simple|s]|]; reports;
    try setoid_rewrite ValidateDuration_reports; naive_solver.
Qed.

Lemma ValidateHTTPRetries_reports retry msg :
  msg ∈ leaves (ValidateHTTPRetries retry) ↔ retries_violation retry msg.
Proof.
  unfold ValidateHTTPRetries, retries_violation, HTTPRetry.GetSimpleRetry. cbv zeta.
  destruct (HTTPRetry.RetryPolicy retry) as [[simple|s]|]; reports;
    try setoid_rewrite ValidateDuration_reports; naive_solver.
Qed.

Lemma ValidateDelay_reports delay msg :
  msg ∈ leaves (ValidateDelay delay) ↔ delay_violation delay msg.
Proof.
  unfold ValidateDelay, delay_violation. cbv zeta.
  destruct (HTTPFaultInjection.Delay.GetExponentialDelay delay) as [d|]; reports;
    setoid_rewrite ValidateDuration_reports;
    setoid_rewrite ValidateFloatPercent_reports; naive_solver.
Qed.

Lemma ValidateAbort_reports abort msg :
  msg ∈ leaves (ValidateAbort abort) ↔ abort_violation abort msg.
Proof.
  unfold ValidateAbort, abort_violation, ValidateAbortHTTPStatus. cbv zeta.
  destruct (HTTPFaultInjection.Abort.ErrorType abort) as [[s|s|code]|]; reports;
    setoid_rewrite ValidateFloatPercent_reports; naive_solver.
Qed.

Lemma ValidateHTTPFault_reports fault msg :
  msg ∈ leaves (ValidateHTTPFault fault) ↔ http_fault_violation fault msg.
Proof.
  unfold ValidateHTTPFault, http_fault_violation. cbv zeta.
  destruct (HTTPFaultInjection.Delay_ fault) as [delay|],
    (HTTPFaultInjection.Abort_ fault) as [abort|]; reports;
    rewrite ?ValidateDelay_reports, ?ValidateAbort_reports; naive_solver.
Qed.

Lemma ValidateTerminate_reports terminate msg :
  msg ∈ leaves (ValidateTerminate terminate) ↔ terminate_violation terminate msg.
Proof.
  unfold ValidateTerminate, terminate_violation. reports.
  setoid_rewrite ValidateFloatPercent_reports. naive_solver.
Qed.

Lemma ValidateThrottle_reports throttle msg :
  msg ∈ leaves (ValidateThrottle throttle) ↔ throttle_violation throttle msg.
Proof.
  unfold ValidateThrottle, throttle_violation. cbv zeta. reports.
  setoid_rewrite ValidateFloatPercent_reports.
  rewrite ValidateDuration_invalid. naive_solver.
Qed.

Lemma ValidateL4Fault_reports fault msg :
  msg ∈ leaves (ValidateL4Fault fault) ↔ l4_fault_violation fault msg.
Proof.
  unfold ValidateL4Fault, l4_fault_violation. cbv zeta.
  destruct (L4FaultInjection.Terminate_ fault) as [terminate|],
    (L4FaultInjection.Throttle_ fault) as [throttle|]; reports;
    rewrite ?ValidateTerminate_reports, ?ValidateThrottle_reports; naive_solver.
Qed.

(** [ValidateRouteRule] reports a message exactly when the message says
    what is wrong with the rule. *)
Lemma ValidateRouteRule_reports (value : RouteRule.t) (msg : string) :
  msg ∈ leaves (ValidateRouteRule (Message_RouteRule value))
  ↔ route_rule_violation value msg.
Proof.
  rewrite ValidateRouteRule_leaves, !elem_of_app. unfold route_rule_violation.
  assert (msg ∈ leaves (check_name value None)
          ↔ RouteRule.Name value = EmptyString ∧ msg = "route rule must have a name")
    as -> by (unfold check_name; reports; tauto).
  assert (msg ∈ leaves (check_name_label value None)
          ↔ IsDNS1123Label (RouteRule.Name value) = false
            ∧ msg = "route rule name must be a host name label")
    as -> by (unfold check_name_label; reports; rewrite negb_true_iff; tauto).
  assert (msg ∈ leaves (check_destination value None)
          ↔ RouteRule.Destination value = EmptyString
            ∧ msg = "route rule must have a destination service")
    as -> by (unfold check_destination; reports; tauto).
  assert (msg ∈ leaves (check_destination_fqdn value None)
          ↔ domain_violation (RouteRule.Destination value) msg)
    as -> by (unfold check_destination_fqdn; reports; rewrite ValidateFQDN_reports; tauto).
  assert (msg ∈ leaves (check_match value None)
          ↔ ∃ mc, RouteRule.Match value = Some mc ∧ match_violation mc msg) as ->.
  { unfold check_match. destruct (RouteRule.Match value); reports;
      rewrite ?ValidateMatchCondition_reports; naive_solver. }
  assert (msg ∈ leaves (check_rewrite value None)
          ↔ ∃ rewrite_, RouteRule.Rewrite value = Some rewrite_ ∧
              HTTPRewrite.Uri rewrite_ = EmptyString ∧
              HTTPRewrite.Authority rewrite_ = EmptyString ∧
              msg = "rewrite must specify path, host, or both") as ->.
  { unfold check_rewrite. destruct (RouteRule.Rewrite value); reports; naive_solver. }
  assert (msg ∈ leaves (check_redirect value None)
          ↔ ∃ redirect, RouteRule.Redirect value = Some redirect ∧
              (((0 < length (default [] (RouteRule.Route value)))%nat
                  ∧ msg = "rule cannot contain both route and redirect") ∨
               (RouteRule.HttpFault value ≠ None
                  ∧ msg = "rule cannot contain both fault and redirect") ∨
               (HTTPRedirect.Authority redirect = EmptyString
                  ∧ HTTPRedirect.Uri redirect = EmptyString
                  ∧ msg = "redirect must specify path, host, or both"))) as ->.
  { unfold check_redirect. cbv zeta.
    destruct (RouteRule.Redirect value), (RouteRule.HttpFault value); reports;
      simpl; naive_solver. }
  assert (msg ∈ leaves (check_rewrite_and_redirect value None)
          ↔ RouteRule.Redirect value ≠ None ∧ RouteRule.Rewrite value ≠ None
            ∧ msg = "rule cannot contain both rewrite and redirect") as ->.
  { unfold check_rewrite_and_redirect.
    destruct (RouteRule.Redirect value), (RouteRule.Rewrite value);
      cbn [negb is_nil andb]; reports; intuition congruence. }
  assert (msg ∈ leaves (check_route value None)
          ↔ ∃ route, RouteRule.Route value = Some route ∧
              ((∃ destWeight, destWeight ∈ route ∧ weight_violation destWeight msg) ∨
               weights_violation route msg)) as ->.
  { unfold check_route. cbv zeta. destruct (RouteRule.Route value) as [route|].
    - reports. rewrite ValidateWeights_reports.
      rewrite (elem_of_leaves_foldl _ weight_violation)
        by (intros; by rewrite elem_of_leaves_check, ValidateDestinationWeight_reports).
      reports. naive_solver.
    - reports. naive_solver. }
  assert (msg ∈ leaves (check_timeout value None)
          ↔ ∃ timeout, RouteRule.HttpReqTimeout value = Some timeout
                       ∧ timeout_violation timeout msg) as ->.
  { unfold check_timeout. destruct (RouteRule.HttpReqTimeout value); reports;
      rewrite ?ValidateHTTPTimeout_reports; naive_solver. }
  assert (msg ∈ leaves (check_retries value None)
          ↔ ∃ retries, RouteRule.HttpReqRetries value = Some retries
                       ∧ retries_violation retries msg) as ->.
  { unfold check_retries. destruct (RouteRule.HttpReqRetries value); reports;
      rewrite ?ValidateHTTPRetries_reports; naive_solver. }
  assert (msg ∈ leaves (check_http_fault value None)
          ↔ ∃ fault, RouteRule.HttpFault value = Some fault
                     ∧ http_fault_violation fault msg) as ->.
  { unfold check_http_fault. destruct (RouteRule.HttpFault value); reports;
      rewrite ?ValidateHTTPFault_reports; naive_solver. }
  assert (msg ∈ leaves (check_l4_fault value None)
          ↔ ∃ fault, RouteRule.L4Fault value = Some fault ∧
              (l4_fault_violation fault msg ∨ msg = "L4 faults are not implemented")) as ->.
  { unfold check_l4_fault. cbv zeta. destruct (RouteRule.L4Fault value); reports;
      rewrite ?ValidateL4Fault_reports; naive_solver. }
  done.
Qed.

(** **** Ingress rules, destination policies and the mesh configuration *)

Section mesh.
Context {LoadBalancing : Type}.

(** Of the Go library: [time.Duration.String], and [%q] of an
    authentication policy. *)
Variable time_Duration_String : Z → string.
Variable fmt_AuthPolicy : ProxyMeshConfig.AuthPolicy_ → string.

(** [time.Duration] counts nanoseconds. *)
Definition time_Second : Z := 1000 * time_Millisecond.
Definition time_Minute : Z := 60 * time_Second.
Definition time_Hour : Z := 60 * time_Minute.

Definition discoveryRefreshDelayMax : Z := time_Minute * 10.
Definition discoveryRefreshDelayMin : Z := time_Second.
Definition connectTimeoutMax : Z := time_Second * 30.
Definition connectTimeoutMin : Z := time_Millisecond.
Definition drainTimeMax : Z := time_Hour.
Definition parentShutdownTimeMax : Z := time_Hour.

(** [if cond { errs = multierror.Append(errs, e) }] *)
Definition append_if (P : Prop) `{Decision P} (errs e : error) : error :=
  if decide P then multierror_Append errs e else errs.

Definition ValidateLoadBalancing (lb : option LoadBalancing) : error := None.

Definition ValidateCircuitBreaker (cb : option CircuitBreaker.t) : error :=
  let errs := None in
  match CircuitBreaker.GetSimpleCb cb with
  | Some simple =>
      let errs :=
        append_if (CircuitBreaker.MaxConnections simple < 0) errs
          (Errorf "circuitBreak maxConnections must be in range [0..]") in
      let errs :=
        append_if (CircuitBreaker.HttpMaxPendingRequests simple < 0) errs
          (Errorf "circuitBreaker maxPendingRequests must be in range [0..]") in
      let errs :=
        append_if (CircuitBreaker.HttpMaxRequests simple < 0) errs
          (Errorf "circuitBreaker maxRequests must be in range [0..]") in
      let err := ValidateDuration (CircuitBreaker.SleepWindow simple) in
      let errs :=
        append_if (err ≠ None) errs
          (Errorf "circuitBreaker sleepWindow must be in range [0..]") in
      let errs :=
        append_if (CircuitBreaker.HttpConsecutiveErrors simple < 0) errs
          (Errorf "circuitBreaker httpConsecutiveErrors must be in range [0..]") in
      let err := ValidateDuration (CircuitBreaker.HttpDetectionInterval simple) in
      let errs :=
        append_if (err ≠ None) errs
          (Errorf "circuitBreaker httpDetectionInterval must be in range [0..]") in
      let errs :=
        append_if (CircuitBreaker.HttpMaxRequestsPerConnection simple < 0) errs
          (Errorf "circuitBreaker httpMaxRequestsPerConnection must be in range [0..]") in
      check_prefixed errs (ValidatePercent (CircuitBreaker.HttpMaxEjectionPercent simple))
        "circuitBreaker httpMaxEjectionPercent invalid: "
  | None => errs
  end.

Definition ValidateIngressRule (msg : policy_Message LoadBalancing) : error :=
  match msg with
  | Message_IngressRule value =>
      let errs := None in
      let errs :=
        append_if (IngressRule.Name value = EmptyString) errs
          (Errorf "ingress rule must have a name") in
      let errs :=
        append_if (IsDNS1123Label (IngressRule.Name value) = false) errs
          (Errorf "ingress rule name must be a host name label") in
      let errs :=
        append_if (IngressRule.Destination value = EmptyString) errs
          (Errorf "ingress rule must have a destination service") in
      check errs (ValidateFQDN (IngressRule.Destination value))
  | _ => Errorf "cannot cast to ingress rule"
  end.

(** The body of the loop of [ValidateDestinationPolicy] over the
    policies of the versions. *)
Definition ValidateDestinationPolicy_body (errs : error)
    (policy : DestinationVersionPolicy.t LoadBalancing) : error :=
  let errs := check errs (Tags_Validate (DestinationVersionPolicy.Tags policy)) in
  let errs :=
    match DestinationVersionPolicy.LoadBalancing_ policy with
    | Some lb => check errs (ValidateLoadBalancing (Some lb))
    | None => errs
    end in
  match DestinationVersionPolicy.CircuitBreaker_ policy with
  | Some cb => check errs (ValidateCircuitBreaker (Some cb))
  | None => errs
  end.

Definition ValidateDestinationPolicy (msg : policy_Message LoadBalancing) : error :=
  match msg with
  | Message_DestinationPolicy value =>
      let errs := None in
      let errs :=
        if decide (DestinationPolicy.Destination value = EmptyString) then
          multierror_Append errs
            (Errorf "destination policy should have a valid service name in its destination field")
        else check errs (ValidateFQDN (DestinationPolicy.Destination value)) in
      foldl ValidateDestinationPolicy_body errs (DestinationPolicy.Policy value)
  | _ => Errorf "cannot cast to destination policy"
  end.

Definition ValidateProxyAddress (hostAddr : string) : error :=
  let colon := go.strings_Index hostAddr ":" in
  if decide (colon < 0) then
    Errorf ("':' separator not found in " +:+ strconv_Quote hostAddr
            +:+ ", host address must be of the form <DNS name>:<port> or <IP>:<port>")
  else
    let '(port, err) := strconv_Atoi (go.slice_from hostAddr (colon + 1)) in
    if decide (err ≠ None) then err
    else
      let err := ValidatePort port in
      if decide (err ≠ None) then err
      else
        let host := go.slice_to hostAddr colon in
        if decide (ValidateFQDN host ≠ None) then
          if decide (ValidateIPv4Address host ≠ None) then
            Errorf (strconv_Quote host +:+ " is not a valid hostname or an IPv4 address")
          else None
        else None.

Definition ValidateDurationRange (dur min max : Z) : error :=
  if decide (dur > max ∨ dur < min) then
    Errorf ("time " +:+ time_Duration_String dur +:+ " must be >"
            +:+ time_Duration_String min +:+ " and <" +:+ time_Duration_String max)
  else None.

Definition ValidateParentAndDrain (drainTime parentShutdown : option Duration.t) : error :=
  let errs := None in
  let errs := check_prefixed errs (ValidateDuration drainTime) "invalid drain duration:" in
  let errs :=
    check_prefixed errs (ValidateDuration parentShutdown)
      "invalid parent shutdown duration:" in
  if decide (errs ≠ None) then errs
  else
    let drainDuration := (ptypes_Duration drainTime).1 in
    let parentShutdownDuration := (ptypes_Duration parentShutdown).1 in
    let errs :=
      append_if (Z.rem drainDuration time_Second ≠ 0) errs
        (Errorf "Istio drain time only supports durations to seconds precision") in
    let errs :=
      append_if (Z.rem parentShutdownDuration time_Second ≠ 0) errs
        (Errorf "Istio parent shutdown time only supports durations to seconds precision") in
    let errs :=
      append_if (parentShutdownDuration ≤ drainDuration) errs
        (Errorf ("Istio parent shutdown time "
                 +:+ time_Duration_String parentShutdownDuration
                 +:+ " must be greater than drain time "
                 +:+ time_Duration_String drainDuration)) in
    let errs :=
      append_if (drainDuration > drainTimeMax) errs
        (Errorf ("Istio drain time " +:+ time_Duration_String drainDuration
                 +:+ " must be <" +:+ time_Duration_String drainTimeMax)) in
    append_if (parentShutdownDuration > parentShutdownTimeMax) errs
      (Errorf ("Istio parent shutdown time "
               +:+ time_Duration_String parentShutdownDuration
               +:+ " must be <" +:+ time_Duration_String parentShutdownTimeMax)).

Definition ValidateRefreshDelay (refresh : option Duration.t) : error :=
  let err := ValidateDuration refresh in
  if decide (err ≠ None) then err
  else
    let refreshDuration := (ptypes_Duration refresh).1 in
    ValidateDurationRange refreshDuration discoveryRefreshDelayMin discoveryRefreshDelayMax.

Definition ValidateConnectTimeout (timeout : option Duration.t) : error :=
  let err := ValidateDuration timeout in
  if decide (err ≠ None) then err
  else
    let timeoutDuration := (ptypes_Duration timeout).1 in
    ValidateDurationRange timeoutDuration connectTimeoutMin connectTimeoutMax.

(** The statements of [ValidateProxyMeshConfig], in the order of the
    source. *)

Definition check_egress (mesh : ProxyMeshConfig.t) (errs : error) : error :=
  if decide (ProxyMeshConfig.EgressProxyAddress mesh ≠ EmptyString) then
    check_prefixed errs (ValidateProxyAddress (ProxyMeshConfig.EgressProxyAddress mesh))
      "invalid egress proxy address:"
  else errs.

Definition check_discovery (mesh : ProxyMeshConfig.t) (errs : error) : error :=
  if decide (ProxyMeshConfig.DiscoveryAddress mesh = EmptyString) then
    multierror_Append errs
      (Errorf "discovery address must be set to the proxy discovery service")
  else
    check_prefixed errs (ValidateProxyAddress (ProxyMeshConfig.DiscoveryAddress mesh))
      "invalid discovery address:".

Definition check_mixer (mesh : ProxyMeshConfig.t) (errs : error) : error :=
  if decide (ProxyMeshConfig.MixerAddress mesh ≠ EmptyString) then
    check_prefixed errs (ValidateProxyAddress (ProxyMeshConfig.MixerAddress mesh))
      "invalid Mixer address:"
  else errs.

Definition check_statsd (mesh : ProxyMeshConfig.t) (errs : error) : error :=
  if decide (ProxyMeshConfig.StatsdUdpAddress mesh ≠ EmptyString) then
    check_prefixed errs (ValidateProxyAddress (ProxyMeshConfig.StatsdUdpAddress mesh))
      "invalid statsd udp address:"
  else errs.

Definition check_listen_port (mesh : ProxyMeshConfig.t) (errs : error) : error :=
  check_prefixed errs (ValidatePort (ProxyMeshConfig.ProxyListenPort mesh))
    "invalid proxy listen port:".

Definition check_admin_port (mesh : ProxyMeshConfig.t) (errs : error) : error :=
  check_prefixed errs (ValidatePort (ProxyMeshConfig.ProxyAdminPort mesh))
    "invalid proxy admin port:".

Definition check_cluster (mesh : ProxyMeshConfig.t) (errs : error) : error :=
  append_if (ProxyMeshConfig.IstioServiceCluster mesh = EmptyString) errs
    (Errorf "Istio service cluster must be set").

Definition check_parent_and_drain (mesh : ProxyMeshConfig.t) (errs : error) : error :=
  check_prefixed errs
    (ValidateParentAndDrain (ProxyMeshConfig.DrainDuration mesh)
       (ProxyMeshConfig.ParentShutdownDuration mesh))
    "invalid parent and drain time combination".

Definition check_refresh_delay (mesh : ProxyMeshConfig.t) (errs : error) : error :=
  check_prefixed errs (ValidateRefreshDelay (ProxyMeshConfig.DiscoveryRefreshDelay mesh))
    "invalid refresh delay:".

Definition check_connect_timeout (mesh : ProxyMeshConfig.t) (errs : error) : error :=
  check_prefixed errs (ValidateConnectTimeout (ProxyMeshConfig.ConnectTimeout mesh))
    "invalid connect timeout:".

Definition check_auth_certs (mesh : ProxyMeshConfig.t) (errs : error) : error :=
  append_if (ProxyMeshConfig.AuthCertsPath mesh = EmptyString) errs
    (Errorf "invalid auth certificates path").

Definition check_auth_policy (mesh : ProxyMeshConfig.t) (errs : error) : error :=
  match ProxyMeshConfig.AuthPolicy mesh with
  | ProxyMeshConfig.ProxyMeshConfig_NONE | ProxyMeshConfig.ProxyMeshConfig_MUTUAL_TLS => errs
  | policy =>
      multierror_Append errs
        (Errorf ("unrecognized auth policy " +:+ fmt_AuthPolicy policy))
  end.

Definition ValidateProxyMeshConfig (mesh : ProxyMeshConfig.t) : error :=
  let errs := None in
  let errs := check_egress mesh errs in
  let errs := check_discovery mesh errs in
  let errs := check_mixer mesh errs in
  let errs := check_statsd mesh errs in
  let errs := check_listen_port mesh errs in
  let errs := check_admin_port mesh errs in
  let errs := check_cluster mesh errs in
  let errs := check_parent_and_drain mesh errs in
  let errs := check_refresh_delay mesh errs in
  let errs := check_connect_timeout mesh errs in
  let errs := check_auth_certs mesh errs in
  let errs := check_auth_policy mesh errs in
  errs.

(** **** What these validators accept *)

Lemma append_if_None (P : Prop) `{Decision P} errs e :
  append_if P errs e = None ↔ errs = None ∧ ¬ P.
Proof. apply if_decide_Append_None. Qed.

Lemma ValidateDuration_None (pd : option Duration.t) :
  ValidateDuration pd = None ↔
    (ptypes_Duration pd).2 = None ∧
    time_Millisecond ≤ (ptypes_Duration pd).1 ∧
    Z.rem (ptypes_Duration pd).1 time_Millisecond = 0.
Proof.
  unfold ValidateDuration. destruct (ptypes_Duration pd) as [dur err]. simpl.
  case_decide as Herr.
  { split; [by intros ->|]. by intros [-> _]. }
  case_decide as Hms; [split; [done|lia]|].
  case_decide as Hrem; [split; [done|tauto]|].
  split; [|done]. intros _. split; [by destruct err|]. split; [lia|].
  by destruct (decide (Z.rem dur time_Millisecond = 0)).
Qed.

Lemma ValidatePercent_None (val : Z) : ValidatePercent val = None ↔ 0 ≤ val ≤ 100.
Proof. unfold ValidatePercent. case_decide; [split; [done|lia]|split; [lia|done]]. Qed.

Lemma ValidatePort_None (port : Z) : ValidatePort port = None ↔ 1 ≤ port ≤ 65535.
Proof. unfold ValidatePort. case_decide; [done|]. split; [done|lia]. Qed.

(** X10. A simple circuit breaker is accepted exactly when its five counters
    are not negative, its ejection percentage is between 0 and 100, and
    its sleep window and detection interval are durations
    [ValidateDuration] accepts; a breaker that is nil or has no simple
    policy is accepted as it is. *)
Theorem ValidateCircuitBreaker_accepts (cb : option CircuitBreaker.t) :
  ValidateCircuitBreaker cb = None ↔
    ∀ simple, CircuitBreaker.GetSimpleCb cb = Some simple →
      0 ≤ CircuitBreaker.MaxConnections simple ∧
      0 ≤ CircuitBreaker.HttpMaxPendingRequests simple ∧
      0 ≤ CircuitBreaker.HttpMaxRequests simple ∧
      ValidateDuration (CircuitBreaker.SleepWindow simple) = None ∧
      0 ≤ CircuitBreaker.HttpConsecutiveErrors simple ∧
      ValidateDuration (CircuitBreaker.HttpDetectionInterval simple) = None ∧
      0 ≤ CircuitBreaker.HttpMaxRequestsPerConnection simple ∧
      0 ≤ CircuitBreaker.HttpMaxEjectionPercent simple ≤ 100.
Proof.
  unfold ValidateCircuitBreaker.
  destruct (CircuitBreaker.GetSimpleCb cb) as [simple|]; [|by split].
  cbv zeta. rewrite check_prefixed_None, !append_if_None, ValidatePercent_None.
  split.
  - intros ((((((((_ & ?) & ?) & ?) & Hs) & ?) & Hd) & ?) & ?) s [= <-].
    split_and!; try lia.
    + by destruct (ValidateDuration (CircuitBreaker.SleepWindow simple)); [destruct Hs|].
    + by destruct (ValidateDuration (CircuitBreaker.HttpDetectionInterval simple));
        [destruct Hd|].
  - intros Hall. destruct (Hall simple eq_refl) as (? & ? & ? & Hs & ? & Hd & ? & ?).
    split_and!; try done; try lia.
    + rewrite Hs. by intros ?.
    + rewrite Hd. by intros ?.
Qed.

(** X11. [ValidateIngressRule] accepts exactly the ingress rules whose name is
    a DNS label and whose destination is an accepted domain name. *)
Theorem ValidateIngressRule_accepts (msg : policy_Message LoadBalancing) :
  ValidateIngressRule msg = None ↔
    ∃ value, msg = Message_IngressRule value ∧
      IsDNS1123Label (IngressRule.Name value) = true ∧
      ValidateFQDN (IngressRule.Destination value) = None.
Proof.
  destruct msg as [value|value|name]; simpl;
    [|split; [done|by intros (? & ? & _)]..].
  rewrite check_None, !append_if_None. split.
  - intros ((((_ & _) & Hl) & _) & Hf). exists value. split; [done|]. split; [|done].
    by destruct (IsDNS1123Label (IngressRule.Name value)).
  - intros (v & [= <-] & Hl & Hf). split_and!; try done.
    + intros E. rewrite E in Hl. by vm_compute in Hl.
    + by rewrite Hl.
    + intros E. rewrite E in Hf. by vm_compute in Hf.
Qed.

Lemma ValidateDestinationPolicy_body_None errs policy :
  ValidateDestinationPolicy_body errs policy = None ↔
    errs = None ∧
    Tags_Validate (DestinationVersionPolicy.Tags policy) = None ∧
    ∀ cb, DestinationVersionPolicy.CircuitBreaker_ policy = Some cb →
      ValidateCircuitBreaker (Some cb) = None.
Proof.
  unfold ValidateDestinationPolicy_body, ValidateLoadBalancing. cbv zeta.
  destruct (DestinationVersionPolicy.CircuitBreaker_ policy) as [cb|],
    (DestinationVersionPolicy.LoadBalancing_ policy) as [lb|];
    rewrite ?check_None; naive_solver.
Qed.

(** X12. [ValidateDestinationPolicy] accepts exactly the destination policies
    whose destination is an accepted domain name and whose version
    policies all have accepted tags and, where they have one, an accepted
    circuit breaker. The load balancing of a version policy is never a
    reason to reject. *)
Theorem ValidateDestinationPolicy_accepts (msg : policy_Message LoadBalancing) :
  ValidateDestinationPolicy msg = None ↔
    ∃ value, msg = Message_DestinationPolicy value ∧
      ValidateFQDN (DestinationPolicy.Destination value) = None ∧
      Forall (λ policy,
                Tags_Validate (DestinationVersionPolicy.Tags policy) = None ∧
                ∀ cb, DestinationVersionPolicy.CircuitBreaker_ policy = Some cb →
                  ValidateCircuitBreaker (Some cb) = None)
             (DestinationPolicy.Policy value).
Proof.
  destruct msg as [value|value|name]; simpl;
    [split; [done|by intros (? & ? & _)]| |split; [done|by intros (? & ? & _)]].
  assert (∀ l errs,
            foldl ValidateDestinationPolicy_body errs l = None ↔
              errs = None ∧
              Forall (λ policy,
                        Tags_Validate (DestinationVersionPolicy.Tags policy) = None ∧
                        ∀ cb, DestinationVersionPolicy.CircuitBreaker_ policy = Some cb →
                          ValidateCircuitBreaker (Some cb) = None) l) as Hfold.
  { induction l as [|policy l IH]; intros errs; cbn [foldl].
    - split; [by intros ->|by intros [? _]].
    - rewrite IH, ValidateDestinationPolicy_body_None, Forall_cons. tauto. }
  rewrite Hfold. case_decide as Hd.
  - split; [by intros [? _]|]. intros (v & [= <-] & Hf & _).
    rewrite Hd in Hf. by vm_compute in Hf.
  - rewrite check_None. split.
    + intros [[_ Hf] Hall]. by exists value.
    + intros (v & [= <-] & Hf & Hall). done.
Qed.

(** X13. [ValidateProxyAddress] accepts exactly the addresses [host:port]
    whose part before the first colon is an accepted domain name or an
    accepted IPv4 address, and whose part after it [strconv.Atoi] reads
    as a number between 1 and 65535. *)
Theorem ValidateProxyAddress_accepts (hostAddr : string) :
  ValidateProxyAddress hostAddr = None ↔
    ∃ host port,
      hostAddr = (host +:+ ":" +:+ port)%string ∧
      go.string_forallb (λ c, negb (bool_decide (c = ":"%char))) host = true ∧
      (strconv_Atoi port).2 = None ∧
      1 ≤ (strconv_Atoi port).1 ≤ 65535 ∧
      (ValidateFQDN host = None ∨ ValidateIPv4Address host = None).
Proof.
  unfold ValidateProxyAddress. cbv zeta.
  case_decide as Hcolon.
  - split; [done|]. intros (host & port & Heq & Hhost & _).
    change (hostAddr = (host +:+ String ":" port)%string) in Heq. subst hostAddr.
    destruct (go.strings_Index_cut host port ":" Hhost) as (Hi & _).
    rewrite Hi in Hcolon. lia.
  - destruct (go.strings_Index_found hostAddr ":") as (host & port & -> & Hhost); [lia|].
    destruct (go.strings_Index_cut host port ":" Hhost) as (Hi & Ht & Hf).
    rewrite Hi, Ht, Hf.
    assert (∀ host' port',
              (host +:+ String ":" port)%string = (host' +:+ ":" +:+ port')%string →
              go.string_forallb (λ c, negb (bool_decide (c = ":"%char))) host' = true →
              host' = host ∧ port' = port) as Huniq.
    { intros host' port' Heq Hhost'.
      change ((host +:+ String ":" port)%string = (host' +:+ String ":" port')%string)
        in Heq.
      destruct (go.strings_Index_cut host' port' ":" Hhost') as (Hi' & Ht' & Hf').
      rewrite <-Heq in Hi', Ht', Hf'.
      rewrite Hi in Hi'. apply Nat2Z.inj in Hi'. rewrite <-Hi' in Ht', Hf'.
      rewrite Ht in Ht'. rewrite Hf in Hf'. done. }
    destruct (strconv_Atoi port) as [n err] eqn:EA.
    case_decide as Herr.
    { split; [by intros ->|]. intros (host' & port' & Heq & Hhost' & Hnil & _).
      destruct (Huniq host' port' Heq Hhost') as [-> ->]. by rewrite EA in Hnil. }
    pose proof (ValidatePort_None n) as HP.
    case_decide as Hport.
    { split; [by intros ?|]. intros (host' & port' & Heq & Hhost' & _ & Hrange & _).
      destruct (Huniq host' port' Heq Hhost') as [-> ->]. rewrite EA in Hrange.
      by apply HP in Hrange. }
    assert (1 ≤ n ≤ 65535) as Hn by (by apply HP).
    assert (err = None) as -> by (by destruct err).
    case_decide as Hfq.
    + case_decide as Hip.
      * split; [done|]. intros (host' & port' & Heq & Hhost' & _ & _ & Hor).
        destruct (Huniq host' port' Heq Hhost') as [-> ->]. by destruct Hor.
      * split; [|done]. intros _. exists host, port. rewrite EA. simpl.
        split_and!; try done; try lia.
        right. by destruct (ValidateIPv4Address host).
    + split; [|done]. intros _. exists host, port. rewrite EA. simpl.
      split_and!; try done; try lia.
      left. by destruct (ValidateFQDN host).
Qed.

(** X14. The drain and parent shutdown times are accepted together exactly
    when both are read by [ptypes.Duration], both are whole seconds, and
    the drain time is at least one second, less than the parent shutdown
    time, which is at most one hour. *)
Theorem ValidateParentAndDrain_accepts (drainTime parentShutdown : option Duration.t) :
  ValidateParentAndDrain drainTime parentShutdown = None ↔
    (ptypes_Duration drainTime).2 = None ∧
    (ptypes_Duration parentShutdown).2 = None ∧
    Z.rem (ptypes_Duration drainTime).1 time_Second = 0 ∧
    Z.rem (ptypes_Duration parentShutdown).1 time_Second = 0 ∧
    time_Second ≤ (ptypes_Duration drainTime).1 ∧
    (ptypes_Duration drainTime).1 < (ptypes_Duration parentShutdown).1 ∧
    (ptypes_Duration parentShutdown).1 ≤ time_Hour.
Proof.
  unfold ValidateParentAndDrain. cbv zeta.
  pose proof (ValidateDuration_None drainTime) as Hd.
  pose proof (ValidateDuration_None parentShutdown) as Hp.
  set (d := (ptypes_Duration drainTime).1) in *.
  set (p := (ptypes_Duration parentShutdown).1) in *.
  unfold drainTimeMax, parentShutdownTimeMax, time_Hour, time_Minute, time_Second,
    time_Millisecond in *.
  case_decide as Herrs.
  - split; [by intros ?|]. intros (Hed & Hep & Hrd & Hrp & Hmin & Hlt & Hmax).
    destruct Herrs. apply check_prefixed_None. split; [apply check_prefixed_None|].
    + split; [done|]. apply Hd. split; [done|]. split; [lia|].
      revert Hrd. clear. intros. Z.to_euclidean_division_equations. lia.
    + apply Hp. split; [done|]. split; [lia|].
      revert Hrp. clear. intros. Z.to_euclidean_division_equations. lia.
  - pose proof Herrs as Hnil.
    apply check_prefixed_None in Herrs as [[_ Hvd]%check_prefixed_None Hvp].
    apply Hd in Hvd as (Hed & Hdms & Hdrem). apply Hp in Hvp as (Hep & Hpms & Hprem).
    rewrite !append_if_None. split.
    + intros (((((_ & Hrd) & Hrp) & Hlt) & Hdmax) & Hpmax).
      split_and!; try done; try lia.
      assert (Z.rem d (1000 * 1000000) = 0) as Hrd' by (by apply dec_stable).
      revert Hrd' Hdms. clear. intros. Z.to_euclidean_division_equations. lia.
    + intros (_ & _ & Hrd & Hrp & Hmin & Hlt & Hmax).
      split_and!; try done; try lia; intros Hne; by apply Hne.
Qed.

(** X15. The bounds of [ValidateDurationRange] are inclusive, whatever its
    message says: the refresh delay is accepted exactly when it is a
    duration in whole milliseconds from one second to ten minutes, both
    included, and the connect timeout exactly when it is one from one
    millisecond to thirty seconds, both included. *)
Theorem duration_ranges_inclusive (pd : option Duration.t) :
  (∀ dur min max, ValidateDurationRange dur min max = None ↔ min ≤ dur ≤ max) ∧
  (ValidateRefreshDelay pd = None ↔
     (ptypes_Duration pd).2 = None ∧
     Z.rem (ptypes_Duration pd).1 time_Millisecond = 0 ∧
     time_Second ≤ (ptypes_Duration pd).1 ≤ 10 * time_Minute) ∧
  (ValidateConnectTimeout pd = None ↔
     (ptypes_Duration pd).2 = None ∧
     Z.rem (ptypes_Duration pd).1 time_Millisecond = 0 ∧
     time_Millisecond ≤ (ptypes_Duration pd).1 ≤ 30 * time_Second).
Proof.
  assert (∀ dur min max, ValidateDurationRange dur min max = None ↔ min ≤ dur ≤ max)
    as Hrange.
  { intros dur min max. unfold ValidateDurationRange.
    case_decide; [split; [done|lia]|split; [lia|done]]. }
  split; [exact Hrange|].
  pose proof (ValidateDuration_None pd) as Hd.
  unfold ValidateRefreshDelay, ValidateConnectTimeout. cbv zeta.
  unfold discoveryRefreshDelayMin, discoveryRefreshDelayMax, connectTimeoutMin,
    connectTimeoutMax.
  destruct (decide (ValidateDuration pd ≠ None)) as [Hne|Heq].
  - split; (split; [by intros ?|]); intros (He & Hrem & Hlo & Hhi); destruct Hne;
      apply Hd; split_and!; try done.
    unfold time_Second, time_Millisecond in *. lia.
  - assert (ValidateDuration pd = None) as Hv by (by apply dec_stable).
    apply Hd in Hv as (He & Hms & Hrem).
    rewrite !Hrange. split; split; intros; split_and!; try done; try lia.
Qed.

(** The statements of [ValidateProxyMeshConfig] leave the error nil only
    if it was nil and their own rule holds. *)

Lemma check_egress_None mesh errs :
  check_egress mesh errs = None ↔
    errs = None ∧
    (ProxyMeshConfig.EgressProxyAddress mesh = EmptyString ∨
     ValidateProxyAddress (ProxyMeshConfig.EgressProxyAddress mesh) = None).
Proof.
  unfold check_egress. case_decide as E.
  - rewrite check_prefixed_None. naive_solver.
  - assert (ProxyMeshConfig.EgressProxyAddress mesh = EmptyString)
      by (by destruct (decide (ProxyMeshConfig.EgressProxyAddress mesh = EmptyString))).
    naive_solver.
Qed.

Lemma check_discovery_None mesh errs :
  check_discovery mesh errs = None ↔
    errs = None ∧
    ProxyMeshConfig.DiscoveryAddress mesh ≠ EmptyString ∧
    ValidateProxyAddress (ProxyMeshConfig.DiscoveryAddress mesh) = None.
Proof.
  unfold check_discovery. case_decide as E.
  - split; [done|]. by intros (_ & ? & _).
  - rewrite check_prefixed_None. naive_solver.
Qed.

Lemma check_mixer_None mesh errs :
  check_mixer mesh errs = None ↔
    errs = None ∧
    (ProxyMeshConfig.MixerAddress mesh = EmptyString ∨
     ValidateProxyAddress (ProxyMeshConfig.MixerAddress mesh) = None).
Proof.
  unfold check_mixer. case_decide as E.
  - rewrite check_prefixed_None. naive_solver.
  - assert (ProxyMeshConfig.MixerAddress mesh = EmptyString)
      by (by destruct (decide (ProxyMeshConfig.MixerAddress mesh = EmptyString))).
    naive_solver.
Qed.

Lemma check_statsd_None mesh errs :
  check_statsd mesh errs = None ↔
    errs = None ∧
    (ProxyMeshConfig.StatsdUdpAddress mesh = EmptyString ∨
     ValidateProxyAddress (ProxyMeshConfig.StatsdUdpAddress mesh) = None).
Proof.
  unfold check_statsd. case_decide as E.
  - rewrite check_prefixed_None. naive_solver.
  - assert (ProxyMeshConfig.StatsdUdpAddress mesh = EmptyString)
      by (by destruct (decide (ProxyMeshConfig.StatsdUdpAddress mesh = EmptyString))).
    naive_solver.
Qed.

Lemma check_auth_policy_None mesh errs :
  check_auth_policy mesh errs = None ↔
    errs = None ∧
    (ProxyMeshConfig.AuthPolicy mesh = ProxyMeshConfig.ProxyMeshConfig_NONE ∨
     ProxyMeshConfig.AuthPolicy mesh = ProxyMeshConfig.ProxyMeshConfig_MUTUAL_TLS).
Proof.
  unfold check_auth_policy. destruct (ProxyMeshConfig.AuthPolicy mesh); naive_solver.
Qed.

(** X16. [ValidateProxyMeshConfig] accepts a mesh configuration exactly when
    the discovery address is set and is an accepted address; the egress
    proxy, Mixer and statsd addresses are each empty or an accepted
    address; the two proxy ports are between 1 and 65535; the service
    cluster and the certificates path are set; the drain and parent
    shutdown times, the refresh delay and the connect timeout are
    accepted by their validators; and the authentication policy is one
    of the two named ones. *)
Theorem ValidateProxyMeshConfig_accepts (mesh : ProxyMeshConfig.t) :
  ValidateProxyMeshConfig mesh = None ↔
    (ProxyMeshConfig.EgressProxyAddress mesh = EmptyString ∨
     ValidateProxyAddress (ProxyMeshConfig.EgressProxyAddress mesh) = None) ∧
    ProxyMeshConfig.DiscoveryAddress mesh ≠ EmptyString ∧
    ValidateProxyAddress (ProxyMeshConfig.DiscoveryAddress mesh) = None ∧
    (ProxyMeshConfig.MixerAddress mesh = EmptyString ∨
     ValidateProxyAddress (ProxyMeshConfig.MixerAddress mesh) = None) ∧
    (ProxyMeshConfig.StatsdUdpAddress mesh = EmptyString ∨
     ValidateProxyAddress (ProxyMeshConfig.StatsdUdpAddress mesh) = None) ∧
    1 ≤ ProxyMeshConfig.ProxyListenPort mesh ≤ 65535 ∧
    1 ≤ ProxyMeshConfig.ProxyAdminPort mesh ≤ 65535 ∧
    ProxyMeshConfig.IstioServiceCluster mesh ≠ EmptyString ∧
    ValidateParentAndDrain (ProxyMeshConfig.DrainDuration mesh)
      (ProxyMeshConfig.ParentShutdownDuration mesh) = None ∧
    ValidateRefreshDelay (ProxyMeshConfig.DiscoveryRefreshDelay mesh) = None ∧
    ValidateConnectTimeout (ProxyMeshConfig.ConnectTimeout mesh) = None ∧
    ProxyMeshConfig.AuthCertsPath mesh ≠ EmptyString ∧
    (ProxyMeshConfig.AuthPolicy mesh = ProxyMeshConfig.ProxyMeshConfig_NONE ∨
     ProxyMeshConfig.AuthPolicy mesh = ProxyMeshConfig.ProxyMeshConfig_MUTUAL_TLS).
Proof.
  unfold ValidateProxyMeshConfig. cbv zeta.
  rewrite check_auth_policy_None.
  unfold check_auth_certs, check_connect_timeout, check_refresh_delay,
    check_parent_and_drain, check_cluster, check_admin_port, check_listen_port.
  rewrite append_if_None, !check_prefixed_None, append_if_None, !check_prefixed_None.
  rewrite check_statsd_None, check_mixer_None, check_discovery_None, check_egress_None.
  rewrite !ValidatePort_None, !Init.Logic.and_assoc. tauto.
Qed.

End mesh.
End rules.
End validation.

(** *** Validators aggregate *)

Section aggregation.
Context {Message reflect_Type : Type}.
Variable strconv_Quote : string → string.
Variable proto_MessageType : string → option reflect_Type.
Variable strings_ToLower : string → string.
Variable strconv_Atoi : string → Z * error.
Variable ptypes_Duration : option Duration.t → Z * error.
Variable fmt_StringMatch : StringMatch.t → string.
Variable HeaderURI : string.

(** C7. [ConfigDescriptor.Validate] and [ValidateRouteRule] aggregate; the
    validators of a single value do not. The combined error of a registry
    is the list of all its violations, entry by entry: every missing key
    function, invalid type or plural name, undiscoverable message type and
    duplicate name, of whichever entry. The combined error of a routing
    rule holds a message exactly when the message says what is wrong with
    the rule, [route_rule_violation]: every violated rule of its fields
    and of its parts, down to every tag, header, subnet, weight, fault and
    policy, whatever else is wrong with the rule; a domain name, a
    duration, an address and a subnet are reported for the first thing
    that is wrong with them only. *)
Theorem validators_aggregate :
  (∀ descriptor : ConfigDescriptor Message,
     leaves (Validate strconv_Quote proto_MessageType descriptor)
     = all_violations strconv_Quote proto_MessageType descriptor) ∧
  (∀ (earlier later : ConfigDescriptor Message) (v : ProtoSchema.t Message),
     let r := leaves (Validate strconv_Quote proto_MessageType (earlier ++ v :: later)) in
     (ProtoSchema.Key v = None →
        "missing the required key function for type: "
          +:+ strconv_Quote (ProtoSchema.Typ v) ∈ r) ∧
     (IsDNS1123Label (ProtoSchema.Typ v) = false →
        "invalid type: " +:+ strconv_Quote (ProtoSchema.Typ v) ∈ r) ∧
     (IsDNS1123Label (ProtoSchema.Plural v) = false →
        "invalid plural: " +:+ strconv_Quote (ProtoSchema.Typ v) ∈ r) ∧
     (proto_MessageType (ProtoSchema.MessageName v) = None →
        "cannot discover proto message type: "
          +:+ strconv_Quote (ProtoSchema.MessageName v) ∈ r) ∧
     (ProtoSchema.Typ v ∈ ProtoSchema.Typ <$> earlier →
        "duplicate type: " +:+ strconv_Quote (ProtoSchema.Typ v) ∈ r) ∧
     (ProtoSchema.MessageName v ∈ ProtoSchema.MessageName <$> earlier →
        "duplicate message type: " +:+ strconv_Quote (ProtoSchema.MessageName v) ∈ r)) ∧
  (∀ (value : RouteRule.t) (msg : string),
     msg ∈ leaves (ValidateRouteRule strconv_Quote strings_ToLower strconv_Atoi
                     ptypes_Duration fmt_StringMatch HeaderURI (Message_RouteRule value))
     ↔ route_rule_violation strconv_Quote strings_ToLower strconv_Atoi ptypes_Duration
         fmt_StringMatch HeaderURI value msg).
Proof.
  split; [apply Validate_leaves|]. split.
  - intros earlier later v. apply Validate_reports_all.
  - intros value msg. apply ValidateRouteRule_reports.
Qed.

End aggregation.

(** The validators of single fields stop at their first violation:
    [ValidateFQDN] names the first label that is not a DNS label, although
    the second is none either. *)
Example ValidateFQDN_first_label_only :
  ValidateFQDN (λ s, s) "A.B" = Errorf "domain name A.B invalid (label A invalid)" ∧
  IsDNS1123Label "A" = false ∧ IsDNS1123Label "B" = false.
Proof. by vm_compute. Qed.

(** *** Route weights *)

(** The total of the weights, as a number. *)
Definition total_weight (routes : list DestinationWeight.t) : Z :=
  foldr (λ destWeight total, DestinationWeight.Weight destWeight + total) 0 routes.

Definition weighted (weight : Z) : DestinationWeight.t :=
  {| DestinationWeight.Destination := EmptyString;
     DestinationWeight.Tags := ∅;
     DestinationWeight.Weight := weight |}.

(** Over [int32] weights the [int] sum does not wrap around as long as
    there are fewer than 2^32 of them. *)
Lemma sum_weights_total (routes : list DestinationWeight.t) :
  Forall (λ dw, go.is_int32 (DestinationWeight.Weight dw)) routes →
  Z.of_nat (length routes) < 2 ^ 32 →
  sum_weights routes = total_weight routes.
Proof.
  unfold sum_weights. intros Hall Hlen.
  assert (∀ acc,
            go.int_min + Z.of_nat (length routes) * 2 ^ 31 ≤ acc
              ≤ go.int_max - Z.of_nat (length routes) * 2 ^ 31 →
            foldl (λ sum dw, go.int_add sum (DestinationWeight.Weight dw)) acc routes
            = acc + total_weight routes) as Hacc.
  { clear Hlen. induction Hall as [|dw routes Hdw _ IH]; intros acc Hacc; simpl.
    - lia.
    - unfold go.is_int32 in Hdw. simpl length in Hacc.
      unfold go.int_min, go.int_max in *.
      rewrite IH.
      + unfold go.int_add. rewrite go.wrap_int_id; [lia|].
        unfold go.int_min, go.int_max. lia.
      + unfold go.int_add. rewrite go.wrap_int_id; unfold go.int_min, go.int_max; lia. }
  rewrite Hacc; [lia|]. unfold go.int_min, go.int_max. lia.
Qed.

(** C6, with the total the code reports. [ValidateWeights] accepts a list
    of destinations exactly when the weights total 100 or the list is a
    single destination of weight 0; otherwise its one error reports the
    total. Two destinations weighted 60 and 30 fail with "Route weights
    total 90 (must total 100)"; a single destination of weight 0 passes. *)
Theorem ValidateWeights_accepts (routes : list DestinationWeight.t)
    (defaultDestination : string) :
  Forall (λ dw, go.is_int32 (DestinationWeight.Weight dw)) routes →
  Z.of_nat (length routes) < 2 ^ 32 →
  (ValidateWeights routes defaultDestination = None ↔
     total_weight routes = 100 ∨
     ∃ dw, routes = [dw] ∧ DestinationWeight.Weight dw = 0) ∧
  (ValidateWeights routes defaultDestination ≠ None →
     leaves (ValidateWeights routes defaultDestination) =
       ["Route weights total " +:+ go.fmt_int (total_weight routes)
        +:+ " (must total 100)"]) ∧
  (∀ a b, routes = [a; b] →
     DestinationWeight.Weight a = 60 → DestinationWeight.Weight b = 30 →
     leaves (ValidateWeights routes defaultDestination) =
       ["Route weights total 90 (must total 100)"]) ∧
  (∀ a, routes = [a] → DestinationWeight.Weight a = 0 →
     ValidateWeights routes defaultDestination = None).
Proof.
  intros Hall Hlen. pose proof (sum_weights_total routes Hall Hlen) as Hsum.
  assert (ValidateWeights routes defaultDestination = None ↔
            total_weight routes = 100 ∨
            ∃ dw, routes = [dw] ∧ DestinationWeight.Weight dw = 0) as Hiff.
  { unfold ValidateWeights. rewrite Hsum. case_decide as H1.
    - split; [intros _; right|done]. destruct H1 as [Hl Ht].
      destruct routes as [|dw [|??]]; try discriminate.
      exists dw. split; [done|]. simpl in Ht. lia.
    - case_decide as H100; split; try done.
      + intros [?|(dw & -> & Hw)]; [done|]. destruct H1. simpl. split; [done|lia].
      + intros _. by left. }
  assert (ValidateWeights routes defaultDestination ≠ None →
          leaves (ValidateWeights routes defaultDestination) =
            ["Route weights total " +:+ go.fmt_int (total_weight routes)
             +:+ " (must total 100)"]) as Herr.
  { unfold ValidateWeights. rewrite Hsum. repeat case_decide; done. }
  split; [exact Hiff|]. split; [exact Herr|]. split.
  - intros a b -> Ha Hb.
    rewrite Herr.
    + simpl. rewrite Ha, Hb. reflexivity.
    + rewrite Hiff. simpl. rewrite Ha, Hb. intros [?|(dw & ? & _)]; [lia|done].
  - intros a -> Ha. apply Hiff. right. by exists a.
Qed.

Lemma ValidateWeights_accepts_witness :
  let routes := [weighted 60; weighted 30] in
  (Forall (λ dw, go.is_int32 (DestinationWeight.Weight dw)) routes ∧
   Z.of_nat (length routes) < 2 ^ 32) ∧
  leaves (ValidateWeights routes "reviews.default.svc.cluster.local")
  = ["Route weights total 90 (must total 100)"] ∧
  ValidateWeights [weighted 0] "reviews.default.svc.cluster.local" = None.
Proof.
  intros routes.
  assert (Forall (λ dw, go.is_int32 (DestinationWeight.Weight dw)) routes ∧
          Z.of_nat (length routes) < 2 ^ 32) as [H1 H2].
  { split; [|by vm_compute]. repeat constructor; by vm_compute. }
  split; [done|].
  destruct (ValidateWeights_accepts routes "reviews.default.svc.cluster.local" H1 H2)
    as (_ & _ & H6030 & _).
  split; [by apply (H6030 (weighted 60) (weighted 30))|].
  by vm_compute.
Defined.

(** The sentence of C6 about the rule weighted 60 and 30 does not hold as
    it is written: the error of that rule reports the total 90, and no
    error of it mentions a total of 70. *)
Lemma ValidateWeights_60_30_totals_90 :
  leaves (ValidateWeights [weighted 60; weighted 30] "reviews.default.svc.cluster.local")
  = ["Route weights total 90 (must total 100)"] ∧
  forallb (λ msg, negb (go.strings_Contains msg "total 70"))
    (leaves (ValidateWeights [weighted 60; weighted 30]
               "reviews.default.svc.cluster.local")) = true.
Proof. split; by vm_compute. Qed.

(** A routing rule that breaks nine rules at once gets nine errors. *)
Example route_rule_nine_violations :
  leaves
    (ValidateRouteRule (λ s, s) (λ s, s) (λ _, (0, None)) (λ _, (0, None)) (λ _, EmptyString)
       "uri"
       (Message_RouteRule
          {| RouteRule.Name := EmptyString; RouteRule.Destination := EmptyString;
             RouteRule.Precedence := 0; RouteRule.Match := None;
             RouteRule.Route := Some [weighted 60; weighted 30];
             RouteRule.Redirect :=
               Some {| HTTPRedirect.Uri := EmptyString;
                       HTTPRedirect.Authority := EmptyString |};
             RouteRule.Rewrite :=
               Some {| HTTPRewrite.Uri := EmptyString;
                       HTTPRewrite.Authority := EmptyString |};
             RouteRule.HttpReqTimeout := None; RouteRule.HttpReqRetries := None;
             RouteRule.HttpFault := None; RouteRule.L4Fault := None |}))
  = ["route rule must have a name";
     "route rule name must be a host name label";
     "route rule must have a destination service";
     "empty domain name not allowed";
     "rewrite must specify path, host, or both";
     "rule cannot contain both route and redirect";
     "redirect must specify path, host, or both";
     "rule cannot contain both rewrite and redirect";
     "Route weights total 90 (must total 100)"].
Proof. by vm_compute. Qed.

Example IsDNS1123Label_samples :
  IsDNS1123Label "route-rule" = true ∧ IsDNS1123Label "Route" = false ∧
  IsDNS1123Label EmptyString = false ∧ IsDNS1123Label "a-" = false ∧
  IsDNS1123Label "-a" = false ∧ IsDNS1123Label "a_b" = false.
Proof. by vm_compute. Qed.

(** *** A registry with one kind *)

Definition route_rule_schema : ProtoSchema.t proto_Message :=
  {| ProtoSchema.Typ := "route-rule"; ProtoSchema.Plural := "route-rules";
     ProtoSchema.MessageName := "istio.proxy.v1.config.RouteRule";
     ProtoSchema.Validate := λ _, None;
     ProtoSchema.Key := Some (λ msg,
       match msg with
       | Message_RouteRule value => RouteRule.Name value
       | Message_other _ => EmptyString
       end) |}.

(** [proto.MessageName] on the messages modelled here. *)
Definition sample_MessageName (msg : proto_Message) : string :=
  match msg with
  | Message_RouteRule _ => "istio.proxy.v1.config.RouteRule"
  | Message_other name => name
  end.

(** [strconv.Quote] on strings that need no escaping. *)
Definition plain_Quote (s : string) : string :=
  String "034" (s +:+ String "034" EmptyString).

(** The enumeration of C4 leaves a case out: a payload that is not nil
    and not a message makes [ValidateConfig] fail, although its type is
    registered; it has no message name to compare, and the validator of
    the kind is not consulted. *)
Lemma ValidateConfig_not_a_message :
  ValidateConfig plain_Quote sample_MessageName [route_rule_schema] "route-rule" any_other
  = Errorf "cannot cast to a proto message" ∧
  GetByType [route_rule_schema] "route-rule" = Some route_rule_schema ∧
  any_is_nil (any_other (Message := proto_Message)) = false ∧
  ProtoSchema.Validate route_rule_schema = (λ _, None).
Proof. repeat split. Qed.

(** *** Addresses and durations, run *)

(** [strconv.Atoi] on unsigned decimal numerals of a few digits; anything
    else is an error here. *)
Fixpoint decimal (s : string) (acc : Z) : option Z :=
  match s with
  | EmptyString => Some acc
  | String c rest =>
      if in_range "0" "9" c
      then decimal rest (10 * acc + (Z.of_N (N_of_ascii c) - 48))
      else None
  end.

Definition sample_Atoi (s : string) : Z * error :=
  match s, decimal s 0 with
  | String _ _, Some n => (n, None)
  | _, _ => (0, Errorf ("strconv.Atoi: parsing " +:+ plain_Quote s +:+ ": invalid syntax"))
  end.

(** [ptypes.Duration] on durations in range: nanoseconds, and an error
    for nil. *)
Definition sample_Duration (pd : option Duration.t) : Z * error :=
  match pd with
  | Some d => (Duration.Seconds d * 1000000000 + Duration.Nanos d, None)
  | None => (0, Errorf "duration: nil Duration")
  end.

Definition seconds (n : Z) : option Duration.t :=
  Some {| Duration.Seconds := n; Duration.Nanos := 0 |}.

Example ValidateProxyAddress_samples :
  ValidateProxyAddress plain_Quote sample_Atoi "istio-pilot.istio-system:8080" = None ∧
  ValidateProxyAddress plain_Quote sample_Atoi "10.0.0.1:15003" = None ∧
  ValidateProxyAddress plain_Quote sample_Atoi "istio-pilot:0"
    = Errorf "port number 0 must be in the range 1..65535" ∧
  ValidateProxyAddress plain_Quote sample_Atoi "Pilot:8080"
    = Errorf (plain_Quote "Pilot" +:+ " is not a valid hostname or an IPv4 address") ∧
  is_nil (ValidateProxyAddress plain_Quote sample_Atoi "istio-pilot") = false ∧
  is_nil (ValidateProxyAddress plain_Quote sample_Atoi "istio-pilot:80:80") = false.
Proof. by vm_compute. Qed.

Example ValidateParentAndDrain_samples :
  ValidateParentAndDrain sample_Duration pretty (seconds 2) (seconds 3) = None ∧
  ValidateParentAndDrain sample_Duration pretty (seconds 3599) (seconds 3600) = None ∧
  is_nil (ValidateParentAndDrain sample_Duration pretty (seconds 3) (seconds 3)) = false ∧
  is_nil (ValidateParentAndDrain sample_Duration pretty (seconds 3600) (seconds 3601))
    = false ∧
  leaves (ValidateParentAndDrain sample_Duration pretty None (seconds 3))
    = ["invalid drain duration: duration: nil Duration"].
Proof. by vm_compute. Qed.

Example duration_range_samples :
  ValidateRefreshDelay sample_Duration pretty (seconds 1) = None ∧
  ValidateRefreshDelay sample_Duration pretty (seconds 600) = None ∧
  is_nil (ValidateRefreshDelay sample_Duration pretty (seconds 601)) = false ∧
  ValidateConnectTimeout sample_Duration pretty
    (Some {| Duration.Seconds := 0; Duration.Nanos := 1000000 |}) = None ∧
  ValidateConnectTimeout sample_Duration pretty (seconds 30) = None ∧
  is_nil (ValidateConnectTimeout sample_Duration pretty (seconds 31)) = false.
Proof. by vm_compute. Qed.

(** *** A rule with more wrong than is reported *)

(** A routing rule with four things wrong: neither label of its
    destination is a DNS label, and the source subnet of its match
    condition has two slashes and an address of three numbers. *)
Definition four_violations : RouteRule.t :=
  {| RouteRule.Name := "r"; RouteRule.Destination := "A.B";
     RouteRule.Precedence := 0;
     RouteRule.Match :=
       Some {| MatchCondition.Source := EmptyString;
               MatchCondition.SourceTags := ∅;
               MatchCondition.Tcp :=
                 Some {| L4MatchAttributes.SourceSubnet := ["1.2.3/4/5"];
                         L4MatchAttributes.DestinationSubnet := [] |};
               MatchCondition.Udp := None;
               MatchCondition.HttpHeaders := ∅ |};
     RouteRule.Route := None; RouteRule.Redirect := None;
     RouteRule.Rewrite := None; RouteRule.HttpReqTimeout := None;
     RouteRule.HttpReqRetries := None; RouteRule.HttpFault := None;
     RouteRule.L4Fault := None |}.

(** C7 fails on the code: of the four violations of [four_violations]
    the combined error identifies two. The second label of the
    destination and the address of the subnet are not looked at, although
    [ValidateFQDN] on a name with that label alone and
    [ValidateIPv4Address] on that address report them. *)
Lemma ValidateRouteRule_reports_two_of_four :
  leaves (ValidateRouteRule plain_Quote (λ s, s) sample_Atoi sample_Duration
            (λ _, EmptyString) "uri" (Message_RouteRule four_violations))
  = ["domain name " +:+ plain_Quote "A.B" +:+ " invalid (label " +:+ plain_Quote "A"
       +:+ " invalid)";
     plain_Quote "1.2.3/4/5" +:+ " is not valid CIDR notation"] ∧
  go.strings_Split "A.B" "." = ["A"; "B"] ∧
  IsDNS1123Label "A" = false ∧ IsDNS1123Label "B" = false ∧
  ValidateFQDN plain_Quote "B"
  = Errorf ("domain name " +:+ plain_Quote "B" +:+ " invalid (label " +:+ plain_Quote "B"
            +:+ " invalid)") ∧
  go.strings_Split "1.2.3/4/5" "/" = ["1.2.3"; "4"; "5"] ∧
  ValidateIPv4Address plain_Quote sample_Atoi "1.2.3"
  = Errorf (plain_Quote "1.2.3" +:+ " is not a valid IP address").
Proof. split_and!; by vm_compute. Qed.

End model.

(** ** Package [memory]: the polling monitor *)

Module memory.
Import model.

Section monitor.
Context {Message : Type} `{EqDecision Message}.
(** The part of the program the handlers act on. *)
Context {World : Type}.

Abbreviation Config := (Config.t Message).
Abbreviation Configs := (list Config).

(** [type Handler func(model.Config, model.Event)] *)
Definition Handler : Type := Config → Event → World → World.

(** Modelled from the spec: the interface [model.ConfigStore] is declared
    in [model/config.go], which is missing; "pull-style store:
    [List(kindType) → (records, error)]", the one method the monitor
    calls. *)
Record ConfigStore := { List : string → Configs * error }.

(** [*time.Ticker]: armed by [time.NewTicker], disarmed by [Stop]. *)
Record Ticker := { armed : bool }.

Record configsMonitor := {
    store : ConfigStore;
    configCachedRecord : gmap string Configs;
    handlers : gmap string (list Handler);
    ticker : option Ticker;
    period : Z;
  }.

(** [model.IstioConfigTypes], declared in [model/config.go]. *)
Variable IstioConfigTypes : ConfigDescriptor Message.

(** [sort.Slice] of the Go library: sorts by [less], not necessarily
    stably. *)
Variable sort_Slice : (Config → Config → bool) → Configs → Configs.

(** [reflect.DeepEqual] of the Go library on the payloads of two records.
    It is not equality of payloads: floats are compared with [==], so a
    payload that holds a NaN is not deeply equal to a copy of itself. *)
Variable reflect_DeepEqual : Message → Message → bool.

(** [reflect.DeepEqual(a, b)] on two [model.Config] structs: the fields
    are compared one by one, the three strings with [==] and the payloads
    deeply. *)
Definition Config_DeepEqual (a b : Config) : bool :=
  bool_decide (Config.Typ a = Config.Typ b)
  && bool_decide (Config.Key a = Config.Key b)
  && bool_decide (Config.Revision a = Config.Revision b)
  && reflect_DeepEqual (Config.Content a) (Config.Content b).

Definition NewConfigsMonitor (store : ConfigStore) (period : Z) : configsMonitor :=
  let '(cache, handlers) :=
    foldl (λ '(cache, handlers) conf,
             (<[ProtoSchema.Typ conf := []]> cache,
              <[ProtoSchema.Typ conf := []]> handlers))
          (∅, ∅) IstioConfigTypes in
  {| store := store; period := period;
     configCachedRecord := cache; handlers := handlers;
     ticker := None |}.

(** [m.handlers[typ]]: a missing key reads as the empty slice. *)
Definition handlers_of (m : configsMonitor) (typ : string) : list Handler :=
  default [] (handlers m !! typ).

(** [m.configCachedRecord[typ]] *)
Definition cached (m : configsMonitor) (typ : string) : Configs :=
  default [] (configCachedRecord m !! typ).

Definition AppendEventHandler (m : configsMonitor) (typ : string) (h : Handler)
    : configsMonitor :=
  {| store := store m; period := period m; ticker := ticker m;
     configCachedRecord := configCachedRecord m;
     handlers := <[typ := handlers_of m typ ++ [h]]> (handlers m) |}.

Definition applyHandlers (m : configsMonitor) (typ : string)
    (config : Config) (e : Event) (w : World) : World :=
  foldl (λ w f, f config e w) w (handlers_of m typ).

(** [list.normalize()]: sort by [Key] with Go's [<] on strings. *)
Definition normalize (list : Configs) : Configs :=
  sort_Slice (λ a b, String.ltb (Config.Key a) (Config.Key b)) list.

(** The first loop of [compareToCache]: [for io < len(oldRec) && in <
    len(newRec)]. The cursors are Go [int]s, decremented and incremented
    as in the source. [fuel] bounds the number of iterations; [None] is
    a panic or exhausted fuel. *)
Fixpoint compare_loop (fuel : nat) (m : configsMonitor) (typ : string)
    (oldRec newRec : Configs) (io in_ : Z) (w : World) : option (Z * Z * World) :=
  if decide (io < go.len oldRec ∧ in_ < go.len newRec) then
    match fuel with
    | O => None
    | S fuel =>
        o ← go.index oldRec io;
        n ← go.index newRec in_;
        let '(io, in_, w) :=
          if Config_DeepEqual o n then (io, in_, w)
          else if decide (Config.Key o = Config.Key n) then
            (io, in_, applyHandlers m typ n EventUpdate w)
          else if String.ltb (Config.Key o) (Config.Key n) then
            (io, in_ - 1, applyHandlers m typ o EventDelete w)
          else
            (io - 1, in_, applyHandlers m typ n EventAdd w) in
        compare_loop fuel m typ oldRec newRec (io + 1) (in_ + 1) w
    end
  else Some (io, in_, w).

(** [for ; i < len(rec); i++ { m.applyHandlers(typ, rec[i], e) }] *)
Definition apply_from (m : configsMonitor) (typ : string) (rec : Configs)
    (e : Event) (i : Z) (w : World) : option World :=
  foldl (λ acc j, w ← acc; c ← go.index rec j; Some (applyHandlers m typ c e w))
        (Some w) (seqZ i (go.len rec - i)).

Definition compareToCache (m : configsMonitor) (typ : string)
    (oldRec newRec : Configs) (w : World) : option World :=
  '(io, in_, w) ← compare_loop (length oldRec + length newRec) m typ oldRec newRec 0 0 w;
  w ← apply_from m typ oldRec EventDelete io w;
  apply_from m typ newRec EventAdd in_ w.

Definition set_cache (m : configsMonitor) (typ : string) (rec : Configs)
    : configsMonitor :=
  {| store := store m; period := period m; ticker := ticker m;
     handlers := handlers m;
     configCachedRecord := <[typ := rec]> (configCachedRecord m) |}.

(** The body of the loop of [UpdateConfigRecord] for one registered
    kind. *)
Definition UpdateConfigRecord_body (conf : ProtoSchema.t Message)
    (s : configsMonitor * World) : option (go.flow * (configsMonitor * World)) :=
  let '(m, w) := s in
  let '(configs, err) := List (store m) (ProtoSchema.Typ conf) in
  if decide (err ≠ None) then
    (* glog.Warningf(...); return *)
    Some (go.Return, (m, w))
  else
    let newRecord := normalize configs in
    w ← compareToCache m (ProtoSchema.Typ conf) (cached m (ProtoSchema.Typ conf)) newRecord w;
    Some (go.Next, (set_cache m (ProtoSchema.Typ conf) newRecord, w)).

Definition UpdateConfigRecord (m : configsMonitor) (w : World)
    : option (configsMonitor * World) :=
  snd <$> go.for_range UpdateConfigRecord_body IstioConfigTypes (m, w).

Definition set_ticker (m : configsMonitor) (t : option Ticker) : configsMonitor :=
  {| store := store m; period := period m; ticker := t;
     handlers := handlers m; configCachedRecord := configCachedRecord m |}.

(** The case a [select] of [run] takes: the stop channel is ready, or the
    ticker's channel delivers a tick. *)
Inductive select_case := recv_stop | recv_tick.

(** One iteration of the [for { select { ... } }] of [run]. Neither case
    holds a [return] or a [break]. *)
Definition run_body (c : select_case) (s : configsMonitor * World)
    : option (go.flow * (configsMonitor * World)) :=
  let '(m, w) := s in
  match c with
  | recv_stop =>
      (* m.ticker.Stop() *)
      _ ← ticker m;
      Some (go.Next, (set_ticker m (Some {| armed := false |}), w))
  | recv_tick =>
      s' ← UpdateConfigRecord m w;
      Some (go.Next, s')
  end.

(** [run], along the cases its successive selects take: [go.Return] if the
    function has returned by the end of [sched], [go.Next] if it is still
    in its loop. *)
Definition run (sched : list select_case) (m : configsMonitor) (w : World)
    : option (go.flow * (configsMonitor * World)) :=
  go.for_range run_body sched (m, w).

Definition Start (sched : list select_case) (m : configsMonitor) (w : World)
    : option (go.flow * (configsMonitor * World)) :=
  (* m.ticker = time.NewTicker(m.period) *)
  run sched (set_ticker m (Some {| armed := true |})) w.

(** *** The compare step as an edit script

    [edit_script] is the three-way merge the cursor loop of
    [compareToCache] performs, by recursion on the two sequences, with
    the loop's own test of [reflect.DeepEqual]; it is proved below to be
    what the loop hands to [applyHandlers], in order. *)

Fixpoint edit_script (oldRec newRec : Configs) : list (Config * Event) :=
  match oldRec with
  | [] => (λ n, (n, EventAdd)) <$> newRec
  | o :: os =>
      (fix scan (newRec : Configs) : list (Config * Event) :=
         match newRec with
         | [] => (λ o, (o, EventDelete)) <$> (o :: os)
         | n :: ns =>
             if Config_DeepEqual o n then edit_script os ns
             else if decide (Config.Key o = Config.Key n) then
               (n, EventUpdate) :: edit_script os ns
             else if String.ltb (Config.Key o) (Config.Key n) then
               (o, EventDelete) :: edit_script os (n :: ns)
             else (n, EventAdd) :: scan ns
         end) newRec
  end.

(** Handing a sequence of events to the handlers of [typ], in order. *)
Definition dispatch (m : configsMonitor) (typ : string)
    (evs : list (Config * Event)) (w : World) : World :=
  foldl (λ w ev, applyHandlers m typ ev.1 ev.2 w) w evs.

Lemma edit_script_cons_cons o os n ns :
  edit_script (o :: os) (n :: ns) =
    if Config_DeepEqual o n then edit_script os ns
    else if decide (Config.Key o = Config.Key n) then
      (n, EventUpdate) :: edit_script os ns
    else if String.ltb (Config.Key o) (Config.Key n) then
      (o, EventDelete) :: edit_script os (n :: ns)
    else (n, EventAdd) :: edit_script (o :: os) ns.
Proof. reflexivity. Qed.

Lemma edit_script_nil_r oldRec :
  edit_script oldRec [] = (λ o, (o, EventDelete)) <$> oldRec.
Proof. by destruct oldRec. Qed.

Lemma dispatch_app m typ evs1 evs2 w :
  dispatch m typ (evs1 ++ evs2) w = dispatch m typ evs2 (dispatch m typ evs1 w).
Proof. unfold dispatch. by rewrite foldl_app. Qed.

Lemma apply_from_dispatch m typ (rec : Configs) e i w :
  0 ≤ i →
  apply_from m typ rec e i w =
    Some (dispatch m typ ((λ c, (c, e)) <$> drop (Z.to_nat i) rec) w).
Proof.
  unfold apply_from. intros Hi.
  remember (Z.to_nat (go.len rec - i)) as k eqn:Hk.
  revert i w Hi Hk. induction k as [|k IH]; intros i w Hi Hk.
  - rewrite seqZ_nil by lia. rewrite go.drop_len by lia. done.
  - rewrite seqZ_cons by lia. simpl.
    destruct (go.index_drop rec i) as (c & Hc & Hd); [lia..|].
    rewrite Hc, Hd. simpl.
    replace (Z.pred (go.len rec - i)) with (go.len rec - Z.succ i) by lia.
    rewrite IH by lia. by replace (Z.succ i) with (i + 1) by lia.
Qed.

(** The cursor loop followed by the two trailing loops, started at
    cursors [io], [in_] with enough fuel, dispatches exactly the edit
    script of the two remaining suffixes: it neither panics nor runs out
    of fuel. *)
Lemma compare_loop_edit_script m typ (oldRec newRec : Configs) fuel io in_ w :
  0 ≤ io ≤ go.len oldRec → 0 ≤ in_ ≤ go.len newRec →
  (go.len oldRec - io) + (go.len newRec - in_) ≤ Z.of_nat fuel →
  ('(io, in_, w) ← compare_loop fuel m typ oldRec newRec io in_ w;
   w ← apply_from m typ oldRec EventDelete io w;
   apply_from m typ newRec EventAdd in_ w)
  = Some (dispatch m typ
            (edit_script (drop (Z.to_nat io) oldRec) (drop (Z.to_nat in_) newRec)) w).
Proof.
  revert io in_ w. induction fuel as [|fuel IH]; intros io in_ w Hio Hin Hfuel.
  - simpl. rewrite decide_False by lia. simpl.
    rewrite !apply_from_dispatch by lia. simpl.
    rewrite apply_from_dispatch by lia.
    assert (io = go.len oldRec ∧ in_ = go.len newRec) as [-> ->] by lia.
    by rewrite !go.drop_len by lia.
  - simpl. case_decide as Hg.
    + destruct Hg as [Ho Hn].
      destruct (go.index_drop oldRec io) as (o & -> & Hdo); [lia..|].
      destruct (go.index_drop newRec in_) as (n & -> & Hdn); [lia..|].
      simpl. rewrite Hdo, Hdn, edit_script_cons_cons.
      destruct (Config_DeepEqual o n); [by rewrite IH by lia|].
      destruct (decide (Config.Key o = Config.Key n)) as [_|_];
        [by rewrite IH by lia|].
      destruct (String.ltb (Config.Key o) (Config.Key n)).
      * rewrite IH by lia.
        replace (in_ - 1 + 1) with in_ by lia. by rewrite Hdn.
      * rewrite IH by lia.
        replace (io - 1 + 1) with io by lia. by rewrite Hdo.
    + simpl. rewrite !apply_from_dispatch by lia. simpl.
      rewrite apply_from_dispatch by lia. f_equal.
      rewrite <-dispatch_app.
      destruct (decide (io < go.len oldRec)).
      * rewrite (go.drop_len newRec) by lia.
        by rewrite edit_script_nil_r, app_nil_r.
      * by rewrite (go.drop_len oldRec) by lia.
Qed.

Lemma compareToCache_dispatch m typ (oldRec newRec : Configs) w :
  compareToCache m typ oldRec newRec w
  = Some (dispatch m typ (edit_script oldRec newRec) w).
Proof.
  unfold compareToCache.
  rewrite (compare_loop_edit_script m typ oldRec newRec) by (unfold go.len; lia).
  done.
Qed.

(** *** Snapshots and replay

    A snapshot is key-sorted when its keys ascend; with unique keys they
    ascend strictly. Replaying an event on a snapshot is what the event
    announces: [EventAdd] puts the record at its key position,
    [EventUpdate] replaces the record of that key, [EventDelete] removes
    it. *)

Definition key_le (a b : Config) : Prop := String.le (Config.Key a) (Config.Key b).
Definition key_lt (a b : Config) : Prop := gostring.lt (Config.Key a) (Config.Key b).

Definition key_sorted (l : Configs) : Prop := Sorted key_le l.
Definition unique_keys (l : Configs) : Prop := NoDup (Config.Key <$> l).
Definition strictly_sorted (l : Configs) : Prop := StronglySorted key_lt l.




#[local] Instance key_lt_trans : Transitive key_lt.
Proof. intros a b c. unfold key_lt, gostring.lt. apply gostring.ltb_trans. Qed.

#[local] Instance key_le_trans : Transitive key_le.
Proof. intros a b c. unfold key_le. apply transitivity. Qed.

Lemma key_lt_ne a b : key_lt a b → Config.Key a ≠ Config.Key b.
Proof. unfold key_lt, gostring.lt. intros H1 E. rewrite E, gostring.ltb_irrefl in H1. done. Qed.

Lemma key_sorted_strict (l : Configs) :
  key_sorted l → unique_keys l → strictly_sorted l.
Proof.
  unfold key_sorted, unique_keys, strictly_sorted. intros Hs%Sorted_StronglySorted; [|apply _].
  induction Hs as [|a l Hs IH Hall]; intros Hnd; [constructor|].
  rewrite fmap_cons in Hnd. apply NoDup_cons in Hnd as [Hnotin Hnd].
  constructor; [by apply IH|].
  apply Forall_forall. intros x Hx. rewrite Forall_forall in Hall.
  apply gostring.ltb_le_ne. split; [by apply Hall|].
  intros E. apply Hnotin. rewrite E. by apply list_elem_of_fmap_2.
Qed.

Lemma strictly_sorted_sorted (l : Configs) :
  strictly_sorted l → key_sorted l ∧ unique_keys l.
Proof.
  unfold key_sorted, unique_keys, strictly_sorted.
  induction 1 as [|a l Hs [IH1 IH2] Hall]; [split; constructor|].
  rewrite Forall_forall in Hall. split.
  - apply StronglySorted_Sorted. constructor.
    + apply Sorted_StronglySorted; [apply _|done].
    + apply Forall_forall. intros x Hx. by apply gostring.ltb_le_ne, Hall.
  - rewrite fmap_cons. apply NoDup_cons. split; [|done].
    intros (x & E & Hx)%list_elem_of_fmap. by apply (key_lt_ne a x); [apply Hall|].
Qed.

(** *** The minimal edit script

    [minimal_script] is the three-way merge in which two records are
    unchanged when they are equal. The compare step computes it on the
    records on which [reflect.DeepEqual] decides equality. *)

Fixpoint minimal_script (oldRec newRec : Configs) : list (Config * Event) :=
  match oldRec with
  | [] => (λ n, (n, EventAdd)) <$> newRec
  | o :: os =>
      (fix scan (newRec : Configs) : list (Config * Event) :=
         match newRec with
         | [] => (λ o, (o, EventDelete)) <$> (o :: os)
         | n :: ns =>
             if decide (o = n) then minimal_script os ns
             else if decide (Config.Key o = Config.Key n) then
               (n, EventUpdate) :: minimal_script os ns
             else if String.ltb (Config.Key o) (Config.Key n) then
               (o, EventDelete) :: minimal_script os (n :: ns)
             else (n, EventAdd) :: scan ns
         end) newRec
  end.

Lemma minimal_script_cons_cons o os n ns :
  minimal_script (o :: os) (n :: ns) =
    if decide (o = n) then minimal_script os ns
    else if decide (Config.Key o = Config.Key n) then
      (n, EventUpdate) :: minimal_script os ns
    else if String.ltb (Config.Key o) (Config.Key n) then
      (o, EventDelete) :: minimal_script os (n :: ns)
    else (n, EventAdd) :: minimal_script (o :: os) ns.
Proof. reflexivity. Qed.

Lemma minimal_script_nil_r oldRec :
  minimal_script oldRec [] = (λ o, (o, EventDelete)) <$> oldRec.
Proof. by destruct oldRec. Qed.

(** [reflect.DeepEqual] decides equality between the records of two
    sequences: it holds of a payload of the first sequence and a payload
    of the second exactly when they are the same payload. *)
Definition DeepEqual_decides (oldRec newRec : Configs) : Prop :=
  ∀ o n, o ∈ oldRec → n ∈ newRec →
    (reflect_DeepEqual (Config.Content o) (Config.Content n) = true
     ↔ Config.Content o = Config.Content n).

Lemma Config_DeepEqual_decide (o n : Config) :
  (reflect_DeepEqual (Config.Content o) (Config.Content n) = true
   ↔ Config.Content o = Config.Content n) →
  Config_DeepEqual o n = bool_decide (o = n).
Proof.
  intros Hd. unfold Config_DeepEqual. destruct o as [t1 k1 r1 c1], n as [t2 k2 r2 c2].
  simpl in *. apply eq_true_iff_eq.
  rewrite !andb_true_iff, !bool_decide_eq_true, Hd. split.
  - by intros [[[-> ->] ->] ->].
  - by intros [= -> -> -> ->].
Qed.

Lemma edit_script_minimal (oldRec newRec : Configs) :
  DeepEqual_decides oldRec newRec →
  edit_script oldRec newRec = minimal_script oldRec newRec.
Proof.
  revert newRec. induction oldRec as [|o os IHo]; intros newRec Hd; [done|].
  induction newRec as [|n ns IHn]; [done|].
  rewrite edit_script_cons_cons, minimal_script_cons_cons.
  rewrite Config_DeepEqual_decide by (apply Hd; by left).
  rewrite (IHo ns) by (intros ????; apply Hd; by right).
  rewrite (IHo (n :: ns)) by (intros ????; apply Hd; [by right|done]).
  rewrite IHn by (intros ????; apply Hd; [done|by right]).
  by destruct (decide (o = n)); [rewrite bool_decide_eq_true_2|rewrite bool_decide_eq_false_2].
Qed.



(** Sortedness bookkeeping around a processed prefix [done]. *)















Lemma strictly_sorted_cons_inv (x : Config) (l : Configs) :
  strictly_sorted (x :: l) →
  strictly_sorted l ∧ ∀ y, y ∈ l → key_lt x y.
Proof.
  unfold strictly_sorted. rewrite StronglySorted_cons, Forall_forall. naive_solver.
Qed.



(** *** A listing that fails *)

(** When [List] errors for a kind, the iteration leaves the cache and the
    world as they are, and executes [return]. *)
Lemma UpdateConfigRecord_body_error conf m w configs e :
  List (store m) (ProtoSchema.Typ conf) = (configs, Some e) →
  UpdateConfigRecord_body conf (m, w) = Some (go.Return, (m, w)).
Proof. unfold UpdateConfigRecord_body. intros ->. by rewrite decide_True. Qed.

Lemma UpdateConfigRecord_body_store conf s fl s' :
  UpdateConfigRecord_body conf s = Some (fl, s') → store s'.1 = store s.1.
Proof.
  destruct s as [m w]. unfold UpdateConfigRecord_body.
  destruct (List (store m) (ProtoSchema.Typ conf)) as [configs err].
  case_decide; [by intros [= <- <-]|].
  destruct (compareToCache _ _ _ _ _); simpl; [|done]. by intros [= <- <-].
Qed.

(** A tick whose listing fails at the kind [conf] is the tick over the
    kinds before [conf] only: the kinds after it are not visited. *)
Lemma UpdateConfigRecord_stops_at_error before conf after m w configs e :
  IstioConfigTypes = before ++ conf :: after →
  List (store m) (ProtoSchema.Typ conf) = (configs, Some e) →
  UpdateConfigRecord m w = snd <$> go.for_range UpdateConfigRecord_body before (m, w).
Proof.
  intros Heq HList. unfold UpdateConfigRecord. rewrite Heq, go.for_range_app.
  destruct (go.for_range UpdateConfigRecord_body before (m, w)) as [[fl [m1 w1]]|] eqn:E;
    [|done].
  destruct fl; cbn [mbind option_bind]; [|done].
  assert (store m1 = store m) as Hst.
  { apply (go.for_range_invariant (λ s, store s.1 = store m)) in E; [done| |done].
    intros x s fl s2 Hs Hb. apply UpdateConfigRecord_body_store in Hb. congruence. }
  cbn [go.for_range].
  rewrite (UpdateConfigRecord_body_error conf m1 w1 configs e) by (by rewrite Hst).
  done.
Qed.

(** *** Ticks never panic, and [run] has no way out *)

Lemma UpdateConfigRecord_body_is_Some conf s :
  is_Some (UpdateConfigRecord_body conf s).
Proof.
  destruct s as [m w]. unfold UpdateConfigRecord_body.
  destruct (List (store m) (ProtoSchema.Typ conf)) as [configs err].
  case_decide; [done|]. by rewrite compareToCache_dispatch.
Qed.

Lemma UpdateConfigRecord_is_Some m w : is_Some (UpdateConfigRecord m w).
Proof.
  unfold UpdateConfigRecord. apply fmap_is_Some, go.for_range_is_Some.
  apply UpdateConfigRecord_body_is_Some.
Qed.

Lemma UpdateConfigRecord_body_ticker conf s fl s' :
  UpdateConfigRecord_body conf s = Some (fl, s') → ticker s'.1 = ticker s.1.
Proof.
  destruct s as [m w]. unfold UpdateConfigRecord_body.
  destruct (List (store m) (ProtoSchema.Typ conf)) as [configs err].
  case_decide; [by intros [= <- <-]|].
  rewrite compareToCache_dispatch. simpl. by intros [= <- <-].
Qed.

Lemma UpdateConfigRecord_ticker m w s' :
  UpdateConfigRecord m w = Some s' → ticker s'.1 = ticker m.
Proof.
  unfold UpdateConfigRecord. intros ([fl s''] & E & ->)%fmap_Some. simpl.
  apply (go.for_range_invariant (λ s, ticker s.1 = ticker m)) in E; [done| |done].
  intros x s fl' s1 Hs Hb. apply UpdateConfigRecord_body_ticker in Hb. congruence.
Qed.

Lemma run_body_spec c s :
  is_Some (ticker s.1) →
  ∃ s', run_body c s = Some (go.Next, s') ∧ is_Some (ticker s'.1).
Proof.
  destruct s as [m w]. simpl. intros [t Ht]. destruct c; simpl.
  - rewrite Ht. simpl. eauto.
  - destruct (UpdateConfigRecord_is_Some m w) as [s' E]. rewrite E. simpl.
    exists s'. split; [done|]. apply UpdateConfigRecord_ticker in E. by rewrite E, Ht.
Qed.

Lemma for_range_run_body sched s :
  is_Some (ticker s.1) → ∃ s', go.for_range run_body sched s = Some (go.Next, s').
Proof.
  revert s. induction sched as [|c sched IH]; intros s Hs; simpl; [eauto|].
  destruct (run_body_spec c s Hs) as (s' & -> & Hs'). simpl. by apply IH.
Qed.

(** C3 fails on the code: [run] handles the stop signal by disarming the
    ticker and goes round its loop again. Whatever the selects took before
    and after the stop case, [Start] is still in the loop, with the ticker
    disarmed right after the stop case. *)
Theorem Start_stop_does_not_exit (before after : list select_case)
    (m : configsMonitor) (w : World) :
  (∃ s', Start (before ++ [recv_stop]) m w = Some (go.Next, s') ∧
         ticker s'.1 = Some {| armed := false |}) ∧
  (∃ s', Start (before ++ recv_stop :: after) m w = Some (go.Next, s')).
Proof.
  unfold Start, run. split; [|by apply for_range_run_body].
  rewrite go.for_range_app.
  destruct (for_range_run_body before
              (set_ticker m (Some {| armed := true |}), w)) as ([m1 w1] & E); [done|].
  rewrite E. simpl.
  assert (is_Some (ticker m1)) as [t Ht].
  { destruct (for_range_run_body (before ++ [recv_stop])
              (set_ticker m (Some {| armed := true |}), w)) as (s2 & E2); [done|].
    rewrite go.for_range_app, E in E2. simpl in E2.
    destruct (ticker m1); [done|discriminate]. }
  rewrite Ht. simpl. eauto.
Qed.

(** *** The cache holds key-sorted snapshots *)

Definition set_store (m : configsMonitor) (st : ConfigStore) : configsMonitor :=
  {| store := st; period := period m; ticker := ticker m;
     handlers := handlers m; configCachedRecord := configCachedRecord m |}.

(** The states a monitor goes through: built by [NewConfigsMonitor], then
    handlers are appended, the ticker is armed or disarmed, the backing
    store changes its contents, and ticks run the loop body of
    [UpdateConfigRecord] on registered kinds, one iteration at a time. *)
Inductive reachable : configsMonitor → Prop :=
| reachable_new st p : reachable (NewConfigsMonitor st p)
| reachable_append m typ h : reachable m → reachable (AppendEventHandler m typ h)
| reachable_ticker m t : reachable m → reachable (set_ticker m t)
| reachable_store m st : reachable m → reachable (set_store m st)
| reachable_body m w conf fl m' w' :
  reachable m → conf ∈ IstioConfigTypes →
  UpdateConfigRecord_body conf (m, w) = Some (fl, (m', w')) →
  reachable m'.

Lemma NewConfigsMonitor_cache st p typ :
  configCachedRecord (NewConfigsMonitor st p) !! typ =
    if decide (typ ∈ ProtoSchema.Typ <$> IstioConfigTypes) then Some [] else None.
Proof.
  unfold NewConfigsMonitor.
  assert (∀ (l : ConfigDescriptor Message) (c0 : gmap string Configs)
            (h0 : gmap string (list Handler)),
            (foldl (λ '(cache, handlers) conf,
                      (<[ProtoSchema.Typ conf := []]> cache,
                       <[ProtoSchema.Typ conf := []]> handlers)) (c0, h0) l).1 !! typ
            = if decide (typ ∈ ProtoSchema.Typ <$> l) then Some [] else c0 !! typ) as Hfold.
  { induction l as [|conf l IH]; intros c0 h0; cbn [foldl].
    - rewrite decide_False; [done|]. rewrite fmap_nil. apply not_elem_of_nil.
    - rewrite IH, fmap_cons.
      destruct (decide (typ ∈ ProtoSchema.Typ <$> l)) as [Hl|Hl];
        destruct (decide (typ ∈ ProtoSchema.Typ conf :: (ProtoSchema.Typ <$> l)))
          as [Hc|Hc]; try done.
      + destruct Hc. by right.
      + apply elem_of_cons in Hc as [->|?]; [|done]. by rewrite lookup_insert_eq.
      + rewrite lookup_insert_ne; [done|]. intros <-. apply Hc. by left. }
  specialize (Hfold IstioConfigTypes ∅ ∅).
  destruct (foldl _ _ _) as [c h]. simpl in *. rewrite Hfold.
  by case_decide.
Qed.

Lemma UpdateConfigRecord_reachable m w s' :
  reachable m → UpdateConfigRecord m w = Some s' → reachable s'.1.
Proof.
  unfold UpdateConfigRecord. intros Hm ([fl s''] & E & ->)%fmap_Some. simpl.
  assert (∀ l, l ⊆ IstioConfigTypes → ∀ s r,
            reachable s.1 → go.for_range UpdateConfigRecord_body l s = Some r →
            reachable r.2.1) as Hloop.
  { induction l as [|conf l IH]; intros Hl s r Hs; simpl.
    - by intros [= <-].
    - destruct (UpdateConfigRecord_body conf s) as [[[] [m1 w1]]|] eqn:Eb; simpl; [| |done].
      + apply IH; [set_solver|]. destruct s. eapply reachable_body; [done| |done]. set_solver.
      + intros [= <-]. destruct s. eapply reachable_body; [done| |done]. set_solver. }
  by apply (Hloop IstioConfigTypes (reflexivity _) (m, w) (fl, s'')).
Qed.

Lemma cached_set_cache m typ rec typ' :
  cached (set_cache m typ rec) typ' = if decide (typ = typ') then rec else cached m typ'.
Proof.
  unfold cached, set_cache. simpl. case_decide as E.
  - subst. by rewrite lookup_insert_eq.
  - by rewrite lookup_insert_ne.
Qed.

Section sorted_cache.
Hypothesis sort_Slice_ok : go.sort_Slice_contract sort_Slice.

Lemma key_less_StrictWeakOrder :
  go.StrictWeakOrder (λ a b : Config, String.ltb (Config.Key a) (Config.Key b)).
Proof.
  split.
  - intros a. apply gostring.ltb_irrefl.
  - intros a b c. apply gostring.ltb_trans.
  - intros a b c Hab%gostring.nlt_le Hbc%gostring.nlt_le.
    apply gostring.nlt_le. by etrans.
Qed.

Lemma normalize_key_sorted (l : Configs) : key_sorted (normalize l).
Proof.
  destruct (sort_Slice_ok _ l key_less_StrictWeakOrder) as [_ Hs].
  unfold key_sorted, normalize. eapply go.Sorted_weaken; [|exact Hs].
  intros a b Hba. by apply gostring.nlt_le.
Qed.

Lemma normalize_Permutation (l : Configs) : normalize l ≡ₚ l.
Proof. by destruct (sort_Slice_ok _ l key_less_StrictWeakOrder) as [Hp _]. Qed.

(** C10. The cache of a monitor is key-sorted for every kind in every
    state it goes through: every registered kind starts with an empty
    snapshot, every iteration of a tick that stores a snapshot stores the
    listing normalized by the key-ascending sort, and so the compare step,
    which is handed the cached snapshot as its old sequence, always
    receives a key-sorted one (and a key-sorted new one). *)
Theorem cache_key_sorted (m : configsMonitor) :
  reachable m →
  (∀ typ, key_sorted (cached m typ)) ∧
  (∀ st p conf, conf ∈ IstioConfigTypes →
     configCachedRecord (NewConfigsMonitor st p) !! ProtoSchema.Typ conf = Some []) ∧
  (∀ conf w configs,
     List (store m) (ProtoSchema.Typ conf) = (configs, None) →
     ∃ oldRec newRec,
       key_sorted oldRec ∧ key_sorted newRec ∧ newRec ≡ₚ configs ∧
       UpdateConfigRecord_body conf (m, w) =
         (w' ← compareToCache m (ProtoSchema.Typ conf) oldRec newRec w;
          Some (go.Next, (set_cache m (ProtoSchema.Typ conf) newRec, w')))).
Proof.
  intros Hm.
  assert (∀ typ, key_sorted (cached m typ)) as Hinv.
  { induction Hm as [st p|m typ h _ IH|m t _ IH|m st _ IH|m w conf fl m' w' _ IH _ Hb];
      try exact IH.
    - intros typ. unfold cached. rewrite NewConfigsMonitor_cache.
      case_decide; constructor.
    - unfold UpdateConfigRecord_body in Hb.
      destruct (List (store m) (ProtoSchema.Typ conf)) as [configs err].
      case_decide; [by injection Hb as <- <- <-|].
      rewrite compareToCache_dispatch in Hb. simpl in Hb. injection Hb as <- <- <-.
      intros typ. rewrite cached_set_cache. case_decide; [|done].
      apply normalize_key_sorted. }
  split; [exact Hinv|]. split.
  - intros st p conf Hconf. rewrite NewConfigsMonitor_cache.
    rewrite decide_True; [done|]. by apply list_elem_of_fmap_2.
  - intros conf w configs HList.
    exists (cached m (ProtoSchema.Typ conf)), (normalize configs).
    split; [done|]. split; [apply normalize_key_sorted|].
    split; [apply normalize_Permutation|].
    unfold UpdateConfigRecord_body. rewrite HList. by rewrite decide_False by (by intros ?).
Qed.

End sorted_cache.

(** *** What one tick does to the cache and to the subscribers *)

Lemma edit_script_same (l : Configs) :
  (∀ c, c ∈ l → reflect_DeepEqual (Config.Content c) (Config.Content c) = true) →
  edit_script l l = [].
Proof.
  induction l as [|c l IH]; intros Hrefl; [done|].
  rewrite edit_script_cons_cons. unfold Config_DeepEqual.
  rewrite !bool_decide_eq_true_2 by done. rewrite (Hrefl c) by left.
  cbn [andb]. apply IH. intros c' Hc'. apply Hrefl. by right.
Qed.

Lemma dispatch_handlers m1 m2 typ evs w :
  handlers m1 = handlers m2 → dispatch m1 typ evs w = dispatch m2 typ evs w.
Proof. intros Hh. unfold dispatch, applyHandlers, handlers_of. by rewrite Hh. Qed.

(** The events of a tick for one kind: the compare step run on the
    cached snapshot and the normalized listing. *)
Definition tick_events (m : configsMonitor) (typ : string) : list (Config * Event) :=
  edit_script (cached m typ) (normalize (List (store m) typ).1).

Lemma UpdateConfigRecord_body_listed conf m w configs :
  List (store m) (ProtoSchema.Typ conf) = (configs, None) →
  UpdateConfigRecord_body conf (m, w) =
    Some (go.Next,
          (set_cache m (ProtoSchema.Typ conf) (normalize configs),
           dispatch m (ProtoSchema.Typ conf)
             (edit_script (cached m (ProtoSchema.Typ conf)) (normalize configs)) w)).
Proof.
  unfold UpdateConfigRecord_body. intros ->.
  rewrite decide_False by (by intros ?).
  by rewrite compareToCache_dispatch.
Qed.

Lemma UpdateConfigRecord_loop (l : ConfigDescriptor Message) m m0 w0 :
  store m0 = store m → handlers m0 = handlers m →
  (∀ conf, conf ∈ l → (List (store m) (ProtoSchema.Typ conf)).2 = None) →
  NoDup (ProtoSchema.Typ <$> l) →
  (∀ conf, conf ∈ l → cached m0 (ProtoSchema.Typ conf) = cached m (ProtoSchema.Typ conf)) →
  ∃ m',
    go.for_range UpdateConfigRecord_body l (m0, w0) =
      Some (go.Next,
            (m', foldl (λ w conf, dispatch m (ProtoSchema.Typ conf)
                                    (tick_events m (ProtoSchema.Typ conf)) w) w0 l)) ∧
    handlers m' = handlers m ∧
    ∀ typ, cached m' typ =
             if decide (typ ∈ ProtoSchema.Typ <$> l)
             then normalize (List (store m) typ).1 else cached m0 typ.
Proof.
  revert m0 w0. induction l as [|conf l IH]; intros m0 w0 Hst Hh Herr Hnd Hc.
  - exists m0. split; [done|]. split; [done|]. intros typ.
    rewrite decide_False; [done|]. rewrite fmap_nil. apply not_elem_of_nil.
  - rewrite fmap_cons in Hnd. apply NoDup_cons in Hnd as [Hnotin Hnd].
    pose proof (Herr conf (list_elem_of_here _ _)) as Herr0.
    destruct (List (store m) (ProtoSchema.Typ conf)) as [configs err] eqn:EL.
    simpl in Herr0. subst err.
    cbn [go.for_range].
    rewrite (UpdateConfigRecord_body_listed conf m0 w0 configs) by (by rewrite Hst).
    cbn [mbind option_bind].
    destruct (IH (set_cache m0 (ProtoSchema.Typ conf) (normalize configs))
                (dispatch m0 (ProtoSchema.Typ conf)
                   (edit_script (cached m0 (ProtoSchema.Typ conf)) (normalize configs)) w0))
      as (m' & Hrun & Hh' & Hc'); try done.
    { intros c Hcl. apply Herr. by right. }
    { intros c Hcl. rewrite cached_set_cache, decide_False.
      - apply Hc. by right.
      - intros E. apply Hnotin. rewrite E. by apply list_elem_of_fmap_2. }
    exists m'. split; [|split; [done|]].
    + rewrite Hrun. cbn [foldl]. unfold tick_events. rewrite EL. simpl.
      rewrite (Hc conf) by left. by rewrite (dispatch_handlers m0 m).
    + intros typ. rewrite Hc', cached_set_cache, fmap_cons.
      destruct (decide (typ ∈ ProtoSchema.Typ <$> l)) as [Hl|Hl].
      * rewrite decide_True; [done|]. by right.
      * destruct (decide (ProtoSchema.Typ conf = typ)) as [<-|Hne].
        -- rewrite decide_True by left. by rewrite EL.
        -- rewrite decide_False; [done|]. intros [->|?]%elem_of_cons; done.
Qed.

Lemma compare_steps_dispatch (l : ConfigDescriptor Message) m w :
  foldl (λ acc conf,
           w ← acc;
           compareToCache m (ProtoSchema.Typ conf) (cached m (ProtoSchema.Typ conf))
             (normalize (List (store m) (ProtoSchema.Typ conf)).1) w)
        (Some w) l
  = Some (foldl (λ w conf, dispatch m (ProtoSchema.Typ conf)
                             (tick_events m (ProtoSchema.Typ conf)) w) w l).
Proof.
  revert w. induction l as [|conf l IH]; intros w; cbn [foldl]; [done|].
  cbn [mbind option_bind]. rewrite compareToCache_dispatch. apply IH.
Qed.

(** X17. A tick in which every listing succeeds, over registered kinds
    with distinct names, returns, and the kinds do not interfere: the
    subscribers are handed what the compare steps of the kinds hand
    them, one kind after the other in registration order, each step
    comparing the snapshot cached before the tick with the normalized
    listing of its kind. Afterwards the cache of every registered kind
    is its normalized listing, the cache of any other kind is untouched,
    and the handlers are those of before. *)
Theorem UpdateConfigRecord_successful_tick (m : configsMonitor) (w : World) :
  NoDup (ProtoSchema.Typ <$> IstioConfigTypes) →
  (∀ conf, conf ∈ IstioConfigTypes →
     (List (store m) (ProtoSchema.Typ conf)).2 = None) →
  ∃ m' w',
    UpdateConfigRecord m w = Some (m', w') ∧
    foldl (λ acc conf,
             w ← acc;
             compareToCache m (ProtoSchema.Typ conf) (cached m (ProtoSchema.Typ conf))
               (normalize (List (store m) (ProtoSchema.Typ conf)).1) w)
          (Some w) IstioConfigTypes = Some w' ∧
    handlers m' = handlers m ∧
    ∀ typ, cached m' typ =
             if decide (typ ∈ ProtoSchema.Typ <$> IstioConfigTypes)
             then normalize (List (store m) typ).1 else cached m typ.
Proof.
  intros Hnd Herr.
  destruct (UpdateConfigRecord_loop IstioConfigTypes m m w) as (m' & Hrun & Hh & Hc);
    try done.
  exists m'. eexists. unfold UpdateConfigRecord. rewrite Hrun.
  split; [done|]. split; [|done]. apply compare_steps_dispatch.
Qed.

(** X18. A tick over listings that normalize to what is cached, where
    [reflect.DeepEqual] finds every cached payload equal to itself (no
    NaN in it): no handler is called, and the cache reads as before. *)
Theorem UpdateConfigRecord_unchanged_tick (m : configsMonitor) (w : World) :
  (∀ conf, conf ∈ IstioConfigTypes →
     ∃ configs, List (store m) (ProtoSchema.Typ conf) = (configs, None) ∧
                normalize configs = cached m (ProtoSchema.Typ conf)) →
  (∀ conf c, conf ∈ IstioConfigTypes → c ∈ cached m (ProtoSchema.Typ conf) →
     reflect_DeepEqual (Config.Content c) (Config.Content c) = true) →
  ∃ m', UpdateConfigRecord m w = Some (m', w) ∧ ∀ typ, cached m' typ = cached m typ.
Proof.
  intros Hsame Hrefl. unfold UpdateConfigRecord.
  assert (∀ (l : ConfigDescriptor Message) m0,
            l ⊆ IstioConfigTypes → store m0 = store m →
            (∀ typ, cached m0 typ = cached m typ) →
            ∃ m', go.for_range UpdateConfigRecord_body l (m0, w) = Some (go.Next, (m', w)) ∧
                  ∀ typ, cached m' typ = cached m typ) as Hloop.
  { induction l as [|conf l IH]; intros m0 Hl Hst Hc; [by exists m0|].
    destruct (Hsame conf) as (configs & HList & Hn); [set_solver|].
    cbn [go.for_range].
    rewrite (UpdateConfigRecord_body_listed conf m0 w configs) by (by rewrite Hst).
    rewrite Hn, Hc, edit_script_same
      by (intros c Hin; apply (Hrefl conf); [set_solver|done]).
    cbn [mbind option_bind dispatch foldl].
    apply IH; [set_solver|done|].
    intros typ. rewrite cached_set_cache. case_decide as E; [by rewrite <-E|apply Hc]. }
  destruct (Hloop IstioConfigTypes m) as (m' & Hrun & Hc); try done.
  exists m'. by rewrite Hrun.
Qed.

Lemma UpdateConfigRecord_body_cached conf s fl s' typ :
  UpdateConfigRecord_body conf s = Some (fl, s') →
  typ ≠ ProtoSchema.Typ conf → cached s'.1 typ = cached s.1 typ.
Proof.
  destruct s as [m w]. unfold UpdateConfigRecord_body.
  destruct (List (store m) (ProtoSchema.Typ conf)) as [configs err].
  case_decide; [by intros [= <- <-]|].
  rewrite compareToCache_dispatch. simpl. intros [= <- <-] Hne. simpl.
  rewrite cached_set_cache. by rewrite decide_False.
Qed.

(** X19. A tick whose listing fails at the kind [conf] returns there: it is
    the loop over the kinds before [conf], and the cache of [conf] and
    of every kind that is not among those before it reads as before the
    tick. *)
Theorem UpdateConfigRecord_failed_listing before conf after m w configs e :
  IstioConfigTypes = before ++ conf :: after →
  List (store m) (ProtoSchema.Typ conf) = (configs, Some e) →
  ∃ fl m' w',
    go.for_range UpdateConfigRecord_body before (m, w) = Some (fl, (m', w')) ∧
    UpdateConfigRecord m w = Some (m', w') ∧
    ∀ typ, typ ∉ ProtoSchema.Typ <$> before → cached m' typ = cached m typ.
Proof.
  intros Heq HList.
  rewrite (UpdateConfigRecord_stops_at_error before conf after m w configs e) by done.
  destruct (go.for_range_is_Some UpdateConfigRecord_body before (m, w)
              UpdateConfigRecord_body_is_Some) as [[fl [m' w']] Hrun].
  exists fl, m', w'. rewrite Hrun. split; [done|]. split; [done|].
  intros typ Htyp.
  assert (∀ (l : ConfigDescriptor Message) s r,
            typ ∉ ProtoSchema.Typ <$> l →
            go.for_range UpdateConfigRecord_body l s = Some r →
            cached r.2.1 typ = cached s.1 typ) as Hloop.
  { induction l as [|c l IH]; intros s r Hl; simpl.
    - by intros [= <-].
    - rewrite fmap_cons, not_elem_of_cons in Hl. destruct Hl as [Hc Hl].
      destruct (UpdateConfigRecord_body c s) as [[[] s1]|] eqn:Eb; simpl; [| |done].
      + intros Hr. rewrite (IH s1 r Hl Hr).
        by apply (UpdateConfigRecord_body_cached c s go.Next s1).
      + intros [= <-]. simpl. by apply (UpdateConfigRecord_body_cached c s go.Return s1). }
  apply (Hloop before (m, w) (fl, (m', w')) Htyp Hrun).
Qed.

(** *** Handlers are called in registration order, kind by kind *)

Lemma handlers_of_AppendEventHandler m typ h typ' :
  handlers_of (AppendEventHandler m typ h) typ' =
    if decide (typ' = typ) then handlers_of m typ ++ [h] else handlers_of m typ'.
Proof.
  unfold AppendEventHandler, handlers_of at 1. simpl. case_decide as E.
  - subst. by rewrite lookup_insert_eq.
  - by rewrite lookup_insert_ne.
Qed.

(** X20. After the handlers [hs] have been appended for the kind [typ],
    one after the other, an event of kind [typ] goes through the
    handlers registered before and then through [hs] in the order they
    were appended; an event of another kind goes through the same
    handlers as before. *)
Theorem handlers_run_in_registration_order (m : configsMonitor) (typ : string)
    (hs : list Handler) (typ' : string) (config : Config) (e : Event) (w : World) :
  applyHandlers (foldl (λ m h, AppendEventHandler m typ h) m hs) typ' config e w =
    if decide (typ' = typ)
    then foldl (λ w h, h config e w) (applyHandlers m typ config e w) hs
    else applyHandlers m typ' config e w.
Proof.
  revert w. induction hs as [|h hs IH] using rev_ind; intros w.
  - simpl. by case_decide as E; [rewrite E|].
  - rewrite !foldl_app. cbn [foldl]. unfold applyHandlers at 1.
    rewrite handlers_of_AppendEventHandler. case_decide as E.
    + subst typ'. rewrite !foldl_app. cbn [foldl]. f_equal. apply IH.
    + apply IH.
Qed.

Lemma NewConfigsMonitor_handlers st p typ :
  handlers_of (NewConfigsMonitor st p) typ = [].
Proof.
  unfold handlers_of, NewConfigsMonitor.
  assert (∀ (l : ConfigDescriptor Message) (c0 : gmap string Configs)
            (h0 : gmap string (list Handler)),
            default [] (h0 !! typ) = [] →
            default [] ((foldl (λ '(cache, handlers) conf,
                      (<[ProtoSchema.Typ conf := []]> cache,
                       <[ProtoSchema.Typ conf := []]> handlers)) (c0, h0) l).2 !! typ)
            = []) as Hfold.
  { induction l as [|conf l IH]; intros c0 h0 H0; cbn [foldl]; [done|].
    apply IH. destruct (decide (ProtoSchema.Typ conf = typ)) as [<-|Hne].
    - by rewrite lookup_insert_eq.
    - by rewrite lookup_insert_ne. }
  specialize (Hfold IstioConfigTypes ∅ ∅).
  destruct (foldl _ _ _) as [c h]. simpl in *. apply Hfold.
  by rewrite lookup_empty.
Qed.

(** X21. A monitor as [NewConfigsMonitor] builds it has no subscriber,
    for a registered kind or for any other: an event goes through no
    handler, and a tick never panics and leaves the world as it is,
    whatever the store lists. *)
Theorem NewConfigsMonitor_no_subscriber (st : ConfigStore) (p : Z) :
  (∀ typ config e (w : World),
     applyHandlers (NewConfigsMonitor st p) typ config e w = w) ∧
  (∀ w, ∃ m', UpdateConfigRecord (NewConfigsMonitor st p) w = Some (m', w)).
Proof.
  split.
  - intros typ config e w. unfold applyHandlers. by rewrite NewConfigsMonitor_handlers.
  - intros w. unfold UpdateConfigRecord.
    assert (∀ m0 t evs, handlers_of m0 t = [] → dispatch m0 t evs w = w) as Hd.
    { intros m0 t evs H0. unfold dispatch, applyHandlers. rewrite H0.
      induction evs as [|ev evs IH]; [done|]. by simpl. }
    destruct (UpdateConfigRecord_is_Some (NewConfigsMonitor st p) w) as [[m' w'] Hrun].
    unfold UpdateConfigRecord in Hrun. apply fmap_Some in Hrun as ([fl s] & Hrun & Hs).
    simpl in Hs. subst s.
    apply (go.for_range_invariant
             (λ s, s.2 = w ∧ handlers s.1 = handlers (NewConfigsMonitor st p))) in Hrun
      as Hinv; [| |done].
    + simpl in Hinv. destruct Hinv as [-> _]. exists m'. by rewrite Hrun.
    + intros conf [m0 w0] fl' [m1 w1] [Hw Hh]. simpl in Hw, Hh. subst w0.
      unfold UpdateConfigRecord_body.
      destruct (List (store m0) (ProtoSchema.Typ conf)) as [configs err].
      case_decide; [by intros [= <- <- <-]|].
      rewrite compareToCache_dispatch. simpl. intros [= <- <- <-]. simpl.
      split; [|done]. apply Hd. unfold handlers_of. rewrite Hh.
      apply NewConfigsMonitor_handlers.
Qed.

(** *** Which events a compare step announces *)

(** What justifies an event on the record [c] between two snapshots. *)
Definition announced (oldRec newRec : Configs) (c : Config) (e : Event) : Prop :=
  match e with
  | EventAdd => c ∈ newRec ∧ Config.Key c ∉ Config.Key <$> oldRec
  | EventUpdate => c ∈ newRec ∧ c ∉ oldRec ∧ Config.Key c ∈ Config.Key <$> oldRec
  | EventDelete => c ∈ oldRec ∧ Config.Key c ∉ Config.Key <$> newRec
  end.

Lemma minimal_script_announced (oldRec newRec : Configs) :
  strictly_sorted oldRec → strictly_sorted newRec →
  ∀ c e, (c, e) ∈ minimal_script oldRec newRec ↔ announced oldRec newRec c e.
Proof.
  revert newRec. induction oldRec as [|o os IHo]; intros newRec Ho Hn c e.
  - simpl. rewrite list_elem_of_fmap. unfold announced.
    destruct e; set_unfold; naive_solver.
  - induction newRec as [|n ns IHn].
    + rewrite minimal_script_nil_r, list_elem_of_fmap. unfold announced.
      destruct e; set_unfold; naive_solver.
    + apply strictly_sorted_cons_inv in Ho as Ho'. destruct Ho' as [Hos Ho'].
      apply strictly_sorted_cons_inv in Hn as Hn'. destruct Hn' as [Hns Hn'].
      assert (∀ y, y ∈ os → Config.Key o ≠ Config.Key y) as F1
        by (intros y Hy; by apply key_lt_ne, Ho').
      assert (∀ y, y ∈ ns → Config.Key n ≠ Config.Key y) as F2
        by (intros y Hy; by apply key_lt_ne, Hn').
      rewrite minimal_script_cons_cons.
      destruct (decide (o = n)) as [->|Hne].
      { rewrite (IHo ns Hos Hns). unfold announced.
        clear IHo IHn Ho Hn Ho' Hn' Hos Hns.
        destruct e; set_unfold; naive_solver. }
      destruct (decide (Config.Key o = Config.Key n)) as [E|HneK].
      { rewrite elem_of_cons, (IHo ns Hos Hns). unfold announced.
        assert (n ∉ os) as F3 by (intros Hin; by apply (F1 n)).
        assert (o ∉ ns) as F4 by (intros Hin; apply (F2 o); done).
        clear IHo IHn Ho Hn Ho' Hn' Hos Hns.
        destruct e; set_unfold; naive_solver congruence. }
      destruct (String.ltb (Config.Key o) (Config.Key n)) eqn:Hlt.
      { rewrite elem_of_cons, (IHo (n :: ns) Hos Hn). unfold announced.
        assert (∀ y, y ∈ ns → Config.Key o ≠ Config.Key y) as F3.
        { intros y Hy. apply key_lt_ne. trans n; [done|by apply Hn']. }
        clear IHo IHn Ho Hn Ho' Hn' Hos Hns Hlt.
        destruct e; set_unfold; naive_solver congruence. }
      assert (key_lt n o) as Hno by (by apply gostring.ltb_total).
      rewrite elem_of_cons, (IHn Hns). unfold announced.
      assert (∀ y, y ∈ os → Config.Key n ≠ Config.Key y) as F3.
      { intros y Hy. apply key_lt_ne. trans o; [done|by apply Ho']. }
      clear IHo IHn Ho Hn Ho' Hn' Hos Hns Hlt Hno.
      destruct e; set_unfold; naive_solver congruence.
Qed.

(** *** A handler of a kind that is not registered *)

Lemma dispatch_handlers_of m1 m2 typ evs w :
  handlers_of m1 typ = handlers_of m2 typ →
  dispatch m1 typ evs w = dispatch m2 typ evs w.
Proof. intros Hh. unfold dispatch, applyHandlers. by rewrite Hh. Qed.

Lemma UpdateConfigRecord_body_other_handler conf m typ h w :
  ProtoSchema.Typ conf ≠ typ →
  UpdateConfigRecord_body conf (AppendEventHandler m typ h, w)
  = (λ r, (r.1, (AppendEventHandler r.2.1 typ h, r.2.2)))
      <$> UpdateConfigRecord_body conf (m, w).
Proof.
  intros Hne. unfold UpdateConfigRecord_body. cbn [store AppendEventHandler].
  destruct (List (store m) (ProtoSchema.Typ conf)) as [configs err].
  case_decide; [done|].
  rewrite !compareToCache_dispatch. cbn [mbind option_bind fmap option_fmap option_map].
  do 3 f_equal.
  apply dispatch_handlers_of. unfold handlers_of, AppendEventHandler. cbn [handlers].
  by rewrite lookup_insert_ne.
Qed.

(** X22. [AppendEventHandler] accepts a handler for a kind that
    [model.IstioConfigTypes] does not hold, but no tick ever calls it: a
    tick of the monitor with that handler does to the cache and to the
    world what a tick of the monitor without it does. *)
Theorem unregistered_kind_handler_never_runs (m : configsMonitor) (typ : string)
    (h : Handler) (w : World) :
  typ ∉ ProtoSchema.Typ <$> IstioConfigTypes →
  UpdateConfigRecord (AppendEventHandler m typ h) w
  = (λ s, (AppendEventHandler s.1 typ h, s.2)) <$> UpdateConfigRecord m w.
Proof.
  intros Htyp. unfold UpdateConfigRecord.
  assert (∀ (l : ConfigDescriptor Message) m0 w0,
            typ ∉ ProtoSchema.Typ <$> l →
            go.for_range UpdateConfigRecord_body l (AppendEventHandler m0 typ h, w0)
            = (λ r, (r.1, (AppendEventHandler r.2.1 typ h, r.2.2)))
                <$> go.for_range UpdateConfigRecord_body l (m0, w0)) as Hloop.
  { induction l as [|conf l IH]; intros m0 w0 Hl; [done|].
    rewrite fmap_cons, not_elem_of_cons in Hl. destruct Hl as [Hc Hl].
    cbn [go.for_range].
    rewrite UpdateConfigRecord_body_other_handler by done.
    destruct (UpdateConfigRecord_body conf (m0, w0)) as [[[] [m1 w1]]|];
      cbn [fmap option_fmap option_map mbind option_bind fst snd]; [|done..].
    by apply IH. }
  rewrite Hloop by done.
  by destruct (go.for_range UpdateConfigRecord_body IstioConfigTypes (m, w))
    as [[fl [m1 w1]]|].
Qed.

End monitor.

(** *** What a subscriber observes

    A handler that appends every record it is handed, with its event tag,
    to a log: the log is the event sequence the monitor emits. *)

Section observed.
Context {Message : Type} `{EqDecision Message}.
Variable reflect_DeepEqual : Message → Message → bool.

Abbreviation Config := (Config.t Message).
Abbreviation Configs := (list Config).

Definition recorder : @Handler Message (list (Config * Event)) :=
  λ config e log, log ++ [(config, e)].

(** A monitor with [recorder] as the only handler of [typ]: what
    [NewConfigsMonitor] followed by one [AppendEventHandler] builds when
    [typ] is the only registered kind. *)
Definition observer (typ : string) : @configsMonitor Message (list (Config * Event)) :=
  AppendEventHandler
    {| store := {| List := λ _, ([], None) |};
       configCachedRecord := {[ typ := [] ]};
       handlers := {[ typ := [] ]};
       ticker := None; period := 0 |}
    typ recorder.

Lemma dispatch_recorder (m : @configsMonitor Message (list (Config * Event)))
    typ evs log :
  handlers_of m typ = [recorder] → dispatch m typ evs log = log ++ evs.
Proof.
  intros Hh. revert log. induction evs as [|[c e] evs IH]; intros log.
  - by rewrite app_nil_r.
  - unfold dispatch in *. simpl. rewrite IH.
    unfold applyHandlers. rewrite Hh. simpl. unfold recorder.
    by rewrite <-app_assoc.
Qed.

Lemma observer_handlers typ : handlers_of (observer typ) typ = [recorder].
Proof.
  unfold observer, AppendEventHandler, handlers_of. simpl.
  by rewrite lookup_insert_eq, lookup_singleton_eq.
Qed.


End observed.

(** Sample records of one kind, with string payloads. *)
Definition sample (key content : string) : Config.t string :=
  {| Config.Typ := "route-rule"; Config.Key := key;
     Config.Revision := "1"; Config.Content := content |}.

(** [reflect.DeepEqual] on two string payloads: [==] on strings. *)
Definition string_DeepEqual (a b : string) : bool := bool_decide (a = b).

Lemma string_DeepEqual_decides (a b : string) :
  string_DeepEqual a b = true ↔ a = b.
Proof. apply bool_decide_eq_true. Qed.


(** *** A payload that is not deeply equal to itself

    [reflect.DeepEqual] on two route rules held at different addresses:
    strings and integers are compared with [==], pointers are both nil or
    point to deeply equal values, a [oneof] holds the same case with
    deeply equal values, maps and slices hold deeply equal values under
    the same keys and indices, and floats are compared with [==]. Away
    from the floats that is equality. *)

#[global] Instance Duration_eq_dec : EqDecision Duration.t.
Proof. solve_decision. Defined.
#[global] Instance isStringMatch_MatchType_eq_dec :
  EqDecision StringMatch.isStringMatch_MatchType.
Proof. solve_decision. Defined.
#[global] Instance StringMatch_eq_dec : EqDecision StringMatch.t.
Proof. solve_decision. Defined.
#[global] Instance L4MatchAttributes_eq_dec : EqDecision L4MatchAttributes.t.
Proof. solve_decision. Defined.
#[global] Instance MatchCondition_eq_dec : EqDecision MatchCondition.t.
Proof. solve_decision. Defined.
#[global] Instance DestinationWeight_eq_dec : EqDecision DestinationWeight.t.
Proof. solve_decision. Defined.
#[global] Instance HTTPRedirect_eq_dec : EqDecision HTTPRedirect.t.
Proof. solve_decision. Defined.
#[global] Instance HTTPRewrite_eq_dec : EqDecision HTTPRewrite.t.
Proof. solve_decision. Defined.
#[global] Instance SimpleTimeoutPolicy_eq_dec : EqDecision HTTPTimeout.SimpleTimeoutPolicy.
Proof. solve_decision. Defined.
#[global] Instance isHTTPTimeout_TimeoutPolicy_eq_dec :
  EqDecision HTTPTimeout.isHTTPTimeout_TimeoutPolicy.
Proof. solve_decision. Defined.
#[global] Instance HTTPTimeout_eq_dec : EqDecision HTTPTimeout.t.
Proof. solve_decision. Defined.
#[global] Instance SimpleRetryPolicy_eq_dec : EqDecision HTTPRetry.SimpleRetryPolicy.
Proof. solve_decision. Defined.
#[global] Instance isHTTPRetry_RetryPolicy_eq_dec :
  EqDecision HTTPRetry.isHTTPRetry_RetryPolicy.
Proof. solve_decision. Defined.
#[global] Instance HTTPRetry_eq_dec : EqDecision HTTPRetry.t.
Proof. solve_decision. Defined.
#[global] Instance isDelay_HttpDelayType_eq_dec :
  EqDecision HTTPFaultInjection.Delay.isDelay_HttpDelayType.
Proof. solve_decision. Defined.
#[global] Instance isAbort_ErrorType_eq_dec :
  EqDecision HTTPFaultInjection.Abort.isAbort_ErrorType.
Proof. solve_decision. Defined.













(** The scenarios of the design document, run on the code. *)

Example scenario_add_then_modify :
  compareToCache string_DeepEqual (observer "route-rule") "route-rule" [] [sample "a" "P1"] []
  = Some [(sample "a" "P1", EventAdd)] ∧
  compareToCache string_DeepEqual (observer "route-rule") "route-rule"
    [sample "a" "P1"] [sample "a" "P2"] []
  = Some [(sample "a" "P2", EventUpdate)].
Proof. split; by vm_compute. Qed.

Example scenario_delete :
  compareToCache string_DeepEqual (observer "route-rule") "route-rule"
    [sample "a" "P1"; sample "b" "P1"] [sample "b" "P1"] []
  = Some [(sample "a" "P1", EventDelete)].
Proof. by vm_compute. Qed.

Example scenario_unchanged :
  compareToCache string_DeepEqual (observer "route-rule") "route-rule"
    [sample "a" "P1"; sample "b" "P1"] [sample "a" "P1"; sample "b" "P1"] []
  = Some [].
Proof. by vm_compute. Qed.

(** *** Two registered kinds, one failing listing *)

Definition kind (typ : string) : ProtoSchema.t string :=
  {| ProtoSchema.Typ := typ; ProtoSchema.Plural := typ +:+ "s";
     ProtoSchema.MessageName := "istio.proxy.v1.config." +:+ typ;
     ProtoSchema.Validate := λ _, None; ProtoSchema.Key := Some (λ msg, msg) |}.

Definition two_kinds : ConfigDescriptor string :=
  [kind "route-rule"; kind "destination-policy"].

Definition policy : Config.t string :=
  {| Config.Typ := "destination-policy"; Config.Key := "p";
     Config.Revision := "1"; Config.Content := "P" |}.

(** A store that fails to list route rules and lists one destination
    policy. *)
Definition half_failing_store : @ConfigStore string :=
  {| List := λ typ,
       if decide (typ = "route-rule") then ([], Some (errorString "unavailable"))
       else if decide (typ = "destination-policy") then ([policy], None)
       else ([], None) |}.

(** The monitor over that store, with a recording subscriber for each
    kind. *)
Definition half_failing_monitor : @configsMonitor string (list (Config.t string * Event)) :=
  AppendEventHandler
    (AppendEventHandler (NewConfigsMonitor two_kinds half_failing_store 1000)
       "route-rule" recorder)
    "destination-policy" recorder.

(** C2 fails on the code: the listing of the first kind errors, and the
    tick ends there. The failing kind keeps its cache and gets no event,
    but the kind after it is not processed in this tick: its cache stays
    empty and its subscriber sees nothing, although its own iteration would
    have stored the listed policy and announced it. *)
Theorem UpdateConfigRecord_error_ends_tick :
  (λ s, (cached s.1 "route-rule", cached s.1 "destination-policy", s.2))
    <$> UpdateConfigRecord two_kinds go.merge_sort_Slice string_DeepEqual half_failing_monitor []
  = Some ([], [], [])
  ∧
  (λ r, (r.1, cached r.2.1 "destination-policy", r.2.2))
    <$> UpdateConfigRecord_body go.merge_sort_Slice string_DeepEqual (kind "destination-policy")
          (half_failing_monitor, [])
  = Some (go.Next, [policy], [(policy, EventAdd)]).
Proof. split; vm_compute; reflexivity. Qed.

(** *** One tick over an unsorted listing *)

Definition unsorted_store : @ConfigStore string :=
  {| List := λ typ,
       if decide (typ = "route-rule")
       then ([sample "c" "P3"; sample "a" "P1"; sample "b" "P2"], None)
       else ([], None) |}.

Definition after_one_tick : @configsMonitor string (list (Config.t string * Event)) :=
  let m := AppendEventHandler (NewConfigsMonitor two_kinds unsorted_store 1000)
             "route-rule" recorder in
  match UpdateConfigRecord two_kinds go.merge_sort_Slice string_DeepEqual m [] with
  | Some (m', _) => m'
  | None => m
  end.

Lemma cache_key_sorted_witness :
  reachable two_kinds go.merge_sort_Slice string_DeepEqual after_one_tick ∧
  (∀ typ, key_sorted (cached after_one_tick typ)) ∧
  cached after_one_tick "route-rule" = [sample "a" "P1"; sample "b" "P2"; sample "c" "P3"].
Proof.
  assert (reachable two_kinds go.merge_sort_Slice string_DeepEqual after_one_tick) as Hr.
  { unfold after_one_tick.
    destruct (UpdateConfigRecord _ _ _ _) as [[m' log]|] eqn:E.
    - apply (UpdateConfigRecord_reachable two_kinds go.merge_sort_Slice string_DeepEqual _ _ _
               (reachable_append _ _ _ _ _ _ (reachable_new _ _ _ _ _)) E).
    - apply reachable_append, reachable_new. }
  split; [exact Hr|]. split.
  - apply (cache_key_sorted two_kinds go.merge_sort_Slice string_DeepEqual go.merge_sort_Slice_contract
             after_one_tick Hr).
  - by vm_compute.
Defined.

(** *** More of what a subscriber observes *)

Section observed_events.
Context {Message : Type} `{EqDecision Message}.
Variable reflect_DeepEqual : Message → Message → bool.

Abbreviation Config := (Config.t Message).
Abbreviation Configs := (list Config).

(** X23. For key-sorted snapshots with unique keys, on whose payloads
    [reflect.DeepEqual] decides equality (no NaN in them), the events
    handed to a subscriber are exactly the justified ones: [Add] for the
    records of the new snapshot whose key the old one does not hold,
    [Delete] for the records of the old snapshot whose key the new one
    does not hold, and [Update] for the records of the new snapshot whose
    key the old one holds with another record. *)
Theorem compareToCache_events_exact
    (m : @configsMonitor Message (list (Config * Event)))
    (typ : string) (oldRec newRec : Configs) (log : list (Config * Event)) :
  handlers_of m typ = [recorder] →
  key_sorted oldRec → unique_keys oldRec →
  key_sorted newRec → unique_keys newRec →
  (∀ o n, o ∈ oldRec → n ∈ newRec →
     (reflect_DeepEqual (Config.Content o) (Config.Content n) = true
      ↔ Config.Content o = Config.Content n)) →
  ∃ evs,
    compareToCache reflect_DeepEqual m typ oldRec newRec log = Some (log ++ evs) ∧
    ∀ c,
      ((c, EventAdd) ∈ evs ↔
         c ∈ newRec ∧ Config.Key c ∉ Config.Key <$> oldRec) ∧
      ((c, EventDelete) ∈ evs ↔
         c ∈ oldRec ∧ Config.Key c ∉ Config.Key <$> newRec) ∧
      ((c, EventUpdate) ∈ evs ↔
         c ∈ newRec ∧ c ∉ oldRec ∧ Config.Key c ∈ Config.Key <$> oldRec).
Proof.
  intros Hh Hso Huo Hsn Hun Hdeep.
  pose proof (key_sorted_strict _ Hso Huo) as Ho.
  pose proof (key_sorted_strict _ Hsn Hun) as Hn.
  exists (minimal_script oldRec newRec). split.
  - rewrite compareToCache_dispatch, dispatch_recorder by done.
    by rewrite edit_script_minimal.
  - intros c. split; [|split].
    + apply (minimal_script_announced oldRec newRec Ho Hn c EventAdd).
    + apply (minimal_script_announced oldRec newRec Ho Hn c EventDelete).
    + apply (minimal_script_announced oldRec newRec Ho Hn c EventUpdate).
Qed.

(** X24. Against an empty snapshot every record of the other one is
    announced, in the order it stands there, sorted or not: as [Add] when
    the cache is empty, as it is at the first tick, and as [Delete] when
    the listing is empty. *)
Theorem compareToCache_empty_side
    (m : @configsMonitor Message (list (Config * Event)))
    (typ : string) (rec : Configs) (log : list (Config * Event)) :
  handlers_of m typ = [recorder] →
  compareToCache reflect_DeepEqual m typ [] rec log
  = Some (log ++ ((λ c, (c, EventAdd)) <$> rec)) ∧
  compareToCache reflect_DeepEqual m typ rec [] log
  = Some (log ++ ((λ c, (c, EventDelete)) <$> rec)).
Proof.
  intros Hh. rewrite !compareToCache_dispatch, !dispatch_recorder by done.
  by rewrite edit_script_nil_r.
Qed.

End observed_events.

Lemma compareToCache_events_exact_witness :
  let a := sample "a" "P1" in
  let b := sample "b" "P2" in
  let b' := sample "b" "P3" in
  let c := sample "c" "P4" in
  ∃ evs,
    compareToCache string_DeepEqual (observer "route-rule") "route-rule" [a; b] [b'; c] [] = Some evs ∧
    (a, EventDelete) ∈ evs ∧ (b', EventUpdate) ∈ evs ∧ (c, EventAdd) ∈ evs.
Proof.
  intros a b b' c.
  assert (key_sorted [a; b] ∧ unique_keys [a; b] ∧
          key_sorted [b'; c] ∧ unique_keys [b'; c]) as (H1 & H2 & H3 & H4).
  { unfold key_sorted, unique_keys.
    repeat split; try (by repeat constructor);
      apply (bool_decide_unpack _); by vm_compute. }
  destruct (compareToCache_events_exact string_DeepEqual
              (observer "route-rule") "route-rule" [a; b] [b'; c] []
              (observer_handlers "route-rule") H1 H2 H3 H4
              (λ o n _ _, string_DeepEqual_decides _ _))
    as (evs & Hrun & Hev).
  exists evs. split; [exact Hrun|].
  split; [|split].
  - apply (Hev a). split; [by left|]. apply (bool_decide_unpack _). by vm_compute.
  - apply (Hev b'). split; [by left|]. split; apply (bool_decide_unpack _); by vm_compute.
  - apply (Hev c). split; [right; by left|]. apply (bool_decide_unpack _). by vm_compute.
Defined.

Lemma compareToCache_empty_side_witness :
  compareToCache string_DeepEqual (observer "route-rule") "route-rule" []
    [sample "b" "P2"; sample "a" "P1"] []
  = Some [(sample "b" "P2", EventAdd); (sample "a" "P1", EventAdd)].
Proof.
  apply (compareToCache_empty_side string_DeepEqual (observer "route-rule") "route-rule"
           [sample "b" "P2"; sample "a" "P1"] [] (observer_handlers "route-rule")).
Defined.

(** *** A tick over two kinds *)

(** A store that lists one route rule and one destination policy. *)
Definition two_kind_store : @ConfigStore string :=
  {| List := λ typ,
       if decide (typ = "route-rule") then ([sample "b" "P2"; sample "a" "P1"], None)
       else if decide (typ = "destination-policy") then ([policy], None)
       else ([], Some (errorString "unknown kind")) |}.

Definition two_kind_monitor : @configsMonitor string (list (Config.t string * Event)) :=
  AppendEventHandler
    (AppendEventHandler (NewConfigsMonitor two_kinds two_kind_store 1000)
       "route-rule" recorder)
    "destination-policy" recorder.

Lemma two_kinds_listed conf :
  conf ∈ two_kinds →
  (List two_kind_store (ProtoSchema.Typ conf)).2 = None.
Proof.
  unfold two_kinds. intros [->|[->|[]%elem_of_nil]%elem_of_cons]%elem_of_cons;
    reflexivity.
Qed.

Lemma UpdateConfigRecord_successful_tick_witness :
  ∃ m',
    UpdateConfigRecord two_kinds go.merge_sort_Slice string_DeepEqual two_kind_monitor []
    = Some (m', [(sample "a" "P1", EventAdd); (sample "b" "P2", EventAdd);
                 (policy, EventAdd)]) ∧
    cached m' "route-rule" = [sample "a" "P1"; sample "b" "P2"] ∧
    cached m' "destination-policy" = [policy].
Proof.
  assert (NoDup (ProtoSchema.Typ <$> two_kinds)) as Hnd.
  { apply (bool_decide_unpack _). by vm_compute. }
  destruct (UpdateConfigRecord_successful_tick two_kinds go.merge_sort_Slice string_DeepEqual
              two_kind_monitor [] Hnd two_kinds_listed) as (m' & w' & Hrun & Hw & _ & Hc).
  exists m'. vm_compute in Hw. injection Hw as <-.
  split; [exact Hrun|]. split.
  - rewrite Hc. reflexivity.
  - rewrite Hc. reflexivity.
Defined.

(** The monitor after that tick, and the same listing again. *)
Definition two_kind_monitor_after : @configsMonitor string (list (Config.t string * Event)) :=
  match UpdateConfigRecord two_kinds go.merge_sort_Slice string_DeepEqual two_kind_monitor [] with
  | Some (m', _) => m'
  | None => two_kind_monitor
  end.

Lemma two_kinds_unchanged conf :
  conf ∈ two_kinds →
  ∃ configs,
    List (store two_kind_monitor_after) (ProtoSchema.Typ conf) = (configs, None) ∧
    normalize go.merge_sort_Slice configs
    = cached two_kind_monitor_after (ProtoSchema.Typ conf).
Proof.
  unfold two_kinds. intros [->|[->|[]%elem_of_nil]%elem_of_cons]%elem_of_cons.
  - exists [sample "b" "P2"; sample "a" "P1"]. split; by vm_compute.
  - exists [policy]. split; by vm_compute.
Qed.

Lemma UpdateConfigRecord_unchanged_tick_witness :
  ∃ m', UpdateConfigRecord two_kinds go.merge_sort_Slice string_DeepEqual two_kind_monitor_after []
        = Some (m', []) ∧
        cached m' "route-rule" = [sample "a" "P1"; sample "b" "P2"].
Proof.
  destruct (UpdateConfigRecord_unchanged_tick two_kinds go.merge_sort_Slice string_DeepEqual
              two_kind_monitor_after [] two_kinds_unchanged
              (λ conf c _ _, bool_decide_eq_true_2 _ eq_refl)) as (m' & Hrun & Hc).
  exists m'. split; [exact Hrun|]. rewrite Hc. by vm_compute.
Defined.

Lemma UpdateConfigRecord_failed_listing_witness :
  ∃ m',
    UpdateConfigRecord two_kinds go.merge_sort_Slice string_DeepEqual half_failing_monitor []
    = Some (m', []) ∧
    cached m' "destination-policy" = [].
Proof.
  destruct (UpdateConfigRecord_failed_listing two_kinds go.merge_sort_Slice string_DeepEqual
              [] (kind "route-rule") [kind "destination-policy"]
              half_failing_monitor [] [] (errorString "unavailable")
              eq_refl eq_refl) as (fl & m' & w' & Hloop & Hrun & Hc).
  simpl in Hloop. injection Hloop as _ <- <-.
  exists half_failing_monitor. split; [exact Hrun|].
  by vm_compute.
Defined.

Lemma unregistered_kind_handler_never_runs_witness :
  snd <$> UpdateConfigRecord two_kinds go.merge_sort_Slice string_DeepEqual
            (AppendEventHandler two_kind_monitor "ingress-rule" recorder) []
  = Some [(sample "a" "P1", EventAdd); (sample "b" "P2", EventAdd); (policy, EventAdd)].
Proof.
  assert ("ingress-rule" ∉ ProtoSchema.Typ <$> two_kinds) as Hnot.
  { apply (bool_decide_unpack _). by vm_compute. }
  rewrite (unregistered_kind_handler_never_runs two_kinds go.merge_sort_Slice string_DeepEqual
             two_kind_monitor "ingress-rule" recorder [] Hnot).
  by vm_compute.
Defined.

End memory.

(** ** Package [kube]: the handler chain and the retry queue

    [platform/kube] is not among the sources at hand; the two pieces the
    ingress controller builds on are written from the design document. *)

Module kube.
Import model.

Section chain.
(** [Obj] is what the informer hands over ([interface{}]); [St] is the
    state the handlers read and act on. *)
Context {Obj St : Type}.

(** Modelled from the spec: [kube.Handler] is missing; one "processing
    step" of the chain, called in the sources as
    [func(obj interface{}, event model.Event) error]. [None] is a panic. *)
Definition Handler : Type := Obj → Event → St → option (St * error).

(** Modelled from the spec: [kube.ChainHandler] is missing; "an ordered
    list of processing steps". *)
Record ChainHandler := { funcs : list Handler }.

(** Modelled from the spec: [ChainHandler.Append] is missing; the new step
    goes to the end of the ordered list. *)
Definition Append (ch : ChainHandler) (h : Handler) : ChainHandler :=
  {| funcs := funcs ch ++ [h] |}.

(** Modelled from the spec: [ChainHandler.Apply] of [platform/kube] is
    missing; "an ordered list of processing steps applied to every
    dequeued item; the first step gates all subsequent ones": the steps
    run in order, and the first error ends the chain and is its result. *)
Fixpoint apply_funcs (fs : list Handler) (obj : Obj) (event : Event) (st : St)
    : option (St * error) :=
  match fs with
  | [] => Some (st, None)
  | f :: fs =>
      '(st, err) ← f obj event st;
      if decide (err ≠ None) then Some (st, err) else apply_funcs fs obj event st
  end.

(** Modelled from the spec: [ChainHandler.Apply] is missing; see
    [apply_funcs]. *)
Definition Apply (ch : ChainHandler) (obj : Obj) (event : Event) (st : St)
    : option (St * error) :=
  apply_funcs (funcs ch) obj event st.

(** Modelled from the spec: [kube.Task] is missing; a dequeued item, built
    in the sources by [NewTask(handler.Apply, obj, event)]. *)
Record Task := { obj : Obj; event : Event }.

(** Modelled from the spec: the consumer of [kube.Queue] is missing;
    "failed processing of an item is requeued after a fixed delay rather
    than dropped": one step takes the item at the head, applies the chain,
    and on an error puts the item back at the end of the queue. *)
Definition process_next (ch : ChainHandler) (queue : list Task) (st : St)
    : option (list Task * St) :=
  match queue with
  | [] => Some ([], st)
  | item :: rest =>
      '(st, err) ← Apply ch (obj item) (event item) st;
      if decide (err ≠ None) then Some (rest ++ [item], st) else Some (rest, st)
  end.

End chain.
Arguments ChainHandler : clear implicits.
Arguments Handler : clear implicits.
Arguments Task : clear implicits.
End kube.

(** ** Package [ingress]: the read-only view of ingress resources *)

Module ingress.
Import model.

Definition errUnsupportedOp : error :=
  Some (errorString "unsupported operation: the ingress config store is a read-only view").

Section controller.
(** [*v1beta1.Ingress], [proto.Message], [*proxyconfig.ProxyMeshConfig], and
    the part of the program the registered handlers act on. *)
Context {Ingress Message Mesh World : Type}.

Abbreviation Config := (Config.t Message).

(** [model.IngressRule.Type], declared in [model/config.go]. *)
Variable IngressRule_Type : string.

(** Declared in [adapter/config/ingress/conversion.go] and [platform/kube]. *)
Variable decodeIngressRuleName : string → string * string * Z * Z * error.
Variable shouldProcessIngress : Mesh → Ingress → bool.
Variable convertIngress : Ingress → string → gmap string Message.
Variable kube_KeyFunc : string → string → string.

(** [ingress.GetResourceVersion()] of the Kubernetes API. *)
Variable GetResourceVersion : Ingress → string.

(** The order in which a [range] statement visits a Go map is not
    specified, and may differ from one execution of the statement to the
    next: [range_order n rules] is the order in which the [range]
    statement of [RegisterEventHandler] visits [rules] when [n] such
    statements have been executed before it. *)
Variable range_order : nat → gmap string Message → list (string * Message).

(** What the informer hands to the queue: an ingress, or some other
    object. *)
Inductive object := object_Ingress (ingress : Ingress) | object_other.

(** [cache.SharedIndexInformer], as the controller reads it:
    [HasSynced()], and the store with [GetByKey] and [List]. *)
Record SharedIndexInformer := {
  HasSynced : bool;
  GetByKey : string → option object * bool * error;
  Store_List : list object;
}.

(** The state handlers run in: the informer, the world of the
    registered subscribers, and the number of [range] statements over the
    rules of an ingress that the handlers have executed so far. *)
Record env := { informer : SharedIndexInformer; world : World; ranged : nat }.

(** The [controller] struct. Its fields [client] and [informer] stand for
    the cluster: the informer, which changes as the cluster does, is read
    from the environment [env]. *)
Record controller := {
  mesh : Mesh;
  domainSuffix : string;
  queue : list (kube.Task object);
  handler : kube.ChainHandler object env;
}.

(** The first handler of the chain, appended by [NewController]. *)
Definition sync_gate : kube.Handler object env :=
  λ obj event st,
    if negb (HasSynced (informer st)) then
      Some (st, Some (errorString "waiting till full synchronization"))
    else
      (* glog.V(2).Infof for an ingress *)
      Some (st, None).

(** [NewController]; [domainSuffix] is [options.DomainSuffix]. *)
Definition NewController (mesh : Mesh) (domainSuffix : string) : controller :=
  {| mesh := mesh; domainSuffix := domainSuffix; queue := [];
     handler := kube.Append {| kube.funcs := [] |} sync_gate |}.

(** The handler [RegisterEventHandler] appends for a subscriber [f]. The
    rules of one ingress are visited in the order this execution of the
    [range] statement takes, [range_order (ranged st) rules]. *)
Definition translate (c : controller) (f : Config → Event → World → World)
    : kube.Handler object env :=
  λ obj event st,
    match obj with
    | object_other => None (* the type assertion on obj panics *)
    | object_Ingress ingress =>
        if negb (shouldProcessIngress (mesh c) ingress) then Some (st, None)
        else
          let rules := convertIngress ingress (domainSuffix c) in
          let w :=
            foldl (λ w kr,
                     f {| Config.Typ := IngressRule_Type; Config.Key := kr.1;
                          Config.Revision := ""; Config.Content := kr.2 |} event w)
                  (world st) (range_order (ranged st) rules) in
          Some ({| informer := informer st; world := w; ranged := S (ranged st) |}, None)
    end.

Definition RegisterEventHandler (c : controller) (typ : string)
    (f : Config → Event → World → World) : controller :=
  {| mesh := mesh c; domainSuffix := domainSuffix c; queue := queue c;
     handler := kube.Append (handler c) (translate c f) |}.

(** [Get]; [None] is a panic, the payload [None] is a nil message. *)
Definition Get (c : controller) (st : env) (typ key : string)
    : option (option Message * bool * string) :=
  if decide (typ ≠ IngressRule_Type) then Some (None, false, "")
  else
    let '(ingressName, ingressNamespace, _, _, err) := decodeIngressRuleName key in
    if decide (err ≠ None) then Some (None, false, "")
    else
      let storeKey := kube_KeyFunc ingressName ingressNamespace in
      let '(obj, exists_, err) := GetByKey (informer st) storeKey in
      if decide (err ≠ None) then Some (None, false, "")
      else if negb exists_ then Some (None, false, "")
      else
        match obj with
        | Some (object_Ingress ingress) =>
            if negb (shouldProcessIngress (mesh c) ingress) then Some (None, false, "")
            else
              let rules := convertIngress ingress (domainSuffix c) in
              Some (rules !! key, bool_decide (is_Some (rules !! key)),
                    GetResourceVersion ingress)
        | _ => None
        end.

(** [List]; the slice [nil] and the empty slice are both [[]]. *)
Definition List (c : controller) (st : env) (typ : string)
    : option (list Config * error) :=
  if decide (typ ≠ IngressRule_Type) then Some ([], errUnsupportedOp)
  else
    out ← foldl (λ acc obj,
                   out ← acc;
                   match obj with
                   | object_other => None
                   | object_Ingress ingress =>
                       if shouldProcessIngress (mesh c) ingress then
                         let ingressRules := convertIngress ingress (domainSuffix c) in
                         Some (out ++
                           ((λ kr, {| Config.Typ := IngressRule_Type; Config.Key := kr.1;
                                      Config.Revision := GetResourceVersion ingress;
                                      Config.Content := kr.2 |})
                              <$> map_to_list ingressRules))
                       else Some out
                   end)
                (Some []) (Store_List (informer st));
    Some (out, None).

(** The write operations; each returns the controller and the state it
    leaves behind together with its results. *)
Definition Post (c : controller) (st : env) (config : option Message)
    : controller * env * (string * error) :=
  (c, st, ("", errUnsupportedOp)).

Definition Put (c : controller) (st : env) (config : option Message) (oldRevision : string)
    : controller * env * (string * error) :=
  (c, st, ("", errUnsupportedOp)).

Definition Delete (c : controller) (st : env) (typ key : string)
    : controller * env * error :=
  (c, st, errUnsupportedOp).

(** The controller after [NewController] and a sequence of
    [RegisterEventHandler] calls. *)
Definition with_subscribers (mesh : Mesh) (domainSuffix : string)
    (subs : list (string * (Config → Event → World → World))) : controller :=
  foldl (λ c sub, RegisterEventHandler c sub.1 sub.2) (NewController mesh domainSuffix) subs.

Lemma with_subscribers_funcs mesh0 suffix subs :
  ∃ downstream,
    kube.funcs (handler (with_subscribers mesh0 suffix subs)) = sync_gate :: downstream
    ∧ length downstream = length subs.
Proof.
  unfold with_subscribers.
  induction subs as [|sub subs IH] using rev_ind; [by exists []|].
  rewrite foldl_app. simpl. destruct IH as (downstream & -> & Hlen).
  eexists (downstream ++ [_]). split; [done|]. rewrite !length_app. simpl. lia.
Qed.

(** C5. [Post], [Put] and [Delete] return the fixed unsupported-operation
    error whatever their arguments, and leave the controller and its
    environment as they were. *)
Theorem write_operations_unsupported (c : controller) (st : env)
    (config : option Message) (oldRevision typ key : string) :
  Post c st config = (c, st, ("", errUnsupportedOp)) ∧
  Put c st config oldRevision = (c, st, ("", errUnsupportedOp)) ∧
  Delete c st typ key = (c, st, errUnsupportedOp) ∧
  errUnsupportedOp =
    Some (errorString "unsupported operation: the ingress config store is a read-only view").
Proof. repeat split. Qed.

(** C9. For a type other than the ingress-rule type, [Get] answers "not
    found" (nil message, [false], empty revision) and has no error to
    signal, while [List] answers with the unsupported-operation error. *)
Theorem Get_List_foreign_type (c : controller) (st : env) (typ key : string) :
  typ ≠ IngressRule_Type →
  Get c st typ key = Some (None, false, "") ∧
  List c st typ = Some ([], errUnsupportedOp) ∧
  errUnsupportedOp ≠ None.
Proof.
  intros Hne. unfold Get, List. rewrite !decide_True by done. done.
Qed.

(** C8. While the informer has not synced, the first handler of the chain
    answers every item with an error; the chain stops there, so the state
    of the subscribers is left as it was whatever handlers are registered
    downstream, and the queue puts the item back. Once the informer has
    synced, the first handler answers with success. *)
Theorem sync_gate_first_in_chain (mesh0 : Mesh) (suffix : string)
    (subs : list (string * (Config → Event → World → World)))
    (o : object) (e : Event) (st : env) (rest : list (kube.Task object)) :
  let c := with_subscribers mesh0 suffix subs in
  let waiting := Some (errorString "waiting till full synchronization") in
  head (kube.funcs (handler c)) = Some sync_gate ∧
  (HasSynced (informer st) = false →
     sync_gate o e st = Some (st, waiting) ∧
     kube.Apply (handler c) o e st = Some (st, waiting) ∧
     kube.process_next (handler c) ({| kube.obj := o; kube.event := e |} :: rest) st
       = Some (rest ++ [{| kube.obj := o; kube.event := e |}], st)) ∧
  (HasSynced (informer st) = true → sync_gate o e st = Some (st, None)).
Proof.
  intros c waiting.
  destruct (with_subscribers_funcs mesh0 suffix subs) as (downstream & Hf & _).
  fold c in Hf. split; [by rewrite Hf|]. split.
  - intros Hns.
    assert (sync_gate o e st = Some (st, waiting)) as Hg
      by (unfold sync_gate; by rewrite Hns).
    assert (kube.Apply (handler c) o e st = Some (st, waiting)) as Ha.
    { unfold kube.Apply. rewrite Hf. cbn [kube.apply_funcs]. rewrite Hg.
      unfold waiting. cbn [mbind option_bind]. by rewrite decide_True. }
    split; [done|]. split; [done|].
    unfold kube.process_next. cbn [kube.obj kube.event]. rewrite Ha.
    unfold waiting. cbn [mbind option_bind]. by rewrite decide_True.
  - intros Hs. unfold sync_gate. by rewrite Hs.
Qed.

(** *** What [List] lists, and what [Get] finds in it *)

(** The loop of [List], once it has gone over [objs] with [out] in
    hand. *)
Definition List_loop (c : controller) (objs : list object) (acc : option (list Config))
    : option (list Config) :=
  foldl (λ acc obj,
           out ← acc;
           match obj with
           | object_other => None
           | object_Ingress ingress =>
               if shouldProcessIngress (mesh c) ingress then
                 let ingressRules := convertIngress ingress (domainSuffix c) in
                 Some (out ++
                   ((λ kr, {| Config.Typ := IngressRule_Type; Config.Key := kr.1;
                              Config.Revision := GetResourceVersion ingress;
                              Config.Content := kr.2 |})
                      <$> map_to_list ingressRules))
               else Some out
           end) acc objs.

(** A record is one of those [List] makes of the ingresses among
    [objs]. *)
Definition listed_from (c : controller) (objs : list object) (cfg : Config) : Prop :=
  ∃ ingress,
    object_Ingress ingress ∈ objs ∧
    shouldProcessIngress (mesh c) ingress = true ∧
    Config.Typ cfg = IngressRule_Type ∧
    Config.Revision cfg = GetResourceVersion ingress ∧
    convertIngress ingress (domainSuffix c) !! Config.Key cfg = Some (Config.Content cfg).

Lemma List_loop_None c objs : List_loop c objs None = None.
Proof. unfold List_loop. induction objs as [|obj objs IH]; [done|]. simpl. apply IH. Qed.

Lemma List_loop_spec c objs out0 :
  (List_loop c objs (Some out0) = None ↔ object_other ∈ objs) ∧
  ∀ out, List_loop c objs (Some out0) = Some out →
    ∀ cfg, cfg ∈ out ↔ cfg ∈ out0 ∨ listed_from c objs cfg.
Proof.
  revert out0. induction objs as [|obj objs IH]; intros out0.
  - split.
    + split; [done|]. by intros ?%elem_of_nil.
    + intros out [= <-] cfg. split; [by left|].
      intros [?|(ingress & ?%elem_of_nil & _)]; done.
  - unfold List_loop in *. cbn [foldl]. cbn [mbind option_bind].
    destruct obj as [ingress|].
    + destruct (shouldProcessIngress (mesh c) ingress) eqn:Hp.
      * destruct (IH (out0 ++
                  ((λ kr, {| Config.Typ := IngressRule_Type; Config.Key := kr.1;
                             Config.Revision := GetResourceVersion ingress;
                             Config.Content := kr.2 |})
                     <$> map_to_list (convertIngress ingress (domainSuffix c)))))
          as [IHn IHs].
        split.
        -- rewrite IHn, elem_of_cons. naive_solver.
        -- intros out Hout cfg. rewrite (IHs out Hout cfg), elem_of_app.
           unfold listed_from. setoid_rewrite elem_of_cons.
           rewrite list_elem_of_fmap. split.
           ++ intros [[?|([k v] & -> & Hkv%elem_of_map_to_list)]|(i & ? & ?)].
              ** by left.
              ** right. exists ingress. simpl. split_and!; try done. by left.
              ** right. exists i. split_and!; try tauto.
           ++ intros [?|(i & [[= <-]|?] & Hpi & Ht & Hr & Hk)].
              ** left. by left.
              ** left. right. exists (Config.Key cfg, Config.Content cfg).
                 split; [|by apply elem_of_map_to_list].
                 destruct cfg. simpl in *. by subst.
              ** right. by exists i.
      * destruct (IH out0) as [IHn IHs]. split.
        -- rewrite IHn, elem_of_cons. naive_solver.
        -- intros out Hout cfg. rewrite (IHs out Hout cfg).
           unfold listed_from. setoid_rewrite elem_of_cons. split.
           ++ intros [?|(i & ? & ?)]; [by left|]. right. exists i. tauto.
           ++ intros [?|(i & [[= <-]|?] & Hpi & ?)]; [by left|congruence|].
              right. by exists i.
    + split.
      * split; [intros _; by left|]. intros _. apply (List_loop_None c objs).
      * intros out Hout. pose proof (List_loop_None c objs) as Hn.
        unfold List_loop in Hn. rewrite Hn in Hout. done.
Qed.

Lemma List_Some_listed (c : controller) (st : env) out err :
  List c st IngressRule_Type = Some (out, err) →
  err = None ∧ ∀ cfg, cfg ∈ out ↔ listed_from c (Store_List (informer st)) cfg.
Proof.
  unfold List. rewrite decide_False by (by intros ?).
  fold (List_loop c (Store_List (informer st)) (Some [])).
  destruct (List_loop_spec c (Store_List (informer st)) []) as [_ Hs].
  destruct (List_loop c (Store_List (informer st)) (Some [])) as [out0|] eqn:E;
    cbn [mbind option_bind]; [|done].
  intros [= <- <-]. split; [done|]. intros cfg.
  rewrite (Hs out0 eq_refl cfg). split.
  - intros [?%elem_of_nil|?]; done.
  - intros ?. by right.
Qed.

(** X25. [List] of the ingress-rule type panics exactly when the store
    holds an object that is no ingress. When it returns it has no error,
    and the records it lists are those of the rules of the ingresses of
    the store that pass [shouldProcessIngress]: a record for every key of
    [convertIngress], with the rule of the key, the type of ingress
    rules and the resource version of the ingress. *)
Theorem List_ingress_rules (c : controller) (st : env) :
  (List c st IngressRule_Type = None ↔ object_other ∈ Store_List (informer st)) ∧
  ∀ out err, List c st IngressRule_Type = Some (out, err) →
    err = None ∧
    ∀ cfg, cfg ∈ out ↔
      ∃ ingress,
        object_Ingress ingress ∈ Store_List (informer st) ∧
        shouldProcessIngress (mesh c) ingress = true ∧
        Config.Typ cfg = IngressRule_Type ∧
        Config.Revision cfg = GetResourceVersion ingress ∧
        convertIngress ingress (domainSuffix c) !! Config.Key cfg
          = Some (Config.Content cfg).
Proof.
  split; [|apply List_Some_listed].
  unfold List. rewrite decide_False by (by intros ?).
  fold (List_loop c (Store_List (informer st)) (Some [])).
  destruct (List_loop_spec c (Store_List (informer st)) []) as [Hn _].
  destruct (List_loop c (Store_List (informer st)) (Some [])) as [out0|] eqn:E;
    cbn [mbind option_bind].
  - split; [done|]. intros Hin. apply Hn in Hin. done.
  - split; [|done]. intros _. by apply Hn.
Qed.

(** X26. What [Get] finds, [List] lists: over a store whose [GetByKey] only
    returns objects that [List] of the store returns too, a rule that
    [Get] finds under a key is listed by [List] under that key, with the
    same payload and the same revision. *)
Theorem Get_found_is_listed (c : controller) (st : env) (key : string)
    (rule : Message) (rev : string) :
  (∀ storeKey obj,
     GetByKey (informer st) storeKey = (Some obj, true, None) →
     obj ∈ Store_List (informer st)) →
  Get c st IngressRule_Type key = Some (Some rule, true, rev) →
  ∀ out err, List c st IngressRule_Type = Some (out, err) →
    {| Config.Typ := IngressRule_Type; Config.Key := key;
       Config.Revision := rev; Config.Content := rule |} ∈ out.
Proof.
  intros Hstore HGet out err HList.
  destruct (List_Some_listed c st out err HList) as [_ Hout]. apply Hout.
  clear Hout HList.
  unfold Get in HGet. rewrite decide_False in HGet by (by intros ?).
  destruct (decodeIngressRuleName key) as [[[[name namespace] ?] ?] derr].
  case_decide as Hd; [done|].
  destruct (GetByKey (informer st) (kube_KeyFunc name namespace))
    as [[obj exists_] gerr] eqn:EG.
  case_decide as Hg; [done|].
  destruct exists_; simpl in HGet; [|done].
  destruct obj as [[ingress|]|]; [|done..].
  destruct (shouldProcessIngress (mesh c) ingress) eqn:Hp; simpl in HGet; [|done].
  injection HGet as Hrule _ Hrev.
  exists ingress. simpl. split_and!; try done.
  apply (Hstore (kube_KeyFunc name namespace)).
  rewrite EG. by destruct gerr; [destruct Hg|].
Qed.

(** *** What the chain hands to the subscribers *)

Lemma with_subscribers_fields mesh0 suffix subs :
  mesh (with_subscribers mesh0 suffix subs) = mesh0 ∧
  domainSuffix (with_subscribers mesh0 suffix subs) = suffix.
Proof.
  unfold with_subscribers.
  induction subs as [|sub subs IH] using rev_ind; [done|].
  rewrite foldl_app. simpl. exact IH.
Qed.

Lemma translate_ext c1 c2 f :
  mesh c1 = mesh c2 → domainSuffix c1 = domainSuffix c2 →
  translate c1 f = translate c2 f.
Proof. unfold translate. by intros -> ->. Qed.

Lemma with_subscribers_chain mesh0 suffix subs :
  kube.funcs (handler (with_subscribers mesh0 suffix subs))
  = sync_gate :: ((λ sub, translate (NewController mesh0 suffix) sub.2) <$> subs).
Proof.
  induction subs as [|sub subs IH] using rev_ind; [done|].
  destruct (with_subscribers_fields mesh0 suffix subs) as [Hm Hs].
  unfold with_subscribers in *. rewrite foldl_app. simpl.
  rewrite IH, fmap_app. simpl. do 3 f_equal.
  by apply translate_ext.
Qed.

(** What one subscriber is handed for the rules of one ingress, visited
    in the order [order]: every rule as a record of the ingress-rule type
    with an empty revision, together with the event of the ingress. *)
Definition deliver (e : Event) (f : Config → Event → World → World)
    (order : list (string * Message)) (w : World) : World :=
  foldl (λ w kr,
           f {| Config.Typ := IngressRule_Type; Config.Key := kr.1;
                Config.Revision := ""; Config.Content := kr.2 |} e w)
        w order.

Lemma translate_Ingress mesh0 suffix f ingress e st :
  translate (NewController mesh0 suffix) f (object_Ingress ingress) e st
  = Some (if shouldProcessIngress mesh0 ingress then
            {| informer := informer st;
               world := deliver e f
                          (range_order (ranged st) (convertIngress ingress suffix))
                          (world st);
               ranged := S (ranged st) |}
          else st, None).
Proof.
  unfold translate, deliver. simpl.
  by destruct (shouldProcessIngress mesh0 ingress).
Qed.

(** The handlers of the subscribers, run one after the other on an
    ingress that is processed: the [i]-th one visits the rules in the
    order of the [i]-th [range] statement executed. *)
Lemma apply_funcs_processed mesh0 suffix
    (subs : list (string * (Config → Event → World → World))) ingress e st :
  shouldProcessIngress mesh0 ingress = true →
  kube.apply_funcs ((λ sub, translate (NewController mesh0 suffix) sub.2) <$> subs)
    (object_Ingress ingress) e st
  = Some ({| informer := informer st;
             world := foldl (λ w so, deliver e so.1.2 so.2 w) (world st)
                        (zip subs
                           ((λ n, range_order n (convertIngress ingress suffix))
                              <$> seq (ranged st) (length subs)));
             ranged := ranged st + length subs |}, None).
Proof.
  intros Hp. revert st. induction subs as [|sub subs IH]; intros st.
  - simpl. rewrite Nat.add_0_r. by destruct st.
  - cbn [fmap list_fmap kube.apply_funcs].
    rewrite translate_Ingress, Hp. cbn [mbind option_bind].
    rewrite decide_False by (by intros ?). rewrite IH. simpl.
    by rewrite Nat.add_succ_r.
Qed.

(** The same on an ingress that is not processed: nothing happens. *)
Lemma apply_funcs_skipped mesh0 suffix
    (subs : list (string * (Config → Event → World → World))) ingress e st :
  shouldProcessIngress mesh0 ingress = false →
  kube.apply_funcs ((λ sub, translate (NewController mesh0 suffix) sub.2) <$> subs)
    (object_Ingress ingress) e st
  = Some (st, None).
Proof.
  intros Hp. induction subs as [|sub subs IH]; [done|].
  cbn [fmap list_fmap kube.apply_funcs].
  rewrite translate_Ingress, Hp. cbn [mbind option_bind].
  by rewrite decide_False by (by intros ?).
Qed.

(** X27. A [range] statement visits every entry of a map once, in an
    order of its own. Then, once the informer has synced, the chain of a
    controller with registered subscribers succeeds on an ingress and
    leaves the informer as it was; if the ingress passes
    [shouldProcessIngress], every subscriber, in the order of
    registration and whatever type it registered for, is handed every
    rule of the ingress once, in an order that may differ from one
    subscriber to the next; otherwise no subscriber is called. An object
    that is no ingress makes the first subscriber's handler panic. *)
Theorem Apply_delivers_in_order (mesh0 : Mesh) (suffix : string)
    (subs : list (string * (Config → Event → World → World)))
    (ingress : Ingress) (e : Event) (st : env) :
  (∀ n rules, range_order n rules ≡ₚ map_to_list rules) →
  HasSynced (informer st) = true →
  let c := with_subscribers mesh0 suffix subs in
  let rules := convertIngress ingress suffix in
  (∃ orders st',
     kube.Apply (handler c) (object_Ingress ingress) e st = Some (st', None) ∧
     informer st' = informer st ∧
     length orders = length subs ∧
     Forall (λ order, order ≡ₚ map_to_list rules) orders ∧
     world st' =
       if shouldProcessIngress mesh0 ingress then
         foldl (λ w so, deliver e so.1.2 so.2 w) (world st) (zip subs orders)
       else world st) ∧
  (subs ≠ [] → kube.Apply (handler c) object_other e st = None).
Proof.
  intros Hrange Hs c rules. unfold c, kube.Apply. rewrite with_subscribers_chain.
  cbn [kube.apply_funcs]. unfold sync_gate. rewrite Hs.
  cbn [negb mbind option_bind]. rewrite decide_False by (by intros ?).
  split.
  - destruct (shouldProcessIngress mesh0 ingress) eqn:Hp.
    + rewrite apply_funcs_processed by done.
      eexists ((λ n, range_order n rules) <$> seq (ranged st) (length subs)), _.
      split; [done|]. simpl. split_and!; try done.
      * by rewrite length_fmap, length_seq.
      * apply Forall_fmap, Forall_forall. intros n _. apply Hrange.
    + rewrite apply_funcs_skipped by done.
      exists (replicate (length subs) (map_to_list rules)), st.
      split_and!; try done.
      * by rewrite length_replicate.
      * by apply Forall_replicate.
  - intros Hne. destruct subs as [|sub subs]; [done|]. done.
Qed.

End controller.

(** A controller over string-named ingresses, to run the operations on. *)
Definition sample_informer : @SharedIndexInformer string :=
  {| HasSynced := true;
     GetByKey := λ key,
       if decide (key = "default/web") then (Some (object_Ingress "web"), true, None)
       else (None, false, None);
     Store_List := [object_Ingress "web"] |}.

Definition sample_env : @env string unit :=
  {| informer := sample_informer; world := tt; ranged := 0 |}.

Definition sample_controller : controller (Ingress := string) (World := unit) :=
  NewController tt "cluster.local".

Lemma Get_List_foreign_type_witness :
  "route-rule" ≠ "ingress-rule" ∧
  Get "ingress-rule" (λ key, (key, "default", 0, 0, None)) (λ _ _, true)
      (λ ingress suffix, {[ ingress := ingress +:+ "." +:+ suffix ]})
      (λ name namespace, namespace +:+ "/" +:+ name) (λ _, "7")
      sample_controller sample_env "route-rule" "web"
    = Some (None, false, "") ∧
  List "ingress-rule" (λ _ _, true)
      (λ ingress suffix, {[ ingress := ingress +:+ "." +:+ suffix ]}) (λ _, "7")
      sample_controller sample_env "route-rule"
    = Some ([], errUnsupportedOp).
Proof.
  assert ("route-rule" ≠ "ingress-rule") as Hne by discriminate.
  split; [exact Hne|].
  destruct (Get_List_foreign_type "ingress-rule"
              (λ key, (key, "default", 0, 0, None)) (λ _ _, true)
              (λ ingress suffix, {[ ingress := ingress +:+ "." +:+ suffix ]})
              (λ name namespace, namespace +:+ "/" +:+ name) (λ _, "7")
              sample_controller sample_env "route-rule" "web" Hne) as (HGet & HList & _).
  split; [exact HGet|exact HList].
Defined.

(** The same controller does find the rule of its own type. *)
Example Get_ingress_rule :
  Get "ingress-rule" (λ key, (key, "default", 0, 0, None)) (λ _ _, true)
      (λ ingress suffix, {[ ingress := ingress +:+ "." +:+ suffix ]})
      (λ name namespace, namespace +:+ "/" +:+ name) (λ _, "7")
      sample_controller sample_env "ingress-rule" "web"
    = Some (Some "web.cluster.local", true, "7").
Proof. by vm_compute. Qed.

Lemma Get_found_is_listed_witness :
  ∃ out,
    List "ingress-rule" (λ _ _, true)
      (λ ingress suffix, {[ ingress := ingress +:+ "." +:+ suffix ]}) (λ _, "7")
      sample_controller sample_env "ingress-rule"
    = Some (out, None) ∧
    {| Config.Typ := "ingress-rule"; Config.Key := "web";
       Config.Revision := "7"; Config.Content := "web.cluster.local" |} ∈ out.
Proof.
  eexists. split; [by vm_compute|].
  apply (Get_found_is_listed "ingress-rule"
           (λ key, (key, "default", 0, 0, None)) (λ _ _, true)
           (λ ingress suffix, {[ ingress := ingress +:+ "." +:+ suffix ]})
           (λ name namespace, namespace +:+ "/" +:+ name) (λ _, "7")
           sample_controller sample_env "web" "web.cluster.local" "7")
    with (err := None).
  - intros storeKey obj. simpl. case_decide; [|done]. intros [= <-]. by left.
  - by vm_compute.
  - by vm_compute.
Defined.

(** A synced informer, and two subscribers that log what they are
    handed under their own names. *)
Definition logging_env : @env string (list (string * Config.t string * Event)) :=
  {| informer := sample_informer; world := []; ranged := 0 |}.

Definition logging (name : string)
    : Config.t string → Event → list (string * Config.t string * Event)
      → list (string * Config.t string * Event) :=
  λ config e log, log ++ [(name, config, e)].

(** An ingress with two rules, and [range] statements that visit a map
    forwards and backwards in turn. *)
Definition two_rules (ingress suffix : string) : gmap string string :=
  {[ ingress +:+ "-1" := ingress +:+ "." +:+ suffix;
     ingress +:+ "-2" := ingress +:+ "." +:+ suffix ]}.

Definition alternating (n : nat) (rules : gmap string string) : list (string * string) :=
  if Nat.even n then map_to_list rules else reverse (map_to_list rules).

Lemma alternating_visits_all n rules : alternating n rules ≡ₚ map_to_list rules.
Proof.
  unfold alternating. destruct (Nat.even n); [done|]. apply reverse_Permutation.
Qed.

Lemma Apply_delivers_in_order_witness :
  ∃ orders st',
    kube.Apply
      (handler (with_subscribers "ingress-rule" (λ _ _, true) two_rules alternating
                  tt "cluster.local"
                  [("ingress-rule", logging "first"); ("route-rule", logging "second")]))
      (object_Ingress "web") EventAdd logging_env
    = Some (st', None) ∧
    length orders = 2%nat ∧
    Forall (λ order, order ≡ₚ map_to_list (two_rules "web" "cluster.local")) orders ∧
    world st' =
      foldl (λ w so, deliver "ingress-rule" EventAdd so.1.2 so.2 w) []
        (zip [("ingress-rule", logging "first"); ("route-rule", logging "second")]
             orders).
Proof.
  destruct (Apply_delivers_in_order "ingress-rule" (λ _ _, true) two_rules alternating
              tt "cluster.local"
              [("ingress-rule", logging "first"); ("route-rule", logging "second")]
              "web" EventAdd logging_env alternating_visits_all eq_refl)
    as [(orders & st' & Hrun & _ & Hlen & Hall & Hw) _].
  by exists orders, st'.
Defined.

(** On that ingress the two subscribers are handed the same two rules,
    the second one in the opposite order. *)
Example Apply_orders_differ :
  world <$> (fst <$>
    kube.Apply
      (handler (with_subscribers "ingress-rule" (λ _ _, true) two_rules alternating
                  tt "cluster.local"
                  [("ingress-rule", logging "first"); ("route-rule", logging "second")]))
      (object_Ingress "web") EventAdd logging_env)
  = Some ((λ nk, (nk.1, {| Config.Typ := "ingress-rule"; Config.Key := nk.2;
                           Config.Revision := "";
                           Config.Content := "web.cluster.local" |}, EventAdd))
            <$> [("first", "web-1"); ("first", "web-2");
                 ("second", "web-2"); ("second", "web-1")])
    ∨
  world <$> (fst <$>
    kube.Apply
      (handler (with_subscribers "ingress-rule" (λ _ _, true) two_rules alternating
                  tt "cluster.local"
                  [("ingress-rule", logging "first"); ("route-rule", logging "second")]))
      (object_Ingress "web") EventAdd logging_env)
  = Some ((λ nk, (nk.1, {| Config.Typ := "ingress-rule"; Config.Key := nk.2;
                           Config.Revision := "";
                           Config.Content := "web.cluster.local" |}, EventAdd))
            <$> [("first", "web-2"); ("first", "web-1");
                 ("second", "web-1"); ("second", "web-2")]).
Proof. vm_compute. first [by left|by right]. Qed.

End ingress.
